(** * Vector addition, serial and block-distributed

    A shallow embedding of [main-lab/modified_vector_add.c] (the serial
    program) and [main-lab/mpi_vector_sum.c] (the MPI program), and the
    properties of both that the specification states.

    - C [double] is IEEE 754 binary64: Rocq's primitive [float], whose
      operations are specified by [SpecFloat].
    - Each process has a heap of arrays of doubles, a random number
      generator, a clock and two output streams.  [malloc] may fail; what a
      fresh block holds is chosen by the environment.
    - A process is a resumption: it runs until it returns, exits, faults or
      reaches an MPI collective; [Mpi.run] advances all ranks together
      through their collectives. *)

From Stdlib Require Import ZArith Floats Uint63 Lia String.
From stdpp Require Import base list gmap.

Local Open Scope Z_scope.

(** ** Doubles *)

Abbreviation double := float (only parsing).

Definition dadd (a b : double) : double := PrimFloat.add a b.
Definition ddiv (a b : double) : double := PrimFloat.div a b.
Definition dleb (a b : double) : bool := PrimFloat.leb a b.
(** [a == b] as C compares doubles: [-0.0 == 0.0] holds, and a NaN
    compares equal to nothing, itself included. *)
Definition deqb (a b : double) : bool := PrimFloat.eqb a b.
(** [a != a], that is, [a] is a NaN. *)
Definition d_is_nan (a : double) : bool := negb (deqb a a).
Arguments dadd : simpl never.
Arguments ddiv : simpl never.
Arguments dleb : simpl never.
Arguments deqb : simpl never.

(** The C conversion of an [int] to [double], for an [int] of at most 64
    bits. *)
Definition int_to_double (k : Z) : double :=
  if k <? 0 then PrimFloat.opp (PrimFloat.of_uint63 (Uint63.of_Z (- k)))
  else PrimFloat.of_uint63 (Uint63.of_Z k).

Definition d_zero : double := 0%float.
Definition d_neg_zero : double := (-0)%float.
Definition d_ten : double := 10%float.
(** [99.9] as C reads it: the binary64 value nearest to 99.9. *)
Definition d_99_9 : double := 0x1.8f9999999999ap+6%float.

Definition is_neg_zero (a : double) : bool :=
  match Prim2SF a with S754_zero true => true | _ => false end.

(** ** The C library as the programs see it *)

(** [rand], [srand] and [RAND_MAX].  [rand] returns a value in
    [0 .. RAND_MAX], and [RAND_MAX] is at least 32767 (C11 7.22.2) and, being
    an [int], below [2 ^ 63]. *)
Class Libc : Type := {
  rng_state : Type;
  RAND_MAX : Z;
  srand : Z -> rng_state;
  rand : rng_state -> Z * rng_state;
  rand_range : forall g, 0 <= fst (rand g) <= RAND_MAX;
  RAND_MAX_min : 32767 <= RAND_MAX;
  RAND_MAX_max : RAND_MAX < 2 ^ 63
}.

(** The generator of the C standard's sample implementation. *)
Definition ansi_rand (g : Z) : Z * Z :=
  let g' := (g * 1103515245 + 12345) mod 2 ^ 32 in
  ((g' / 65536) mod 32768, g').

(** What the environment decides for one process: whether its [k]-th call
    of [malloc] succeeds, what the block it returns holds, and what the
    [k]-th call of [time] returns. *)
Record env : Type := {
  malloc_ok : nat -> bool;
  malloc_junk : nat -> nat -> double;
  time_at : nat -> Z
}.

(** A pointer to an array of doubles: [None] is [NULL], [Some b] the block
    the [b]-th [malloc] returned. *)
Definition ptr : Type := option nat.

Inductive printf_arg : Type :=
| ArgInt (z : Z)
| ArgStr (s : string)
| ArgDouble (d : double).

(** One call of [printf] or [fprintf]: the format and its arguments. *)
Record printf_call : Type := { fmt : string; args : list printf_arg }.

(** The collectives the MPI program calls.  The datatype is always
    [MPI_DOUBLE] (for scatter and gather) or [MPI_INT] (for the reduction),
    the operator always [MPI_MIN] and the communicator [MPI_COMM_WORLD]. *)
Inductive collective : Type :=
| MPI_Allreduce_min (sendval : Z)
| MPI_Scatter (sendbuf : ptr) (sendcount : nat) (recvbuf : ptr) (recvcount : nat)
    (root : nat)
| MPI_Gather (sendbuf : ptr) (sendcount : nat) (recvbuf : ptr) (recvcount : nat)
    (root : nat).

Section Process.
Context {L : Libc}.

(** The state of one process. *)
Record lstate : Type := {
  heap : gmap nat (list double);
  brk : nat;               (* calls of malloc so far *)
  rng : rng_state;
  clock : nat;             (* calls of time so far *)
  out : list printf_call;  (* stdout, oldest first *)
  err : list printf_call   (* stderr, oldest first *)
}.

Definition with_heap (h : gmap nat (list double)) (s : lstate) : lstate :=
  {| heap := h; brk := brk s; rng := rng s; clock := clock s; out := out s;
     err := err s |}.
Definition with_brk (b : nat) (s : lstate) : lstate :=
  {| heap := heap s; brk := b; rng := rng s; clock := clock s; out := out s;
     err := err s |}.
Definition with_rng (g : rng_state) (s : lstate) : lstate :=
  {| heap := heap s; brk := brk s; rng := g; clock := clock s; out := out s;
     err := err s |}.
Definition with_clock (c : nat) (s : lstate) : lstate :=
  {| heap := heap s; brk := brk s; rng := rng s; clock := c; out := out s;
     err := err s |}.
Definition with_out (o : list printf_call) (s : lstate) : lstate :=
  {| heap := heap s; brk := brk s; rng := rng s; clock := clock s; out := o;
     err := err s |}.
Definition with_err (e : list printf_call) (s : lstate) : lstate :=
  {| heap := heap s; brk := brk s; rng := rng s; clock := clock s; out := out s;
     err := e |}.

(** A process starts with an empty heap and the generator seeded with 1. *)
Definition initial_state : lstate :=
  {| heap := ∅; brk := 0; rng := srand 1; clock := 0; out := []; err := [] |}.

(** How far a computation got: it returned a value, called [exit], ran into
    undefined behaviour, or waits in a collective to be resumed with its
    result. *)
Inductive res (A : Type) : Type :=
| Ret (a : A) (s : lstate)
| Halt (status : Z) (s : lstate)
| Fault (s : lstate)
| Coll (c : collective) (s : lstate) (k : Z -> lstate -> res A).
#[global] Arguments Ret {A} a s.
#[global] Arguments Halt {A} status s.
#[global] Arguments Fault {A} s.
#[global] Arguments Coll {A} c s k.

Definition R (A : Type) : Type := lstate -> res A.

Fixpoint bind_res {A B : Type} (r : res A) (f : A -> R B) : res B :=
  match r with
  | Ret a s => f a s
  | Halt c s => Halt c s
  | Fault s => Fault s
  | Coll c s k => Coll c s (fun v s' => bind_res (k v s') f)
  end.

Definition ret {A : Type} (a : A) : R A := fun s => Ret a s.
Definition bind {A B : Type} (m : R A) (f : A -> R B) : R B :=
  fun s => bind_res (m s) f.
Definition exit {A : Type} (status : Z) : R A := fun s => Halt status s.
(** A collective call: the process waits, and is resumed with what the
    collective delivers. *)
Definition call (c : collective) : R Z := fun s => Coll c s (fun v s' => Ret v s').

End Process.

Arguments Ret {L A} a s.
Arguments Halt {L A} status s.
Arguments Fault {L A} s.
Arguments Coll {L A} c s k.

Notation "'let*' x ':=' m 'in' k" := (bind m (fun x => k))
  (at level 10, x pattern, m at level 100, k at level 200).
Notation "m '>>>' k" := (bind m (fun _ => k))
  (at level 100, k at level 200, right associativity).

Section Runtime.
Context {L : Libc} (E : env).

(** [for (i = i0; i < i0 + count; i++) body] *)
Fixpoint for_loop (i count : nat) (body : nat -> R unit) : R unit :=
  match count with
  | O => ret tt
  | S c => body i >>> for_loop (S i) c body
  end.

(** [malloc (n * sizeof (double))] *)
Definition malloc (n : nat) : R ptr := fun s =>
  let b := brk s in
  if malloc_ok E b
  then Ret (Some b)
         (with_brk (S b) (with_heap (<[b := map (malloc_junk E b) (seq 0 n)]> (heap s)) s))
  else Ret None (with_brk (S b) s).

(** [free (p)]; [free (NULL)] does nothing. *)
Definition free (p : ptr) : R unit := fun s =>
  match p with
  | None => Ret tt s
  | Some b =>
      match heap s !! b with
      | Some _ => Ret tt (with_heap (delete b (heap s)) s)
      | None => Fault s
      end
  end.

(** [p[i]] read *)
Definition load (p : ptr) (i : nat) : R double := fun s =>
  match p with
  | None => Fault s
  | Some b =>
      match heap s !! b with
      | Some a => match a !! i with Some v => Ret v s | None => Fault s end
      | None => Fault s
      end
  end.

(** [p[i] = v] *)
Definition store (p : ptr) (i : nat) (v : double) : R unit := fun s =>
  match p with
  | None => Fault s
  | Some b =>
      match heap s !! b with
      | Some a =>
          if decide (i < length a)%nat
          then Ret tt (with_heap (<[b := <[i := v]> a]> (heap s)) s)
          else Fault s
      | None => Fault s
      end
  end.

(** [time (NULL)] *)
Definition time_null : R Z := fun s =>
  Ret (time_at E (clock s)) (with_clock (S (clock s)) s).

(** [srand (seed)]: the argument is converted to [unsigned]. *)
Definition srand_ (seed : Z) : R unit := fun s =>
  Ret tt (with_rng (srand (seed mod 2 ^ 32)) s).

(** [rand ()] *)
Definition rand_ : R Z := fun s =>
  Ret (fst (rand (rng s))) (with_rng (snd (rand (rng s))) s).

Definition printf (f : string) (a : list printf_arg) : R unit := fun s =>
  Ret tt (with_out (out s ++ [{| fmt := f; args := a |}]) s).

Definition fprintf_stderr (f : string) (a : list printf_arg) : R unit := fun s =>
  Ret tt (with_err (err s ++ [{| fmt := f; args := a |}]) s).

End Runtime.

Definition is_null (p : ptr) : bool :=
  match p with None => true | Some _ => false end.

(** The newline character of a C string literal. *)
Definition nl : string := String (Ascii.ascii_of_nat 10) EmptyString.

(** ** The serial program, [modified_vector_add.c] *)

Module Serial.
Section Program.
Context {L : Libc} (E : env).

Definition VECTOR_SIZE : nat := Z.to_nat 100000.

Definition Allocate_vectors (n : nat) : R (ptr * ptr * ptr) :=
  let* x := malloc E n in
  let* y := malloc E n in
  let* z := malloc E n in
  if is_null x || is_null y || is_null z
  then fprintf_stderr ("Can't allocate vectors" ++ nl) [] >>> exit (-1)
  else ret (x, y, z).

Definition Generate_random_vector (a : ptr) (n : nat) : R unit :=
  let* t := time_null E in
  srand_ t >>>
  for_loop 0 n (fun i =>
    let* r := rand_ in
    store a i (ddiv (int_to_double (Z.rem r 1000)) d_ten)).

Definition Print_part_of_vector (b : ptr) (n : nat) (title : string) : R unit :=
  printf ("%s" ++ nl) [ArgStr title] >>>
  for_loop 0 (Nat.min 10 n) (fun i =>
    let* v := load b i in
    printf "%.2f " [ArgDouble v]) >>>
  printf nl [].

Definition Vector_sum (x y z : ptr) (n : nat) : R unit :=
  for_loop 0 n (fun i =>
    let* a := load x i in
    let* b := load y i in
    store z i (dadd a b)).

Definition main : R Z :=
  let n := VECTOR_SIZE in
  let* (x, y, z) := Allocate_vectors n in
  Generate_random_vector x n >>>
  Generate_random_vector y n >>>
  Vector_sum x y z n >>>
  Print_part_of_vector z n "A part of the sum is" >>>
  free x >>>
  free y >>>
  free z >>>
  ret 0.

End Program.
End Serial.

(** ** The MPI program, [mpi_vector_sum.c] *)

Module Mpi.

(** A communicator as one of its processes sees it. *)
Record MPI_Comm : Type := { comm_size : nat; comm_rank : nat }.

Section Program.
Context {L : Libc} (E : env).

Definition MPI_Init : R unit := ret tt.
Definition MPI_Finalize : R unit := ret tt.
Definition MPI_Comm_size (comm : MPI_Comm) : R nat := ret (comm_size comm).
Definition MPI_Comm_rank (comm : MPI_Comm) : R nat := ret (comm_rank comm).
Definition fflush_stderr : R unit := ret tt.

(** The format of the diagnostic ends in a backslash and an [n]: the source
    writes the escape doubled. *)
Definition Check_for_error (local_ok : Z) (fname message : string)
    (comm : MPI_Comm) : R unit :=
  let* ok := call (MPI_Allreduce_min local_ok) in
  if ok =? 0 then
    let* my_rank := MPI_Comm_rank comm in
    (if (my_rank =? 0)%nat then
       fprintf_stderr "Proc %d > In %s, %s\n"
         [ArgInt (Z.of_nat my_rank); ArgStr fname; ArgStr message] >>>
       fflush_stderr
     else ret tt) >>>
    MPI_Finalize >>>
    exit (-1)
  else ret tt.

(** [comm_sz] is the size of [MPI_COMM_WORLD], which is at least 1. *)
Definition Read_n (my_rank comm_sz : nat) (comm : MPI_Comm) : R (nat * nat) :=
  let n := Z.to_nat 100000 in
  ret (n, (n / comm_sz)%nat).

Definition Read_vector (local_a : ptr) (local_n n : nat) (vec_name : string)
    (my_rank : nat) (comm : MPI_Comm) : R unit :=
  let a : ptr := None in
  if (my_rank =? 0)%nat then
    let* a := malloc E n in
    for_loop 0 n (fun i =>
      let* r := rand_ in
      store a i (ddiv (int_to_double r) (int_to_double RAND_MAX))) >>>
    call (MPI_Scatter a local_n local_a local_n 0) >>>
    free a
  else
    call (MPI_Scatter a local_n local_a local_n 0) >>>
    ret tt.

Definition Allocate_vectors (local_n : nat) (comm : MPI_Comm) : R (ptr * ptr * ptr) :=
  let local_ok := 1 in
  let* local_x := malloc E local_n in
  let* local_y := malloc E local_n in
  let* local_z := malloc E local_n in
  let local_ok :=
    if is_null local_x || is_null local_y || is_null local_z then 0 else local_ok in
  Check_for_error local_ok "Allocate_vectors" "Can't allocate local arrays" comm >>>
  ret (local_x, local_y, local_z).

Definition Print_vector (local_b : ptr) (local_n n : nat) (title : string)
    (my_rank : nat) (comm : MPI_Comm) : R unit :=
  let b : ptr := None in
  let local_ok := 1 in
  let fname := "Print_vector"%string in
  if (my_rank =? 0)%nat then
    let* b := malloc E n in
    let local_ok := if is_null b then 0 else local_ok in
    Check_for_error local_ok fname "Can't allocate temporary vector" comm >>>
    call (MPI_Gather local_b local_n b local_n 0) >>>
    printf "%s\n" [ArgStr title] >>>
    for_loop 0 n (fun i =>
      let* v := load b i in
      printf "%f " [ArgDouble v]) >>>
    printf "\n" [] >>>
    free b
  else
    Check_for_error local_ok fname "Can't allocate temporary vector" comm >>>
    call (MPI_Gather local_b local_n b local_n 0) >>>
    ret tt.

Definition Parallel_vector_sum (local_x local_y local_z : ptr) (local_n : nat)
    : R unit :=
  for_loop 0 local_n (fun local_i =>
    let* a := load local_x local_i in
    let* b := load local_y local_i in
    store local_z local_i (dadd a b)).

(** [main] after [Allocate_vectors], for the [n] and [local_n] that [Read_n]
    produced and the three arrays allocated. *)
Definition main_after_Allocate_vectors (n local_n my_rank : nat) (comm : MPI_Comm)
    (local_x local_y local_z : ptr) : R Z :=
  Read_vector local_x local_n n "x" my_rank comm >>>
  Read_vector local_y local_n n "y" my_rank comm >>>
  Parallel_vector_sum local_x local_y local_z local_n >>>
  Print_vector local_z local_n n "The sum is" my_rank comm >>>
  free local_x >>>
  free local_y >>>
  free local_z >>>
  MPI_Finalize >>>
  ret 0.

(** [main] from [Allocate_vectors] to its end. *)
Definition main_after_Read_n (n local_n my_rank : nat) (comm : MPI_Comm) : R Z :=
  let* (local_x, local_y, local_z) := Allocate_vectors local_n comm in
  main_after_Allocate_vectors n local_n my_rank comm local_x local_y local_z.

Definition main (MPI_COMM_WORLD : MPI_Comm) : R Z :=
  MPI_Init >>>
  let comm := MPI_COMM_WORLD in
  let* comm_sz := MPI_Comm_size comm in
  let* my_rank := MPI_Comm_rank comm in
  let* (n, local_n) := Read_n my_rank comm_sz comm in
  main_after_Read_n n local_n my_rank comm.

End Program.

(** *** The processes of one run, advanced through their collectives *)

Section World.
Context {L : Libc} {A : Type}.

Inductive outcome : Type :=
| Terminated (finals : list (res A))   (* every process has ended *)
| Deadlock     (* some processes have ended, the others wait in a collective *)
| Undefined    (* a process faulted, or the collective calls do not match *)
| Timeout.

Definition is_fault (r : res A) : bool :=
  match r with Fault _ => true | _ => false end.

Definition is_done (r : res A) : bool :=
  match r with Ret _ _ | Halt _ _ => true | _ => false end.

Definition allreduce_arg (r : res A) : option Z :=
  match r with Coll (MPI_Allreduce_min v) _ _ => Some v | _ => None end.

(** [MPI_Allreduce] with [MPI_MIN] over one [int]: every process receives the
    least of the values sent. *)
Definition allreduce_round (ps : list (res A)) : outcome + list (res A) :=
  match mapM allreduce_arg ps with
  | Some (v :: vs) =>
      inr (map (fun r => match r with
                         | Coll _ s k => k (foldr Z.min v vs) s
                         | _ => r
                         end) ps)
  | _ => inl Undefined
  end.

(** The block of [count] elements that rank [r] gets from the send buffer. *)
Definition scatter_block (a : list double) (count r : nat) : list double :=
  take count (drop (r * count) a).

(** What rank [r] does in [MPI_Scatter] from [root], whose send buffer holds
    [a]: its block overwrites the first [rc] elements of its receive buffer. *)
Definition scatter_recv (a : list double) (sc root r : nat) (pr : res A)
    : option (res A) :=
  match pr with
  | Coll (MPI_Scatter _ _ (Some rb) rc root') s k =>
      match heap s !! rb with
      | Some old =>
          if decide (root' = root /\ rc = sc /\ rc <= length old)%nat
          then Some (k 0 (with_heap
                 (<[rb := scatter_block a sc r ++ drop rc old]> (heap s)) s))
          else None
      | None => None
      end
  | _ => None
  end.

Definition scatter_round (root : nat) (ps : list (res A)) : outcome + list (res A) :=
  match ps !! root with
  | Some (Coll (MPI_Scatter (Some sb) sc _ _ _) s _) =>
      match heap s !! sb with
      | Some a =>
          if decide (length ps * sc <= length a)%nat then
            match mapM id (imap (scatter_recv a sc root) ps) with
            | Some ps' => inr ps'
            | None => inl Undefined
            end
          else inl Undefined
      | None => inl Undefined
      end
  | _ => inl Undefined
  end.

(** What a rank sends in [MPI_Gather] to [root]: the first [rc] elements of
    its send buffer. *)
Definition gather_send (rc root : nat) (pr : res A) : option (list double) :=
  match pr with
  | Coll (MPI_Gather (Some sb) sc _ _ root') s _ =>
      match heap s !! sb with
      | Some blk =>
          if decide (root' = root /\ sc = rc /\ sc <= length blk)%nat
          then Some (take sc blk)
          else None
      | None => None
      end
  | _ => None
  end.

(** [MPI_Gather]: the root's receive buffer gets the blocks in rank order. *)
Definition gather_round (root : nat) (ps : list (res A)) : outcome + list (res A) :=
  match ps !! root with
  | Some (Coll (MPI_Gather _ _ (Some rb) rc _) s _) =>
      match heap s !! rb with
      | Some old =>
          if decide (length ps * rc <= length old)%nat then
            match mapM (gather_send rc root) ps with
            | Some blocks =>
                inr (imap (fun r pr =>
                  match pr with
                  | Coll _ s' k =>
                      k 0 (if decide (r = root)
                           then with_heap
                                  (<[rb := concat blocks ++ drop (length ps * rc) old]>
                                     (heap s')) s'
                           else s')
                  | _ => pr
                  end) ps)
            | None => inl Undefined
            end
          else inl Undefined
      | None => inl Undefined
      end
  | _ => inl Undefined
  end.

(** One round: all processes are examined; if all wait, the collective that
    rank 0 waits in is performed. *)
Definition step (ps : list (res A)) : outcome + list (res A) :=
  if existsb is_fault ps then inl Undefined
  else if forallb is_done ps then inl (Terminated ps)
  else if existsb is_done ps then inl Deadlock
  else
    match head ps with
    | Some (Coll (MPI_Allreduce_min _) _ _) => allreduce_round ps
    | Some (Coll (MPI_Scatter _ _ _ _ root) _ _) => scatter_round root ps
    | Some (Coll (MPI_Gather _ _ _ _ root) _ _) => gather_round root ps
    | _ => inl Undefined
    end.

(** The processes after [k] rounds of collectives, if there are that many. *)
Fixpoint rounds (k : nat) (ps : list (res A)) : option (list (res A)) :=
  match k with
  | O => Some ps
  | S k' =>
      match step ps with
      | inl _ => None
      | inr ps' => rounds k' ps'
      end
  end.

Fixpoint run (fuel : nat) (ps : list (res A)) : outcome :=
  match fuel with
  | O => Timeout
  | S fuel' =>
      match step ps with
      | inl o => o
      | inr ps' => run fuel' ps'
      end
  end.

End World.

Arguments outcome {L} A.

(** [mpiexec -n p]: [p] processes run [prog], rank [r] in environment
    [envs r]. *)
Definition spmd {L : Libc} {A : Type} (p : nat) (prog : nat -> R A) : list (res A) :=
  map (fun r => prog r initial_state) (seq 0 p).

Definition mpiexec {L : Libc} (fuel p : nat) (envs : nat -> env) : outcome Z :=
  run fuel
    (spmd p (fun r => main (envs r) {| comm_size := p; comm_rank := r |})).

End Mpi.

(** ** What the theorems speak of *)

(** The first [n] values [rand] returns from generator state [g], and the
    state it is left in. *)
Fixpoint rand_outputs {L : Libc} (g : rng_state) (n : nat) : list Z :=
  match n with
  | O => []
  | S n' => fst (rand g) :: rand_outputs (snd (rand g)) n'
  end.

Fixpoint rand_advance {L : Libc} (g : rng_state) (n : nat) : rng_state :=
  match n with
  | O => g
  | S n' => rand_advance (snd (rand g)) n'
  end.

(** The vector the serial program generates from a generator seeded with
    [seed]. *)
Definition seeded_vector {L : Libc} (seed : Z) (n : nat) : list double :=
  map (fun r => ddiv (int_to_double (Z.rem r 1000)) d_ten)
    (rand_outputs (srand seed) n).

(** A state whose heap holds three arrays, as blocks 0, 1 and 2. *)
Definition three_arrays {L : Libc} (xs ys zs : list double) : lstate :=
  with_brk 3 (with_heap (<[2%nat := zs]> (<[1%nat := ys]> (<[0%nat := xs]> ∅)))
                initial_state).

(** The output array a summation leaves when it is run on arrays holding
    [xs] and [ys] and an output array of their length. *)
Definition kernel_output {L : Libc} (sum : ptr -> ptr -> ptr -> nat -> R unit)
    (xs ys : list double) : option (list double) :=
  match sum (Some 0%nat) (Some 1%nat) (Some 2%nat) (length xs)
          (three_arrays xs ys (replicate (length xs) d_zero)) with
  | Ret _ s => heap s !! 2%nat
  | _ => None
  end.

(** The distributed computation on full vectors [x] and [y]: rank [r] gets
    block [r] of each as [MPI_Scatter] hands it out, runs
    [Parallel_vector_sum] on its two blocks, and the output blocks are put
    one after the other in rank order, as [MPI_Gather] does. *)
Definition distributed_output {L : Libc} (p local_n : nat) (x y : list double)
    : option (list double) :=
  match mapM (fun r => kernel_output Mpi.Parallel_vector_sum
                         (Mpi.scatter_block x local_n r)
                         (Mpi.scatter_block y local_n r)) (seq 0 p) with
  | Some blocks => Some (concat blocks)
  | None => None
  end.

(** What [x + 0.0] is. *)
Definition plus_zero (a : double) : double :=
  if is_neg_zero a then d_zero else a.

(** A process waits in collective [c] in state [s], and resumed with [v]
    in state [s'] goes on as [next v s']. *)
Definition waits_at {L : Libc} {A : Type} (pr : res A) (c : collective)
    (s : lstate) (next : Z -> lstate -> res A) : Prop :=
  exists k, pr = Coll c s k /\ forall v s', k v s' = next v s'.

Definition waiting_state {L : Libc} {A : Type} (pr : res A) : lstate :=
  match pr with
  | Ret _ s | Halt _ s | Fault s | Coll _ s _ => s
  end.

Definition cont_of {L : Libc} {A : Type} (pr : res A) : Z -> lstate -> res A :=
  match pr with
  | Coll _ _ k => k
  | _ => fun _ _ => pr
  end.

(** The processes of ranks [0 .. p - 1]. *)
Definition world {L : Libc} {A : Type} (p : nat) (prog : nat -> res A)
    : list (res A) :=
  map prog (seq 0 p).

(** What [Check_for_error] writes to [stderr]. *)
Definition diagnostic (my_rank : nat) (fname message : string) : printf_call :=
  {| fmt := "Proc %d > In %s, %s\n";
     args := [ArgInt (Z.of_nat my_rank); ArgStr fname; ArgStr message] |}.

(** The [local_ok] of [Allocate_vectors] in the MPI program, when the first
    of its three calls of [malloc] is the [b]-th of the process. *)
Definition alloc_flag (E : env) (b : nat) : Z :=
  if malloc_ok E b && malloc_ok E (S b) && malloc_ok E (S (S b)) then 1 else 0.

(** What a call of [malloc] returns and the state it leaves. *)
Definition malloc_ptr {L : Libc} (E : env) (s : lstate) : ptr :=
  if malloc_ok E (brk s) then Some (brk s) else None.

Definition malloc_state {L : Libc} (E : env) (n : nat) (s : lstate) : lstate :=
  if malloc_ok E (brk s)
  then with_brk (S (brk s))
         (with_heap (<[brk s := map (malloc_junk E (brk s)) (seq 0 n)]> (heap s)) s)
  else with_brk (S (brk s)) s.

(** The state three calls of [malloc] leave. *)
Definition after_Allocate {L : Libc} (E : env) (n : nat) (s : lstate) : lstate :=
  malloc_state E n (malloc_state E n (malloc_state E n s)).

(** The three pointers [Allocate_vectors] obtains. *)
Definition alloc_ptrs {L : Libc} (E : env) (n : nat) (s : lstate) : ptr * ptr * ptr :=
  (malloc_ptr E s,
   malloc_ptr E (malloc_state E n s),
   malloc_ptr E (malloc_state E n (malloc_state E n s))).

(** The vector rank 0 of the MPI program generates from generator state
    [g]. *)
Definition mpi_vector {L : Libc} (g : rng_state) (n : nat) : list double :=
  map (fun r => ddiv (int_to_double r) (int_to_double RAND_MAX)) (rand_outputs g n).

(** The state in which rank [r] enters the scatter of [Read_vector]: rank 0
    has allocated and filled the full vector. *)
Definition before_scatter {L : Libc} (n r : nat) (s : lstate) : lstate :=
  if (r =? 0)%nat
  then with_rng (rand_advance (rng s) n)
         (with_heap (<[brk s := mpi_vector (rng s) n]> (heap s))
            (with_brk (S (brk s)) s))
  else s.

(** The state in which rank [r] leaves [Read_vector], when the full vector
    was [X]: its block is in [local_a], and rank 0 has freed the full
    vector. *)
Definition after_Read_vector {L : Libc} (la local_n n : nat) (X : list double)
    (r : nat) (s : lstate) : lstate :=
  let s1 := before_scatter n r s in
  let s2 := with_heap (<[la := Mpi.scatter_block X local_n r]> (heap s1)) s1 in
  if (r =? 0)%nat then with_heap (delete (brk s) (heap s2)) s2 else s2.

(** The [local_ok] of [Print_vector] on rank [r]. *)
Definition print_flag (E : env) (r b : nat) : Z :=
  if (r =? 0)%nat then (if malloc_ok E b then 1 else 0) else 1.

(** The state in which rank [r] enters the reduction of [Print_vector]:
    rank 0 has called [malloc]. *)
Definition before_print {L : Libc} (E : env) (n r : nat) (s : lstate) : lstate :=
  if (r =? 0)%nat then malloc_state E n s else s.

(** [Print_vector] after its call of [Check_for_error], [b] being the
    temporary vector. *)
Definition Print_vector_after_check {L : Libc} (local_b : ptr) (local_n n : nat)
    (title : string) (my_rank : nat) (b : ptr) : R unit :=
  if (my_rank =? 0)%nat then
    call (MPI_Gather local_b local_n b local_n 0) >>>
    printf "%s\n" [ArgStr title] >>>
    for_loop 0 n (fun i =>
      let* v := load b i in
      printf "%f " [ArgDouble v]) >>>
    printf "\n" [] >>>
    free b
  else
    call (MPI_Gather local_b local_n b local_n 0) >>>
    ret tt.

(** What rank 0 prints for the vector [B]. *)
Definition printed (title : string) (B : list double) : list printf_call :=
  {| fmt := "%s\n"; args := [ArgStr title] |}
  :: map (fun v => {| fmt := "%f "; args := [ArgDouble v] |}) B
  ++ [{| fmt := "\n"; args := [] |}].

(** The state in which rank [r] leaves [Print_vector], when the gathered
    vector was [B]. *)
Definition after_Print_vector {L : Libc} (title : string) (B : list double)
    (r : nat) (s : lstate) : lstate :=
  if (r =? 0)%nat
  then with_heap (delete (brk s) (heap s))
         (with_out (out s ++ printed title B) (with_brk (S (brk s)) s))
  else s.

(** [MPI_COMM_WORLD] of a run of [p] processes, on rank [r]. *)
Definition comm_of (p r : nat) : Mpi.MPI_Comm :=
  {| Mpi.comm_size := p; Mpi.comm_rank := r |}.

(** The two vectors rank 0 generates in a run, and the states rank [r]
    passes through when every allocation succeeds: after [Allocate_vectors],
    after each [Read_vector], after [Parallel_vector_sum], after
    [Print_vector] and at the end of [main]. *)
Section Stages.
Context {L : Libc} (envs : nat -> env) (p n local_n : nat).

Definition full_x : list double := mpi_vector (srand 1) n.
Definition full_y : list double := mpi_vector (rand_advance (srand 1) n) n.

Definition local_sum (r : nat) : list double :=
  zip_with dadd (Mpi.scatter_block full_x local_n r)
    (Mpi.scatter_block full_y local_n r).

(** What the gather leaves in the temporary vector of rank 0: the blocks in
    rank order, then what [malloc] had left in the rest of it. *)
Definition gathered : list double :=
  concat (map local_sum (seq 0 p))
  ++ drop (p * local_n) (map (malloc_junk (envs 0%nat) 5) (seq 0 n)).

(** What is left of [main] before the second [Read_vector], before
    [Parallel_vector_sum], before [Print_vector] and after it, the three
    arrays being blocks 0, 1 and 2. *)
Definition main_tail : R Z :=
  free (Some 0%nat) >>>
  free (Some 1%nat) >>>
  free (Some 2%nat) >>>
  Mpi.MPI_Finalize >>>
  ret 0.
Definition main_from_print (r : nat) : R Z :=
  Mpi.Print_vector (envs r) (Some 2%nat) local_n n "The sum is" r (comm_of p r) >>>
  main_tail.
Definition main_from_sum (r : nat) : R Z :=
  Mpi.Parallel_vector_sum (Some 0%nat) (Some 1%nat) (Some 2%nat) local_n >>>
  main_from_print r.
Definition main_from_y (r : nat) : R Z :=
  Mpi.Read_vector (envs r) (Some 1%nat) local_n n "y" r (comm_of p r) >>>
  main_from_sum r.

Definition stage_allocated (r : nat) : lstate :=
  after_Allocate (envs r) local_n initial_state.
Definition stage_x (r : nat) : lstate :=
  after_Read_vector 0 local_n n full_x r (stage_allocated r).
Definition stage_y (r : nat) : lstate :=
  after_Read_vector 1 local_n n full_y r (stage_x r).
Definition stage_sum (r : nat) : lstate :=
  with_heap (<[2%nat := local_sum r]> (heap (stage_y r))) (stage_y r).
Definition stage_printed (r : nat) : lstate :=
  after_Print_vector "The sum is" gathered r (stage_sum r).
Definition stage_final (r : nat) : lstate :=
  with_heap (delete 2%nat (delete 1%nat (delete 0%nat (heap (stage_printed r)))))
    (stage_printed r).

End Stages.

(** The least of [v 0 .. v (p - 1)]. *)
Definition min_over (p : nat) (v : nat -> Z) : Z :=
  foldr Z.min (v 0%nat) (map v (seq 1 (p - 1))).

(** What [Print_part_of_vector] prints for the elements [vs]. *)
Definition part_printed (title : string) (vs : list double) : list printf_call :=
  {| fmt := "%s" ++ nl; args := [ArgStr title] |}
  :: map (fun v => {| fmt := "%.2f "; args := [ArgDouble v] |}) vs
  ++ [{| fmt := nl; args := [] |}].

(** [199.8] as C reads it: the binary64 value nearest to 199.8. *)
Definition d_199_8 : double := 0x1.8f9999999999ap+7%float.

(** The thousand values [k / 10.0] an element of a serial vector can
    have. *)
Definition quotients : list double :=
  map (fun k => ddiv (int_to_double (Z.of_nat k)) d_ten) (seq 0 1000).

Definition sum_in_range (a b : double) : bool :=
  dleb d_zero (dadd a b) && dleb (dadd a b) d_199_8.

(** No array beyond the first [b] blocks is allocated. *)
Definition none_from {L : Libc} (b : nat) (s : lstate) : Prop :=
  forall k, (b <= k)%nat -> heap s !! k = None.

Definition d_one : double := 1%float.

(** The integers [start], [start + 1], ... ([len] of them). *)
Fixpoint zseq (start : Z) (len : nat) : list Z :=
  match len with
  | O => []
  | S len' => start :: zseq (start + 1) len'
  end.

(** [0.0 <= (double) k / m <= 1.0], as C compares doubles. *)
Definition in_zero_one (m k : Z) : bool :=
  let v := ddiv (int_to_double k) (int_to_double m) in
  dleb d_zero v && dleb v d_one.

(** [0.0 <= k / 10.0 <= 99.9], as C compares doubles. *)
Definition in_unit_range (k : Z) : bool :=
  dleb d_zero (ddiv (int_to_double k) d_ten)
  && dleb (ddiv (int_to_double k) d_ten) d_99_9.

(** * Properties *)

Lemma ansi_rand_range (g : Z) : 0 <= fst (ansi_rand g) <= 32767.
Proof.
  unfold ansi_rand; cbn [fst].
  pose proof (Z.mod_pos_bound ((g * 1103515245 + 12345) mod 2 ^ 32 / 65536) 32768).
  lia.
Qed.

#[export] Instance ansi_libc : Libc := {|
  rng_state := Z;
  RAND_MAX := 32767;
  srand := fun seed => seed;
  rand := ansi_rand;
  rand_range := ansi_rand_range;
  RAND_MAX_min := Z.le_refl 32767;
  RAND_MAX_max := eq_refl
|}.

(** ** Inputs on which the theorems are tried *)

(** An environment in which every allocation succeeds. *)
Definition quiet_env : env :=
  {| malloc_ok := fun _ => true;
     malloc_junk := fun _ _ => d_zero;
     time_at := fun _ => 1700000000 |}.

Definition xs_1_to_8 : list double :=
  [1%float; 2%float; 3%float; 4%float; 5%float; 6%float; 7%float; 8%float].
Definition ys_8_to_1 : list double :=
  [8%float; 7%float; 6%float; 5%float; 4%float; 3%float; 2%float; 1%float].

(** The same on every rank. *)
Definition quiet_envs (r : nat) : env := quiet_env.

(** Worker 2 of 4 fails to allocate its second array. *)
Definition envs_worker2_fails (r : nat) : env :=
  {| malloc_ok := fun k => negb ((r =? 2)%nat && (k =? 1)%nat);
     malloc_junk := fun _ _ => d_zero;
     time_at := fun _ => 0 |}.

(** On rank 0 the [k]-th call of [malloc] fails, every other call
    succeeds. *)
Definition envs_rank0_fails (k : nat) (r : nat) : env :=
  {| malloc_ok := fun j => negb ((r =? 0)%nat && (j =? k)%nat);
     malloc_junk := fun _ _ => d_zero;
     time_at := fun _ => 0 |}.

(** A process that has allocated one array, holding [blk]. *)
Definition buffer_state {L : Libc} (blk : list double) : lstate :=
  with_heap (<[0%nat := blk]> ∅) (with_brk 1 initial_state).

Definition c1_state : lstate :=
  three_arrays [1%float; 2%float] [8%float; 7%float] [0%float; 0%float].

Definition c7_state : lstate :=
  three_arrays [d_neg_zero; 2%float] [d_zero; d_zero] [1%float; 1%float].

(** ** Doubles *)

Lemma SF64add_comm (a b : spec_float) : SF64add a b = SF64add b a.
Proof.
  unfold SF64add, SFadd.
  destruct a as [sa|sa| |sa ma ea], b as [sb|sb| |sb mb eb]; try reflexivity;
    try (destruct sa, sb; reflexivity).
  rewrite (Z.min_comm ea eb). f_equal. apply Z.add_comm.
Qed.

Lemma dadd_comm (a b : double) : dadd a b = dadd b a.
Proof. apply Prim2SF_inj. unfold dadd. rewrite !FloatAxioms.add_spec. apply SF64add_comm. Qed.

Lemma dadd_zero_r (a : double) : dadd a d_zero = plus_zero a.
Proof.
  apply Prim2SF_inj. unfold dadd, plus_zero, is_neg_zero. rewrite FloatAxioms.add_spec.
  change (Prim2SF d_zero) with (S754_zero false).
  destruct (Prim2SF a) as [[]| | |] eqn:Ha; cbn; try (symmetry; exact Ha);
    reflexivity.
Qed.

Lemma zip_with_dadd_comm (xs ys : list double) :
  zip_with dadd xs ys = zip_with dadd ys xs.
Proof.
  revert ys. induction xs as [|x xs IH]; intros [|y ys]; cbn; try reflexivity.
  rewrite dadd_comm, IH. reflexivity.
Qed.

(** Adding [0.0] gives a double that [==] does not tell from the operand,
    or a NaN when the operand is one. *)
Lemma plus_zero_same (a : double) :
  if d_is_nan a then d_is_nan (plus_zero a) = true
  else deqb (plus_zero a) a = true.
Proof.
  unfold plus_zero. destruct (is_neg_zero a) eqn:Hz.
  - assert (Ha : a = d_neg_zero).
    { apply Prim2SF_inj. change (Prim2SF d_neg_zero) with (S754_zero true).
      unfold is_neg_zero in Hz.
      destruct (Prim2SF a) as [[]| | |]; try discriminate. reflexivity. }
    subst a. reflexivity.
  - destruct (d_is_nan a) eqn:Hn; [reflexivity|].
    unfold d_is_nan in Hn. apply negb_false_iff in Hn. exact Hn.
Qed.

Lemma zip_with_dadd_zeros (xs : list double) :
  zip_with dadd xs (replicate (length xs) d_zero) = map plus_zero xs.
Proof.
  induction xs as [|x xs IH]; cbn; [reflexivity|].
  rewrite dadd_zero_r, IH. reflexivity.
Qed.

(** Every quotient [k / 10.0] for [k] in [0 .. 999] lies in [0.0 .. 99.9]:
    checked on each of the thousand values. *)

(** The largest quotient is the double [99.9] itself. *)
Example largest_quotient : ddiv (int_to_double 999) d_ten = d_99_9.
Proof. reflexivity. Qed.

Lemma in_unit_range_all :
  forallb in_unit_range (map Z.of_nat (seq 0 1000)) = true.
Proof. vm_compute. reflexivity. Qed.

Lemma in_unit_range_ok (k : Z) : 0 <= k < 1000 -> in_unit_range k = true.
Proof.
  intros Hk. pose proof in_unit_range_all as H.
  rewrite forallb_forall in H. apply H.
  apply in_map_iff. exists (Z.to_nat k). split; [lia|].
  apply in_seq. lia.
Qed.

(** ** Loops and the heap *)

Section Local.
Context {L : Libc}.

Lemma bind_Ret {A B : Type} (m : R A) (f : A -> R B) (s s' : lstate) (a : A) :
  m s = Ret a s' -> bind m f s = f a s'.
Proof. intros H. unfold bind. rewrite H. reflexivity. Qed.

(** The invariant rule for a loop whose body always returns. *)
Lemma for_loop_inv (I : nat -> lstate -> Prop) (body : nat -> R unit) (count : nat) :
  forall (i0 : nat) (s : lstate),
    I i0 s ->
    (forall i t, (i0 <= i < i0 + count)%nat -> I i t ->
       exists t', body i t = Ret tt t' /\ I (S i) t') ->
    exists s', for_loop i0 count body s = Ret tt s' /\ I (i0 + count)%nat s'.
Proof.
  induction count as [|c IH]; intros i0 s HI Hbody.
  - exists s. rewrite Nat.add_0_r. split; [reflexivity | exact HI].
  - destruct (Hbody i0 s ltac:(lia) HI) as (t' & Hrun & HI').
    destruct (IH (S i0) t' HI') as (s' & Hloop & Hend).
    + intros i t Hi. apply Hbody. lia.
    + exists s'. split.
      * cbn [for_loop]. rewrite (bind_Ret _ _ _ _ _ Hrun). exact Hloop.
      * replace (i0 + S c)%nat with (S i0 + c)%nat by lia. exact Hend.
Qed.

Lemma load_ok (s : lstate) (b i : nat) (a : list double) (v : double) :
  heap s !! b = Some a -> a !! i = Some v -> load (Some b) i s = Ret v s.
Proof. intros Hb Hi. unfold load. rewrite Hb, Hi. reflexivity. Qed.

Lemma store_ok (s : lstate) (b i : nat) (a : list double) (v : double) :
  heap s !! b = Some a -> (i < length a)%nat ->
  store (Some b) i v s = Ret tt (with_heap (<[b := <[i := v]> a]> (heap s)) s).
Proof.
  intros Hb Hi. unfold store. rewrite Hb.
  destruct (decide (i < length a)%nat); [reflexivity | contradiction].
Qed.

Lemma with_heap_id (s : lstate) : with_heap (heap s) s = s.
Proof. destruct s; reflexivity. Qed.

(** Overwriting position [i] of an array whose first [i] elements are
    already final. *)
Lemma insert_prefix_drop (pre zs : list double) (i : nat) (v : double) :
  length pre = i -> (i < length zs)%nat ->
  <[i := v]> (pre ++ drop i zs) = (pre ++ [v]) ++ drop (S i) zs.
Proof.
  intros Hpre Hi.
  destruct (lookup_lt_is_Some_2 zs i Hi) as [z Hz].
  rewrite insert_app_r_alt by lia.
  rewrite Hpre, Nat.sub_diag, (drop_S _ _ _ Hz). cbn.
  rewrite <- app_assoc. reflexivity.
Qed.

Lemma zip_with_take_S (xs ys : list double) (i : nat) (a b : double) :
  xs !! i = Some a -> ys !! i = Some b ->
  zip_with dadd (take (S i) xs) (take (S i) ys)
  = zip_with dadd (take i xs) (take i ys) ++ [dadd a b].
Proof.
  intros Ha Hb.
  rewrite (take_S_r _ _ _ Ha), (take_S_r _ _ _ Hb).
  rewrite zip_with_app; [reflexivity|].
  rewrite !length_take.
  apply lookup_lt_Some in Ha. apply lookup_lt_Some in Hb. lia.
Qed.

(** The element-wise sum loop, as both programs have it. *)
Lemma sum_loop_spec (s : lstate) (bx by_ bz : nat) (xs ys zs : list double) (n : nat) :
  heap s !! bx = Some xs -> heap s !! by_ = Some ys -> heap s !! bz = Some zs ->
  bz <> bx -> bz <> by_ ->
  length xs = n -> length ys = n -> length zs = n ->
  Serial.Vector_sum (Some bx) (Some by_) (Some bz) n s
  = Ret tt (with_heap (<[bz := zip_with dadd xs ys]> (heap s)) s).
Proof.
  intros Hx Hy Hz Hzx Hzy Lx Ly Lz.
  pose (I := fun (i : nat) (t : lstate) =>
    t = with_heap
          (<[bz := zip_with dadd (take i xs) (take i ys) ++ drop i zs]> (heap s)) s).
  destruct (for_loop_inv I
    (fun i => let* a := load (Some bx) i in
              let* b := load (Some by_) i in
              store (Some bz) i (dadd a b)) n 0 s) as (s' & Hrun & Hend).
  - unfold I. cbn. rewrite drop_0, insert_id by exact Hz.
    symmetry. apply with_heap_id.
  - intros i t Hi ->.
    destruct (lookup_lt_is_Some_2 xs i ltac:(lia)) as [a Ha].
    destruct (lookup_lt_is_Some_2 ys i ltac:(lia)) as [b Hb].
    eexists. split.
    + erewrite bind_Ret; [|eapply load_ok; [|exact Ha]; cbn;
        rewrite lookup_insert_ne by exact Hzx; exact Hx].
      erewrite bind_Ret; [|eapply load_ok; [|exact Hb]; cbn;
        rewrite lookup_insert_ne by exact Hzy; exact Hy].
      eapply store_ok; cbn; [apply lookup_insert_eq|].
      rewrite length_app, length_zip_with, !length_take, length_drop. lia.
    + unfold I. cbn. rewrite insert_insert_eq.
      rewrite insert_prefix_drop.
      * rewrite (zip_with_take_S _ _ _ _ _ Ha Hb). reflexivity.
      * rewrite length_zip_with, !length_take. lia.
      * lia.
  - unfold Serial.Vector_sum. rewrite Hrun. unfold I in Hend. cbn in Hend.
    rewrite Hend. rewrite drop_ge by lia. rewrite app_nil_r.
    rewrite !take_ge by lia. reflexivity.
Qed.

End Local.

(** ** Local summation *)

Section LocalSummation.
Context {L : Libc}.

Lemma Parallel_vector_sum_eq : Mpi.Parallel_vector_sum = Serial.Vector_sum.
Proof. reflexivity. Qed.

Lemma is_neg_zero_spec (a : double) : is_neg_zero a = true <-> a = d_neg_zero.
Proof.
  unfold is_neg_zero. split.
  - intros H. apply Prim2SF_inj. change (Prim2SF d_neg_zero) with (S754_zero true).
    destruct (Prim2SF a) as [[]| | |]; try discriminate. reflexivity.
  - intros ->. reflexivity.
Qed.

Lemma d_zero_neq_neg_zero : d_zero <> d_neg_zero.
Proof. intros H. apply (f_equal Prim2SF) in H. vm_compute in H. discriminate. Qed.

(** C1.  On arrays [x] and [y] of length [n] and an output array [z] of
    length [n] that is neither of them, [Vector_sum] and
    [Parallel_vector_sum] return, leave [x] and [y] as they were, and leave
    in [z], at every index [i < n], exactly the double [x[i] + y[i]]. *)
Theorem local_sum_elementwise (s : lstate) (bx by_ bz : nat)
    (xs ys zs : list double) (n : nat) :
  heap s !! bx = Some xs -> heap s !! by_ = Some ys -> heap s !! bz = Some zs ->
  bz <> bx -> bz <> by_ ->
  length xs = n -> length ys = n -> length zs = n ->
  exists (s' : lstate) (zs' : list double),
    Serial.Vector_sum (Some bx) (Some by_) (Some bz) n s = Ret tt s'
    /\ Mpi.Parallel_vector_sum (Some bx) (Some by_) (Some bz) n s = Ret tt s'
    /\ heap s' !! bx = Some xs
    /\ heap s' !! by_ = Some ys
    /\ heap s' !! bz = Some zs'
    /\ length zs' = n
    /\ forall i, (i < n)%nat ->
         exists a b, xs !! i = Some a /\ ys !! i = Some b
                     /\ zs' !! i = Some (dadd a b).
Proof.
  intros Hx Hy Hz Hzx Hzy Lx Ly Lz.
  pose proof (sum_loop_spec s bx by_ bz xs ys zs n Hx Hy Hz Hzx Hzy Lx Ly Lz) as Hrun.
  eexists _, (zip_with dadd xs ys). split; [exact Hrun|].
  split; [rewrite Parallel_vector_sum_eq; exact Hrun|].
  cbn. rewrite !lookup_insert_ne by congruence. rewrite lookup_insert_eq.
  repeat split; try assumption.
  - rewrite length_zip_with. lia.
  - intros i Hi.
    destruct (lookup_lt_is_Some_2 xs i ltac:(lia)) as [a Ha].
    destruct (lookup_lt_is_Some_2 ys i ltac:(lia)) as [b Hb].
    exists a, b. rewrite lookup_zip_with, Ha, Hb. auto.
Qed.

(** C6.  With the two input arrays exchanged, [Vector_sum] and
    [Parallel_vector_sum] return in the same state: the same output array,
    element for element. *)
Theorem local_sum_commutative (s : lstate) (bx by_ bz : nat)
    (xs ys zs : list double) (n : nat) :
  heap s !! bx = Some xs -> heap s !! by_ = Some ys -> heap s !! bz = Some zs ->
  bz <> bx -> bz <> by_ ->
  length xs = n -> length ys = n -> length zs = n ->
  exists s' : lstate,
    Serial.Vector_sum (Some bx) (Some by_) (Some bz) n s = Ret tt s'
    /\ Serial.Vector_sum (Some by_) (Some bx) (Some bz) n s = Ret tt s'
    /\ Mpi.Parallel_vector_sum (Some bx) (Some by_) (Some bz) n s = Ret tt s'
    /\ Mpi.Parallel_vector_sum (Some by_) (Some bx) (Some bz) n s = Ret tt s'.
Proof.
  intros Hx Hy Hz Hzx Hzy Lx Ly Lz.
  pose proof (sum_loop_spec s bx by_ bz xs ys zs n Hx Hy Hz Hzx Hzy Lx Ly Lz) as H1.
  pose proof (sum_loop_spec s by_ bx bz ys xs zs n Hy Hx Hz Hzy Hzx Ly Lx Lz) as H2.
  rewrite (zip_with_dadd_comm ys xs) in H2.
  eexists. rewrite Parallel_vector_sum_eq. repeat split; eassumption.
Qed.

(** C7.  With [y] all [0.0], [Vector_sum] returns with [x] as it was and an
    output [z] in which, at every index, [z[i] == x[i]] holds as C compares
    doubles wherever [x[i]] is a number, and [z[i]] is a NaN where [x[i]] is
    one.  As a binary64 value [z[i]] is [x[i]] itself, except where [x[i]]
    is the negative zero: there it is the positive zero, which [==] does not
    tell from it. *)
Theorem local_sum_zeros (s : lstate) (bx by_ bz : nat)
    (xs zs : list double) (n : nat) :
  heap s !! bx = Some xs -> heap s !! by_ = Some (replicate n d_zero) ->
  heap s !! bz = Some zs ->
  bz <> bx -> bz <> by_ ->
  length xs = n -> length zs = n ->
  exists (s' : lstate) (zs' : list double),
    Serial.Vector_sum (Some bx) (Some by_) (Some bz) n s = Ret tt s'
    /\ heap s' !! bx = Some xs
    /\ heap s' !! bz = Some zs'
    /\ length zs' = n
    /\ forall i a, xs !! i = Some a ->
         exists r, zs' !! i = Some r
           /\ (if d_is_nan a then d_is_nan r = true else deqb r a = true)
           /\ r = (if is_neg_zero a then d_zero else a).
Proof.
  intros Hx Hy Hz Hzx Hzy Lx Lz.
  pose proof (sum_loop_spec s bx by_ bz xs _ zs n Hx Hy Hz Hzx Hzy Lx
                (length_replicate _ _) Lz) as Hrun.
  rewrite <- Lx in Hrun at 2. rewrite zip_with_dadd_zeros in Hrun.
  eexists _, (map plus_zero xs). split; [exact Hrun|].
  cbn. rewrite lookup_insert_eq.
  rewrite lookup_insert_ne by congruence.
  split; [exact Hx|]. split; [reflexivity|]. split.
  - rewrite length_map. exact Lx.
  - intros i a Ha. exists (plus_zero a).
    rewrite list_lookup_fmap, Ha. split; [reflexivity|].
    split; [apply plus_zero_same | reflexivity].
Qed.

End LocalSummation.

Lemma local_sum_elementwise_witness :
  exists (s' : lstate) (zs' : list double),
    Serial.Vector_sum (Some 0%nat) (Some 1%nat) (Some 2%nat) 2 c1_state = Ret tt s'
    /\ Mpi.Parallel_vector_sum (Some 0%nat) (Some 1%nat) (Some 2%nat) 2 c1_state
       = Ret tt s'
    /\ heap s' !! 0%nat = Some [1%float; 2%float]
    /\ heap s' !! 1%nat = Some [8%float; 7%float]
    /\ heap s' !! 2%nat = Some zs'
    /\ length zs' = 2%nat
    /\ forall i, (i < 2)%nat ->
         exists a b, [1%float; 2%float] !! i = Some a
                     /\ [8%float; 7%float] !! i = Some b
                     /\ zs' !! i = Some (dadd a b).
Proof.
  apply (local_sum_elementwise c1_state 0 1 2 [1%float; 2%float]
           [8%float; 7%float] [0%float; 0%float] 2);
    solve [reflexivity | lia].
Defined.

Lemma local_sum_commutative_witness :
  exists s' : lstate,
    Serial.Vector_sum (Some 0%nat) (Some 1%nat) (Some 2%nat) 2 c1_state = Ret tt s'
    /\ Serial.Vector_sum (Some 1%nat) (Some 0%nat) (Some 2%nat) 2 c1_state = Ret tt s'
    /\ Mpi.Parallel_vector_sum (Some 0%nat) (Some 1%nat) (Some 2%nat) 2 c1_state
       = Ret tt s'
    /\ Mpi.Parallel_vector_sum (Some 1%nat) (Some 0%nat) (Some 2%nat) 2 c1_state
       = Ret tt s'.
Proof.
  apply (local_sum_commutative c1_state 0 1 2 [1%float; 2%float]
           [8%float; 7%float] [0%float; 0%float] 2);
    solve [reflexivity | lia].
Defined.

Lemma local_sum_zeros_witness :
  exists (s' : lstate) (zs' : list double),
    Serial.Vector_sum (Some 0%nat) (Some 1%nat) (Some 2%nat) 2 c7_state = Ret tt s'
    /\ heap s' !! 0%nat = Some [d_neg_zero; 2%float]
    /\ heap s' !! 2%nat = Some zs'
    /\ length zs' = 2%nat
    /\ forall i a, [d_neg_zero; 2%float] !! i = Some a ->
         exists r, zs' !! i = Some r
           /\ (if d_is_nan a then d_is_nan r = true else deqb r a = true)
           /\ r = (if is_neg_zero a then d_zero else a).
Proof.
  apply (local_sum_zeros c7_state 0 1 2 [d_neg_zero; 2%float]
           [1%float; 1%float] 2);
    solve [reflexivity | lia].
Defined.

(** ** Random vectors *)

Section RandomVectors.
Context {L : Libc}.

Lemma rand_advance_S (g : rng_state) (n : nat) :
  rand_advance g (S n) = snd (rand (rand_advance g n)).
Proof. revert g. induction n as [|n IH]; intros g; [reflexivity|]. cbn. apply IH. Qed.

Lemma rand_outputs_S (g : rng_state) (n : nat) :
  rand_outputs g (S n) = rand_outputs g n ++ [fst (rand (rand_advance g n))].
Proof.
  revert g. induction n as [|n IH]; intros g; [reflexivity|].
  change (rand_outputs g (S (S n)))
    with (fst (rand g) :: rand_outputs (snd (rand g)) (S n)).
  rewrite IH. reflexivity.
Qed.

Lemma length_rand_outputs (g : rng_state) (n : nat) : length (rand_outputs g n) = n.
Proof. revert g. induction n as [|n IH]; intros g; cbn; [|rewrite IH]; reflexivity. Qed.

Lemma rand_outputs_range (g : rng_state) (n i : nat) (r : Z) :
  rand_outputs g n !! i = Some r -> 0 <= r <= RAND_MAX.
Proof.
  revert g i. induction n as [|n IH]; intros g [|i] H; cbn in H; try discriminate.
  - injection H as <-. apply rand_range.
  - eapply IH, H.
Qed.

(** The loop that fills an array with values made from successive outputs
    of [rand]. *)
Lemma fill_loop_spec (f : Z -> double) (s : lstate) (b : nat) (a : list double)
    (n : nat) :
  heap s !! b = Some a -> length a = n ->
  for_loop 0 n (fun i => let* r := rand_ in store (Some b) i (f r)) s
  = Ret tt (with_rng (rand_advance (rng s) n)
              (with_heap (<[b := map f (rand_outputs (rng s) n)]> (heap s)) s)).
Proof.
  intros Hb La.
  pose (I := fun (i : nat) (t : lstate) =>
    t = with_rng (rand_advance (rng s) i)
          (with_heap (<[b := map f (rand_outputs (rng s) i) ++ drop i a]> (heap s)) s)).
  destruct (for_loop_inv I
    (fun i => let* r := rand_ in store (Some b) i (f r)) n 0 s) as (s' & Hrun & Hend).
  - unfold I. cbn. rewrite drop_0, insert_id by exact Hb.
    destruct s; reflexivity.
  - intros i t Hi ->. eexists. split.
    + unfold bind, rand_. cbn [bind_res].
      eapply store_ok; cbn; [apply lookup_insert_eq|].
      rewrite length_app, length_map, length_rand_outputs, length_drop. lia.
    + unfold I. rewrite rand_outputs_S, map_app, rand_advance_S.
      cbn. rewrite insert_insert_eq.
      rewrite insert_prefix_drop.
      * reflexivity.
      * rewrite length_map, length_rand_outputs. reflexivity.
      * lia.
  - rewrite Hrun. unfold I in Hend. cbn in Hend. rewrite Hend.
    rewrite drop_ge by lia. rewrite app_nil_r. reflexivity.
Qed.

Lemma Generate_random_vector_spec (E : env) (s : lstate) (b : nat)
    (a : list double) (n : nat) :
  heap s !! b = Some a -> length a = n ->
  Serial.Generate_random_vector E (Some b) n s
  = Ret tt
      (with_rng (rand_advance (srand (time_at E (clock s) mod 2 ^ 32)) n)
         (with_heap (<[b := seeded_vector (time_at E (clock s) mod 2 ^ 32) n]> (heap s))
            (with_clock (S (clock s)) s))).
Proof.
  intros Hb La. unfold Serial.Generate_random_vector.
  erewrite bind_Ret by (unfold time_null; reflexivity).
  erewrite bind_Ret by (unfold srand_; reflexivity).
  rewrite (fill_loop_spec _ _ b a n) by assumption. reflexivity.
Qed.

Lemma seeded_vector_elements (seed : Z) (n i : nat) (x : double) :
  seeded_vector seed n !! i = Some x ->
  exists r, rand_outputs (srand seed) n !! i = Some r
            /\ 0 <= r <= RAND_MAX
            /\ x = ddiv (int_to_double (r mod 1000)) d_ten
            /\ in_unit_range (r mod 1000) = true.
Proof.
  unfold seeded_vector. rewrite list_lookup_fmap.
  destruct (rand_outputs (srand seed) n !! i) as [r|] eqn:Hr; [|discriminate].
  cbn. intros [= <-]. exists r.
  pose proof (rand_outputs_range _ _ _ _ Hr) as Hrange.
  rewrite Z.rem_mod_nonneg by lia.
  repeat split; try lia.
  apply in_unit_range_ok. apply Z.mod_pos_bound. lia.
Qed.

(** C9.  [Generate_random_vector] on an array of length [n] returns, and
    every element it leaves in the array is [(r mod 1000) / 10.0] for an
    output [r] of [rand]: a tenth of an integer between 0 and 999, as that
    division represents it, and between [0.0] and [99.9]. *)
Theorem generated_elements_range (E : env) (s : lstate) (b : nat)
    (a : list double) (n : nat) :
  heap s !! b = Some a -> length a = n ->
  exists (s' : lstate) (v : list double),
    Serial.Generate_random_vector E (Some b) n s = Ret tt s'
    /\ heap s' !! b = Some v
    /\ length v = n
    /\ forall i x, v !! i = Some x ->
         exists r : Z,
           rand_outputs (srand (time_at E (clock s) mod 2 ^ 32)) n !! i = Some r
           /\ 0 <= r mod 1000 <= 999
           /\ x = ddiv (int_to_double (r mod 1000)) d_ten
           /\ dleb d_zero x = true
           /\ dleb x d_99_9 = true.
Proof.
  intros Hb La. eexists _, _. split; [apply (Generate_random_vector_spec E s b a n Hb La)|].
  cbn. rewrite lookup_insert_eq. split; [reflexivity|]. split.
  - unfold seeded_vector. rewrite length_map. apply length_rand_outputs.
  - intros i x Hx.
    destruct (seeded_vector_elements _ _ _ _ Hx) as (r & Hr & Hrange & -> & Hin).
    exists r. unfold in_unit_range in Hin. apply andb_true_iff in Hin as [H0 H1].
    pose proof (Z.mod_pos_bound r 1000 ltac:(lia)).
    repeat split; try assumption; lia.
Qed.

(** C10.  [Generate_random_vector] leaves the vector that the seed fixes,
    whatever state the generator was in: the two calls of [main], one after
    the other, leave in [x] and [y] the vectors of the two times read, and
    where [time] returned the same value twice, [x] and [y] are the same
    vector. *)
Theorem generation_determined_by_time (E : env) (s : lstate) (bx by_ : nat)
    (xs ys : list double) (n : nat) :
  heap s !! bx = Some xs -> heap s !! by_ = Some ys -> bx <> by_ ->
  length xs = n -> length ys = n ->
  exists s1 s2 : lstate,
    Serial.Generate_random_vector E (Some bx) n s = Ret tt s1
    /\ Serial.Generate_random_vector E (Some by_) n s1 = Ret tt s2
    /\ heap s2 !! bx = Some (seeded_vector (time_at E (clock s) mod 2 ^ 32) n)
    /\ heap s2 !! by_ = Some (seeded_vector (time_at E (S (clock s)) mod 2 ^ 32) n)
    /\ (time_at E (clock s) = time_at E (S (clock s)) ->
        heap s2 !! bx = heap s2 !! by_).
Proof.
  intros Hx Hy Hne Lx Ly. eexists _, _.
  split; [apply (Generate_random_vector_spec E s bx xs n Hx Lx)|].
  split.
  - apply (Generate_random_vector_spec E _ by_ ys n); [|exact Ly].
    cbn. rewrite lookup_insert_ne by congruence. exact Hy.
  - cbn. rewrite lookup_insert_eq.
    rewrite lookup_insert_ne by congruence. rewrite lookup_insert_eq.
    repeat split. intros ->. reflexivity.
Qed.

End RandomVectors.

Lemma generated_elements_range_witness :
  exists (s' : lstate) (v : list double),
    Serial.Generate_random_vector quiet_env (Some 0%nat) 2 c1_state = Ret tt s'
    /\ heap s' !! 0%nat = Some v
    /\ length v = 2%nat
    /\ forall i x, v !! i = Some x ->
         exists r : Z,
           rand_outputs (srand (time_at quiet_env (clock c1_state) mod 2 ^ 32)) 2 !! i
           = Some r
           /\ 0 <= r mod 1000 <= 999
           /\ x = ddiv (int_to_double (r mod 1000)) d_ten
           /\ dleb d_zero x = true
           /\ dleb x d_99_9 = true.
Proof.
  apply (generated_elements_range quiet_env c1_state 0 [1%float; 2%float] 2);
    reflexivity.
Defined.

Lemma generation_determined_by_time_witness :
  exists s1 s2 : lstate,
    Serial.Generate_random_vector quiet_env (Some 0%nat) 2 c1_state = Ret tt s1
    /\ Serial.Generate_random_vector quiet_env (Some 1%nat) 2 s1 = Ret tt s2
    /\ heap s2 !! 0%nat
       = Some (seeded_vector (time_at quiet_env (clock c1_state) mod 2 ^ 32) 2)
    /\ heap s2 !! 1%nat
       = Some (seeded_vector (time_at quiet_env (S (clock c1_state)) mod 2 ^ 32) 2)
    /\ (time_at quiet_env (clock c1_state) = time_at quiet_env (S (clock c1_state)) ->
        heap s2 !! 0%nat = heap s2 !! 1%nat).
Proof.
  apply (generation_determined_by_time quiet_env c1_state 0 1
           [1%float; 2%float] [8%float; 7%float] 2);
    solve [reflexivity | lia].
Defined.

(** ** The serial program *)

Section SerialMain.
Context {L : Libc} (E : env).

Lemma malloc_success (n : nat) (s : lstate) :
  malloc_ok E (brk s) = true ->
  malloc E n s
  = Ret (Some (brk s))
      (with_brk (S (brk s))
         (with_heap (<[brk s := map (malloc_junk E (brk s)) (seq 0 n)]> (heap s)) s)).
Proof. intros H. unfold malloc. rewrite H. reflexivity. Qed.

Lemma malloc_failure (n : nat) (s : lstate) :
  malloc_ok E (brk s) = false ->
  malloc E n s = Ret None (with_brk (S (brk s)) s).
Proof. intros H. unfold malloc. rewrite H. reflexivity. Qed.

Ltac step_malloc :=
  first [ erewrite bind_Ret by (apply malloc_success; cbn; assumption)
        | erewrite bind_Ret by (apply malloc_failure; cbn; assumption) ].

Lemma free_ok (s : lstate) (b : nat) (a : list double) :
  heap s !! b = Some a ->
  free (Some b) s = Ret tt (with_heap (delete b (heap s)) s).
Proof. intros H. unfold free. rewrite H. reflexivity. Qed.

(** The loop that prints the elements of an array one by one. *)
Lemma print_loop_spec (f : string) (s : lstate) (b : nat) (a : list double)
    (n : nat) :
  heap s !! b = Some a -> (n <= length a)%nat ->
  for_loop 0 n (fun i => let* v := load (Some b) i in printf f [ArgDouble v]) s
  = Ret tt (with_out
              (out s ++ map (fun v => {| fmt := f; args := [ArgDouble v] |}) (take n a))
              s).
Proof.
  intros Hb La.
  pose (I := fun (i : nat) (t : lstate) =>
    t = with_out
          (out s ++ map (fun v => {| fmt := f; args := [ArgDouble v] |}) (take i a)) s).
  destruct (for_loop_inv I
    (fun i => let* v := load (Some b) i in printf f [ArgDouble v]) n 0 s)
    as (s' & Hrun & Hend).
  - unfold I. cbn. rewrite app_nil_r. destruct s; reflexivity.
  - intros i t Hi ->.
    destruct (lookup_lt_is_Some_2 a i ltac:(lia)) as [v Hv].
    eexists. split.
    + erewrite bind_Ret by (eapply load_ok; [exact Hb | exact Hv]).
      reflexivity.
    + unfold I. rewrite (take_S_r _ _ _ Hv), map_app, app_assoc. reflexivity.
  - rewrite Hrun. exact (f_equal (Ret tt) Hend).
Qed.

Lemma Print_part_of_vector_spec (s : lstate) (b : nat) (a : list double)
    (n : nat) (title : string) :
  heap s !! b = Some a -> length a = n ->
  exists s', Serial.Print_part_of_vector (Some b) n title s = Ret tt s'
             /\ heap s' = heap s /\ err s' = err s.
Proof.
  intros Hb La. unfold Serial.Print_part_of_vector.
  erewrite bind_Ret by (unfold printf; reflexivity).
  erewrite bind_Ret by (apply (print_loop_spec _ _ b a); [exact Hb | lia]).
  eexists. repeat split.
Qed.

Lemma Allocate_vectors_success (n : nat) (s : lstate) :
  malloc_ok E (brk s) = true -> malloc_ok E (S (brk s)) = true ->
  malloc_ok E (S (S (brk s))) = true ->
  exists s',
    Serial.Allocate_vectors E n s
    = Ret (Some (brk s), Some (S (brk s)), Some (S (S (brk s)))) s'
    /\ heap s'
       = <[S (S (brk s)) := map (malloc_junk E (S (S (brk s)))) (seq 0 n)]>
           (<[S (brk s) := map (malloc_junk E (S (brk s))) (seq 0 n)]>
              (<[brk s := map (malloc_junk E (brk s)) (seq 0 n)]> (heap s)))
    /\ err s' = err s.
Proof.
  intros H0 H1 H2. unfold Serial.Allocate_vectors.
  erewrite bind_Ret by (apply malloc_success; exact H0).
  erewrite bind_Ret by (apply malloc_success; exact H1).
  erewrite bind_Ret by (apply malloc_success; exact H2).
  cbn. eexists. repeat split.
Qed.

Lemma Allocate_vectors_failure (n : nat) (s : lstate) :
  malloc_ok E (brk s) && malloc_ok E (S (brk s)) && malloc_ok E (S (S (brk s)))
  = false ->
  exists s',
    Serial.Allocate_vectors E n s = Halt (-1) s'
    /\ err s' = err s ++ [{| fmt := "Can't allocate vectors" ++ nl; args := [] |}]
    /\ out s' = out s.
Proof.
  intros H. unfold Serial.Allocate_vectors.
  destruct (malloc_ok E (brk s)) eqn:H0, (malloc_ok E (S (brk s))) eqn:H1,
    (malloc_ok E (S (S (brk s)))) eqn:H2; try discriminate H;
    do 3 step_malloc; cbn; eexists; repeat split.
Qed.

End SerialMain.

Section SerialExit.
Context {L : Libc} (E : env).

Ltac heap_lookup :=
  cbn;
  repeat first [ rewrite lookup_insert_eq | rewrite lookup_insert_ne by lia
               | rewrite lookup_delete_ne by lia ];
  try reflexivity.

Lemma serial_main_success :
  malloc_ok E 0 = true -> malloc_ok E 1 = true -> malloc_ok E 2 = true ->
  exists s', Serial.main E initial_state = Ret 0 s' /\ err s' = [].
Proof.
  intros H0 H1 H2. unfold Serial.main. generalize Serial.VECTOR_SIZE as n.
  intros n. cbv zeta.
  destruct (Allocate_vectors_success E n initial_state H0 H1 H2)
    as (s1 & Halloc & Hheap & Herr).
  cbn [brk initial_state] in Halloc, Hheap.
  rewrite (bind_Ret _ _ _ _ _ Halloc). cbv beta iota.
  set (jx := map (malloc_junk E 0) (seq 0 n)) in *.
  set (jy := map (malloc_junk E 1) (seq 0 n)) in *.
  set (jz := map (malloc_junk E 2) (seq 0 n)) in *.
  assert (Lx : length jx = n) by (unfold jx; rewrite length_map; apply length_seq).
  assert (Ly : length jy = n) by (unfold jy; rewrite length_map; apply length_seq).
  assert (Lz : length jz = n) by (unfold jz; rewrite length_map; apply length_seq).
  erewrite bind_Ret
    by (apply (Generate_random_vector_spec E s1 0 jx n); [rewrite Hheap; heap_lookup | exact Lx]).
  erewrite bind_Ret
    by (apply (Generate_random_vector_spec E _ 1 jy n); [cbn; rewrite Hheap; heap_lookup | exact Ly]).
  match goal with
  | |- context [bind (Serial.Vector_sum _ _ _ _) _ ?t] => set (s3 := t)
  end.
  assert (Hx3 : exists xs, heap s3 !! 0%nat = Some xs /\ length xs = n).
  { eexists. split; [unfold s3; heap_lookup|].
    unfold seeded_vector. rewrite length_map. apply length_rand_outputs. }
  assert (Hy3 : exists ys, heap s3 !! 1%nat = Some ys /\ length ys = n).
  { eexists. split; [unfold s3; heap_lookup|].
    unfold seeded_vector. rewrite length_map. apply length_rand_outputs. }
  assert (Hz3 : heap s3 !! 2%nat = Some jz).
  { unfold s3. cbn. rewrite Hheap. heap_lookup. }
  assert (He3 : err s3 = []) by (unfold s3; cbn; rewrite Herr; reflexivity).
  destruct Hx3 as (xs & Hx3 & Lxs). destruct Hy3 as (ys & Hy3 & Lys).
  clearbody s3.
  erewrite bind_Ret
    by (apply (sum_loop_spec s3 0 1 2 xs ys jz n); solve [assumption | lia]).
  destruct (Print_part_of_vector_spec
              (with_heap (<[2%nat := zip_with dadd xs ys]> (heap s3)) s3) 2
              (zip_with dadd xs ys) n "A part of the sum is")
    as (s5 & Hprint & Hheap5 & Herr5).
  { heap_lookup. }
  { rewrite length_zip_with. lia. }
  rewrite (bind_Ret _ _ _ _ _ Hprint).
  cbn [heap with_heap] in Hheap5.
  erewrite bind_Ret
    by (apply (free_ok s5 0 xs); rewrite Hheap5; heap_lookup; exact Hx3).
  erewrite bind_Ret
    by (apply (free_ok _ 1 ys); cbn; rewrite Hheap5; heap_lookup; exact Hy3).
  erewrite bind_Ret
    by (apply (free_ok _ 2 (zip_with dadd xs ys)); cbn; rewrite Hheap5; heap_lookup).
  eexists. split; [reflexivity|]. cbn. rewrite Herr5. exact He3.
Qed.

(** C8.  The serial program returns 0 from [main] when its three calls of
    [malloc] succeed; when one of them fails it writes one diagnostic to
    [stderr], nothing to [stdout], and calls [exit (-1)]. *)
Theorem serial_exit_status :
  exists s' : lstate,
    if malloc_ok E 0 && malloc_ok E 1 && malloc_ok E 2
    then Serial.main E initial_state = Ret 0 s' /\ err s' = []
    else Serial.main E initial_state = Halt (-1) s'
         /\ err s' = [{| fmt := "Can't allocate vectors" ++ nl; args := [] |}]
         /\ out s' = [].
Proof.
  destruct (malloc_ok E 0 && malloc_ok E 1 && malloc_ok E 2) eqn:Hok.
  - apply andb_true_iff in Hok as [Hok H2]. apply andb_true_iff in Hok as [H0 H1].
    exact (serial_main_success H0 H1 H2).
  - destruct (Allocate_vectors_failure E Serial.VECTOR_SIZE initial_state Hok)
      as (s' & Hrun & Herr & Hout).
    exists s'. unfold Serial.main. cbv zeta. unfold bind at 1. rewrite Hrun.
    repeat split; assumption.
Qed.

End SerialExit.

(** ** Rounds of collectives *)

Section Rounds.
Context {L : Libc} {A : Type}.

Lemma waits_at_call (c : collective) (s : lstate) :
  waits_at (call c s) c s (fun v s' => Ret v s').
Proof. eexists. split; reflexivity. Qed.

Lemma waits_at_bind {B : Type} (m : R B) (f : B -> R A) (s s1 : lstate)
    (c : collective) (next : Z -> lstate -> res B) :
  waits_at (m s) c s1 next ->
  waits_at (bind m f s) c s1 (fun v s' => bind_res (next v s') f).
Proof.
  intros (k & Hm & Hk). unfold bind. rewrite Hm. cbn.
  eexists. split; [reflexivity|]. intros v s'. cbn. rewrite Hk. reflexivity.
Qed.

Lemma waits_at_bind_res {B : Type} (pr : res B) (f : B -> R A) (s1 : lstate)
    (c : collective) (next : Z -> lstate -> res B) :
  waits_at pr c s1 next ->
  waits_at (bind_res pr f) c s1 (fun v s' => bind_res (next v s') f).
Proof.
  intros (k & -> & Hk). cbn.
  eexists. split; [reflexivity|]. intros v s'. cbn. rewrite Hk. reflexivity.
Qed.

Lemma waits_at_ext (pr : res A) (c : collective) (s : lstate)
    (next next' : Z -> lstate -> res A) :
  waits_at pr c s next -> (forall v s', next v s' = next' v s') ->
  waits_at pr c s next'.
Proof.
  intros (k & Hpr & Hk) Hext. exists k. split; [exact Hpr|].
  intros v s'. rewrite Hk. apply Hext.
Qed.

Lemma mapM_map_pointwise {X Y Z' : Type} (f : Y -> option Z') (g : X -> Y)
    (h : X -> Z') (l : list X) :
  (forall x, In x l -> f (g x) = Some (h x)) ->
  mapM f (map g l) = Some (map h l).
Proof.
  induction l as [|x l IH]; intros H; [reflexivity|].
  cbn. rewrite (H x (or_introl eq_refl)). cbn.
  rewrite IH by (intros y Hy; apply H; right; exact Hy). reflexivity.
Qed.

Lemma existsb_map_false {X : Type} (f : res A -> bool) (g : X -> res A) (l : list X) :
  (forall x, In x l -> f (g x) = false) -> existsb f (map g l) = false.
Proof.
  induction l as [|x l IH]; intros H; [reflexivity|].
  cbn. rewrite (H x (or_introl eq_refl)).
  apply IH. intros y Hy. apply H. right. exact Hy.
Qed.

Lemma forallb_map_true {X : Type} (f : res A -> bool) (g : X -> res A) (l : list X) :
  (forall x, In x l -> f (g x) = true) -> forallb f (map g l) = true.
Proof.
  induction l as [|x l IH]; intros H; [reflexivity|].
  cbn. rewrite (H x (or_introl eq_refl)).
  apply IH. intros y Hy. apply H. right. exact Hy.
Qed.

(** When every rank waits in a collective, [step] performs the one rank 0
    waits in. *)
Lemma step_all_waiting (p : nat) (prog : nat -> res A) (c : nat -> collective)
    (st : nat -> lstate) (next : nat -> Z -> lstate -> res A) :
  (0 < p)%nat ->
  (forall r, (r < p)%nat -> waits_at (prog r) (c r) (st r) (next r)) ->
  Mpi.step (map prog (seq 0 p))
  = match c 0%nat with
    | MPI_Allreduce_min _ => Mpi.allreduce_round (map prog (seq 0 p))
    | MPI_Scatter _ _ _ _ root => Mpi.scatter_round root (map prog (seq 0 p))
    | MPI_Gather _ _ _ _ root => Mpi.gather_round root (map prog (seq 0 p))
    end.
Proof.
  intros Hp Hw. unfold Mpi.step.
  rewrite existsb_map_false.
  2:{ intros r Hr. apply in_seq in Hr.
      destruct (Hw r ltac:(lia)) as (k & -> & _). reflexivity. }
  destruct p as [|p]; [lia|].
  destruct (Hw 0%nat ltac:(lia)) as (k0 & H0 & _).
  cbn [seq map forallb existsb]. rewrite H0. cbn [Mpi.is_done andb orb].
  rewrite <- H0.
  change (prog 0%nat :: map prog (seq 1 p)) with (map prog (seq 0 (S p))).
  rewrite existsb_map_false.
  2:{ intros r Hr. apply in_seq in Hr.
      destruct (Hw r ltac:(lia)) as (k & -> & _). reflexivity. }
  cbn [seq map head]. rewrite H0. reflexivity.
Qed.

Lemma step_allreduce (p : nat) (prog : nat -> res A) (v : nat -> Z)
    (st : nat -> lstate) (next : nat -> Z -> lstate -> res A) :
  (0 < p)%nat ->
  (forall r, (r < p)%nat ->
     waits_at (prog r) (MPI_Allreduce_min (v r)) (st r) (next r)) ->
  Mpi.step (map prog (seq 0 p))
  = inr (map (fun r => next r (min_over p v) (st r)) (seq 0 p)).
Proof.
  intros Hp Hw.
  rewrite (step_all_waiting p prog (fun r => MPI_Allreduce_min (v r)) st next Hp Hw).
  unfold Mpi.allreduce_round.
  rewrite (mapM_map_pointwise Mpi.allreduce_arg prog v).
  2:{ intros r Hr. apply in_seq in Hr.
      destruct (Hw r ltac:(lia)) as (k & -> & _). reflexivity. }
  destruct p as [|p]; [lia|].
  assert (Hv : map v (seq 0 (S p)) = v 0%nat :: map v (seq 1 p)) by reflexivity.
  rewrite Hv. unfold min_over. rewrite Nat.sub_succ, Nat.sub_0_r.
  rewrite map_map. f_equal. apply map_ext_in.
  intros r Hr. apply in_seq in Hr.
  destruct (Hw r ltac:(lia)) as (k & -> & Hk). apply Hk.
Qed.

Lemma min_over_le (p : nat) (v : nat -> Z) (r : nat) :
  (r < p)%nat -> min_over p v <= v r.
Proof.
  unfold min_over. intros Hr.
  destruct r as [|r].
  - generalize (seq 1 (p - 1)). intros l. induction l as [|x l IH]; cbn; lia.
  - assert (Hin : In (S r) (seq 1 (p - 1))) by (apply in_seq; lia).
    revert Hin. generalize (seq 1 (p - 1)). intros l.
    induction l as [|x l IH]; cbn; [tauto|].
    intros [->|Hin]; [lia|]. specialize (IH Hin). lia.
Qed.

Lemma min_over_ge (p : nat) (v : nat -> Z) (lo : Z) :
  (forall r, (r < p)%nat -> lo <= v r) -> (0 < p)%nat -> lo <= min_over p v.
Proof.
  intros Hv Hp. unfold min_over.
  assert (Hl : forall x, In x (seq 1 (p - 1)) -> lo <= v x).
  { intros x Hx. apply in_seq in Hx. apply Hv. lia. }
  revert Hl. generalize (seq 1 (p - 1)). intros l.
  induction l as [|x l IH]; cbn; intros Hl.
  - apply Hv. lia.
  - pose proof (Hl x (or_introl eq_refl)).
    specialize (IH (fun y Hy => Hl y (or_intror Hy))). lia.
Qed.

End Rounds.

Section RoundsByProjection.
Context {L : Libc} {A : Type}.

Lemma waits_at_proj (pr : res A) (c : collective) (s : lstate)
    (next : Z -> lstate -> res A) :
  waits_at pr c s next ->
  waiting_state pr = s /\ forall v s', cont_of pr v s' = next v s'.
Proof. intros (k & -> & Hk). split; [reflexivity | exact Hk]. Qed.

Lemma waits_at_self (pr : res A) (c : collective) (s : lstate)
    (next : Z -> lstate -> res A) :
  waits_at pr c s next -> waits_at pr c (waiting_state pr) (cont_of pr).
Proof. intros (k & -> & Hk). exists k. split; reflexivity. Qed.

Lemma step_allreduce_world (p : nat) (prog : nat -> res A) (v : nat -> Z) :
  (0 < p)%nat ->
  (forall r, (r < p)%nat ->
     exists s next, waits_at (prog r) (MPI_Allreduce_min (v r)) s next) ->
  Mpi.step (world p prog)
  = inr (world p (fun r => cont_of (prog r) (min_over p v) (waiting_state (prog r)))).
Proof.
  intros Hp Hw. unfold world.
  apply (step_allreduce p prog v (fun r => waiting_state (prog r))
           (fun r => cont_of (prog r)) Hp).
  intros r Hr. destruct (Hw r Hr) as (s & next & H).
  exact (waits_at_self _ _ _ _ H).
Qed.

Lemma step_all_done (p : nat) (prog : nat -> res A) :
  (forall r, (r < p)%nat -> Mpi.is_done (prog r) = true) ->
  Mpi.step (world p prog) = inl (Mpi.Terminated (world p prog)).
Proof.
  intros Hd. unfold Mpi.step, world.
  rewrite existsb_map_false.
  2:{ intros r Hr. apply in_seq in Hr. specialize (Hd r ltac:(lia)).
      destruct (prog r); try discriminate; reflexivity. }
  rewrite forallb_map_true; [reflexivity|].
  intros r Hr. apply in_seq in Hr. apply Hd. lia.
Qed.

Lemma run_S (fuel : nat) (ps : list (res A)) :
  Mpi.run (S fuel) ps
  = match Mpi.step ps with inl o => o | inr ps' => Mpi.run fuel ps' end.
Proof. reflexivity. Qed.

Lemma world_ext (p : nat) (prog prog' : nat -> res A) :
  (forall r, (r < p)%nat -> prog r = prog' r) -> world p prog = world p prog'.
Proof.
  intros H. unfold world. apply map_ext_in. intros r Hr.
  apply in_seq in Hr. apply H. lia.
Qed.

Lemma world_lookup (p : nat) (prog : nat -> res A) (r : nat) :
  (r < p)%nat -> world p prog !! r = Some (prog r).
Proof.
  intros Hr. unfold world. change map with (@fmap list _) at 1.
  rewrite list_lookup_fmap.
  rewrite (proj2 (lookup_seq 0 p r r)) by (split; [reflexivity | exact Hr]).
  reflexivity.
Qed.

Lemma length_world (p : nat) (prog : nat -> res A) : length (world p prog) = p.
Proof. unfold world. rewrite length_map. apply length_seq. Qed.

End RoundsByProjection.

(** ** The MPI program *)

Section MpiAllocate.
Context {L : Libc}.

Lemma Check_for_error_waits (local_ok : Z) (fname message : string)
    (comm : Mpi.MPI_Comm) (s : lstate) :
  waits_at (Mpi.Check_for_error local_ok fname message comm s)
    (MPI_Allreduce_min local_ok) s
    (fun ok s' =>
       if ok =? 0
       then Halt (-1)
              (if (Mpi.comm_rank comm =? 0)%nat
               then with_err (err s' ++ [diagnostic (Mpi.comm_rank comm) fname message]) s'
               else s')
       else Ret tt s').
Proof.
  eexists. split; [reflexivity|]. intros v s'. cbn.
  destruct (v =? 0); [|reflexivity].
  unfold bind, Mpi.MPI_Comm_rank, ret. cbn.
  destruct (Mpi.comm_rank comm =? 0)%nat; reflexivity.
Qed.

Lemma malloc_eq (E : env) (n : nat) (s : lstate) :
  malloc E n s = Ret (malloc_ptr E s) (malloc_state E n s).
Proof.
  unfold malloc, malloc_ptr, malloc_state.
  destruct (malloc_ok E (brk s)); reflexivity.
Qed.

Lemma malloc_state_facts (E : env) (n : nat) (s : lstate) :
  brk (malloc_state E n s) = S (brk s)
  /\ err (malloc_state E n s) = err s
  /\ out (malloc_state E n s) = out s
  /\ rng (malloc_state E n s) = rng s
  /\ clock (malloc_state E n s) = clock s.
Proof. unfold malloc_state. destruct (malloc_ok E (brk s)); repeat split. Qed.

Lemma after_Allocate_facts (E : env) (n : nat) (s : lstate) :
  brk (after_Allocate E n s) = S (S (S (brk s)))
  /\ err (after_Allocate E n s) = err s
  /\ out (after_Allocate E n s) = out s
  /\ rng (after_Allocate E n s) = rng s.
Proof.
  unfold after_Allocate.
  destruct (malloc_state_facts E n s) as (B1 & E1 & O1 & R1 & _).
  destruct (malloc_state_facts E n (malloc_state E n s)) as (B2 & E2 & O2 & R2 & _).
  destruct (malloc_state_facts E n (malloc_state E n (malloc_state E n s)))
    as (B3 & E3 & O3 & R3 & _).
  repeat split; congruence.
Qed.

Lemma after_Allocate_heap (E : env) (n : nat) (s : lstate) :
  alloc_flag E (brk s) = 1 ->
  heap (after_Allocate E n s)
  = <[S (S (brk s)) := map (malloc_junk E (S (S (brk s)))) (seq 0 n)]>
      (<[S (brk s) := map (malloc_junk E (S (brk s))) (seq 0 n)]>
         (<[brk s := map (malloc_junk E (brk s)) (seq 0 n)]> (heap s))).
Proof.
  unfold alloc_flag, after_Allocate. intros Hflag.
  destruct (malloc_ok E (brk s)) eqn:H0; [|discriminate].
  destruct (malloc_ok E (S (brk s))) eqn:H1; [|discriminate].
  destruct (malloc_ok E (S (S (brk s)))) eqn:H2; [|discriminate].
  unfold malloc_state at 3. rewrite H0.
  unfold malloc_state at 2. cbn [brk with_brk with_heap]. rewrite H1.
  unfold malloc_state at 1. cbn [brk with_brk with_heap]. rewrite H2.
  reflexivity.
Qed.

(** [Allocate_vectors] of the MPI program: three calls of [malloc], then the
    process waits in the reduction of [Check_for_error]. *)
Lemma Mpi_Allocate_vectors_waits (E : env) (local_n : nat) (comm : Mpi.MPI_Comm)
    (s : lstate) :
  waits_at (Mpi.Allocate_vectors E local_n comm s)
    (MPI_Allreduce_min (alloc_flag E (brk s))) (after_Allocate E local_n s)
    (fun ok s' =>
       if ok =? 0
       then Halt (-1)
              (if (Mpi.comm_rank comm =? 0)%nat
               then with_err
                      (err s' ++ [diagnostic (Mpi.comm_rank comm) "Allocate_vectors"
                                    "Can't allocate local arrays"]) s'
               else s')
       else Ret (alloc_ptrs E local_n s) s')
  /\ (alloc_flag E (brk s) = 1 ->
      alloc_ptrs E local_n s = (Some (brk s), Some (S (brk s)), Some (S (S (brk s))))).
Proof.
  unfold Mpi.Allocate_vectors. cbv zeta.
  rewrite (bind_Ret _ _ _ _ _ (malloc_eq E local_n s)).
  rewrite (bind_Ret _ _ _ _ _ (malloc_eq E local_n _)).
  rewrite (bind_Ret _ _ _ _ _ (malloc_eq E local_n _)).
  destruct (malloc_state_facts E local_n s) as (B1 & _).
  destruct (malloc_state_facts E local_n (malloc_state E local_n s)) as (B2 & _).
  fold (after_Allocate E local_n s). fold (alloc_ptrs E local_n s).
  split.
  - assert (Hflag : forall x y z : ptr,
              x = malloc_ptr E s -> y = malloc_ptr E (malloc_state E local_n s) ->
              z = malloc_ptr E (malloc_state E local_n (malloc_state E local_n s)) ->
              (if is_null x || is_null y || is_null z then 0 else 1)
              = alloc_flag E (brk s)).
    { intros x y z -> -> ->. unfold alloc_flag, malloc_ptr. rewrite B2, B1.
      destruct (malloc_ok E (brk s)), (malloc_ok E (S (brk s))),
        (malloc_ok E (S (S (brk s)))); reflexivity. }
    rewrite (Hflag _ _ _ eq_refl eq_refl eq_refl).
    eapply waits_at_ext.
    + apply waits_at_bind. apply Check_for_error_waits.
    + intros v s'. cbn. destruct (v =? 0); reflexivity.
  - unfold alloc_flag, alloc_ptrs, malloc_ptr. rewrite B2, B1. intros Hflag.
    destruct (malloc_ok E (brk s)); [|discriminate].
    destruct (malloc_ok E (S (brk s))); [|discriminate].
    destruct (malloc_ok E (S (S (brk s)))); [|discriminate].
    reflexivity.
Qed.

End MpiAllocate.

Section MpiFailure.
Context {L : Libc}.

Lemma Mpi_main_unfold (E : env) (comm : Mpi.MPI_Comm) (s : lstate) :
  Mpi.main E comm s
  = Mpi.main_after_Read_n E (Z.to_nat 100000)
      (Z.to_nat 100000 / Mpi.comm_size comm) (Mpi.comm_rank comm) comm s.
Proof. reflexivity. Qed.

(** The state a rank ends in when the reduction of [Allocate_vectors]
    delivers 0. *)
Lemma main_after_Read_n_waits (E : env) (n local_n r : nat) (comm : Mpi.MPI_Comm)
    (s : lstate) :
  waits_at (Mpi.main_after_Read_n E n local_n r comm s)
    (MPI_Allreduce_min (alloc_flag E (brk s))) (after_Allocate E local_n s)
    (fun ok s' =>
       if ok =? 0
       then Halt (-1)
              (if (Mpi.comm_rank comm =? 0)%nat
               then with_err
                      (err s' ++ [diagnostic (Mpi.comm_rank comm) "Allocate_vectors"
                                    "Can't allocate local arrays"]) s'
               else s')
       else (let '(x, y, z) := alloc_ptrs E local_n s in
             Mpi.main_after_Allocate_vectors E n local_n r comm x y z) s').
Proof.
  unfold Mpi.main_after_Read_n.
  eapply waits_at_ext.
  - apply waits_at_bind. apply Mpi_Allocate_vectors_waits.
  - generalize (alloc_ptrs E local_n s). intros [[x y] z] v s'. cbn.
    destruct (v =? 0); reflexivity.
Qed.

Lemma alloc_flag_range (E : env) (b : nat) : 0 <= alloc_flag E b <= 1.
Proof.
  unfold alloc_flag.
  destruct (malloc_ok E b && malloc_ok E (S b) && malloc_ok E (S (S b))); lia.
Qed.

(** C4.  When the three calls of [malloc] in [Allocate_vectors] do not all
    succeed on some rank, the first round of the run, the reduction of
    [Check_for_error], leaves every rank, also one whose own allocations
    succeeded, having called [exit (-1)]: no rank reaches a scatter, and the
    run ends with all ranks terminated.  Rank 0 has written the one
    diagnostic to [stderr]; no other rank has written anything. *)
Theorem allocation_failure_ends_all (p : nat) (envs : nat -> env) (bad fuel : nat) :
  (bad < p)%nat ->
  alloc_flag (envs bad) 0 = 0 ->
  exists final : nat -> lstate,
    Mpi.step (Mpi.spmd p (fun r => Mpi.main (envs r)
                            {| Mpi.comm_size := p; Mpi.comm_rank := r |}))
    = inr (world p (fun r => Halt (-1) (final r)))
    /\ Mpi.mpiexec (2 + fuel) p envs
       = Mpi.Terminated (world p (fun r => Halt (-1) (final r)))
    /\ forall r, (r < p)%nat ->
         out (final r) = []
         /\ err (final r)
            = if (r =? 0)%nat
              then [diagnostic 0 "Allocate_vectors" "Can't allocate local arrays"]
              else [].
Proof.
  intros Hbad Hflag.
  set (local_n := (Z.to_nat 100000 / p)%nat).
  set (s3 := fun r => after_Allocate (envs r) local_n initial_state).
  exists (fun r =>
    if (r =? 0)%nat
    then with_err
           (err (s3 r) ++ [diagnostic r "Allocate_vectors" "Can't allocate local arrays"])
           (s3 r)
    else s3 r).
  assert (Hstep :
    Mpi.step (Mpi.spmd p (fun r => Mpi.main (envs r)
                            {| Mpi.comm_size := p; Mpi.comm_rank := r |}))
    = inr (world p (fun r => Halt (-1)
             (if (r =? 0)%nat
              then with_err
                     (err (s3 r) ++ [diagnostic r "Allocate_vectors"
                                       "Can't allocate local arrays"]) (s3 r)
              else s3 r)))).
  { unfold Mpi.spmd.
    set (prog := fun r => Mpi.main (envs r)
                   {| Mpi.comm_size := p; Mpi.comm_rank := r |} initial_state).
    change (map prog (seq 0 p)) with (world p prog).
    assert (Hw : forall r,
      waits_at (prog r) (MPI_Allreduce_min (alloc_flag (envs r) 0)) (s3 r)
        (fun ok s' =>
           if ok =? 0
           then Halt (-1)
                  (if (r =? 0)%nat
                   then with_err
                          (err s' ++ [diagnostic r "Allocate_vectors"
                                        "Can't allocate local arrays"]) s'
                   else s')
           else (let '(x, y, z) := alloc_ptrs (envs r) local_n initial_state in
                 Mpi.main_after_Allocate_vectors (envs r) (Z.to_nat 100000) local_n r
                   {| Mpi.comm_size := p; Mpi.comm_rank := r |} x y z) s')).
    { intros r. unfold prog. rewrite Mpi_main_unfold.
      apply (main_after_Read_n_waits (envs r) (Z.to_nat 100000) local_n r
               {| Mpi.comm_size := p; Mpi.comm_rank := r |} initial_state). }
    assert (Hmin : min_over p (fun r => alloc_flag (envs r) 0) = 0).
    { pose proof (min_over_le p (fun r => alloc_flag (envs r) 0) bad Hbad) as Hle.
      cbv beta in Hle. rewrite Hflag in Hle.
      pose proof (min_over_ge p (fun r => alloc_flag (envs r) 0) 0
                    (fun r _ => proj1 (alloc_flag_range (envs r) 0)) ltac:(lia)).
      lia. }
    rewrite (step_allreduce_world p prog (fun r => alloc_flag (envs r) 0))
      by (lia || (intros r _; eexists _, _; apply Hw)).
    rewrite Hmin. f_equal. apply world_ext.
    intros r _. destruct (waits_at_proj _ _ _ _ (Hw r)) as [-> Hk].
    rewrite Hk. reflexivity. }
  split; [exact Hstep|]. split.
  - unfold Mpi.mpiexec. change (2 + fuel)%nat with (S (S fuel)).
    rewrite run_S, Hstep. rewrite run_S, step_all_done by reflexivity. reflexivity.
  - intros r Hr.
    destruct (after_Allocate_facts (envs r) local_n initial_state)
      as (_ & He & Ho & _).
    fold (s3 r) in He, Ho. cbn in He, Ho.
    destruct (r =? 0)%nat eqn:Hr0.
    + apply Nat.eqb_eq in Hr0. subst r. cbn. rewrite He, Ho. split; reflexivity.
    + split; assumption.
Qed.

End MpiFailure.

Lemma allocation_failure_ends_all_witness :
  exists final : nat -> lstate,
    Mpi.step (Mpi.spmd 4 (fun r => Mpi.main (envs_worker2_fails r)
                            {| Mpi.comm_size := 4; Mpi.comm_rank := r |}))
    = inr (world 4 (fun r => Halt (-1) (final r)))
    /\ Mpi.mpiexec (2 + 0) 4 envs_worker2_fails
       = Mpi.Terminated (world 4 (fun r => Halt (-1) (final r)))
    /\ forall r, (r < 4)%nat ->
         out (final r) = []
         /\ err (final r)
            = if (r =? 0)%nat
              then [diagnostic 0 "Allocate_vectors" "Can't allocate local arrays"]
              else [].
Proof.
  apply (allocation_failure_ends_all 4 envs_worker2_fails 2 0);
    [lia | reflexivity].
Defined.

(** ** Scatter and gather rounds *)

Section DataRounds.
Context {L : Libc} {A : Type}.

Lemma imap_seq_diag {B : Type} (h : nat -> nat -> B) (j p : nat) :
  imap (fun i => h (j + i)%nat) (seq j p) = map (fun r => h r r) (seq j p).
Proof.
  revert j h. induction p as [|p IH]; intros j h; [reflexivity|].
  cbn [seq]. rewrite imap_cons. cbn [map]. rewrite Nat.add_0_r. f_equal.
  rewrite <- (IH (S j) h). apply imap_ext. intros i x _. cbn.
  f_equal. lia.
Qed.

Lemma imap_world {B : Type} (h : nat -> res A -> B) (p : nat) (prog : nat -> res A) :
  imap h (world p prog) = map (fun r => h r (prog r)) (seq 0 p).
Proof.
  unfold world. change (map prog (seq 0 p)) with (prog <$> seq 0 p).
  rewrite imap_fmap.
  exact (imap_seq_diag (fun i r => h i (prog r)) 0 p).
Qed.

Lemma step_scatter (p : nat) (prog : nat -> res A) (sbuf : nat -> ptr) (sc : nat)
    (rb : nat -> nat) (st : nat -> lstate) (next : nat -> Z -> lstate -> res A)
    (sb : nat) (a : list double) (old : nat -> list double) :
  (0 < p)%nat ->
  (forall r, (r < p)%nat ->
     waits_at (prog r) (MPI_Scatter (sbuf r) sc (Some (rb r)) sc 0) (st r) (next r)) ->
  sbuf 0%nat = Some sb -> heap (st 0%nat) !! sb = Some a ->
  (p * sc <= length a)%nat ->
  (forall r, (r < p)%nat ->
     heap (st r) !! rb r = Some (old r) /\ (sc <= length (old r))%nat) ->
  Mpi.step (world p prog)
  = inr (world p (fun r =>
           next r 0 (with_heap
                       (<[rb r := Mpi.scatter_block a sc r ++ drop sc (old r)]>
                          (heap (st r))) (st r)))).
Proof.
  intros Hp Hw Hsb Ha Hlen Hold. unfold world at 1.
  rewrite (step_all_waiting p prog
             (fun r => MPI_Scatter (sbuf r) sc (Some (rb r)) sc 0) st next Hp Hw).
  fold (world p prog). unfold Mpi.scatter_round.
  rewrite (world_lookup p prog 0 Hp).
  destruct (Hw 0%nat Hp) as (k0 & H0 & _). rewrite H0, Hsb, Ha.
  rewrite length_world.
  destruct (decide (p * sc <= length a)%nat) as [_|Hn]; [|contradiction].
  rewrite imap_world.
  rewrite (mapM_map_pointwise id _
             (fun r => next r 0 (with_heap
                         (<[rb r := Mpi.scatter_block a sc r ++ drop sc (old r)]>
                            (heap (st r))) (st r)))).
  - reflexivity.
  - intros r Hr. apply in_seq in Hr.
    destruct (Hw r ltac:(lia)) as (k & -> & Hk).
    destruct (Hold r ltac:(lia)) as [Ho Hl].
    unfold id, Mpi.scatter_recv. rewrite Ho.
    destruct (decide (0 = 0 /\ sc = sc /\ sc <= length (old r))%nat) as [_|Hn];
      [|exfalso; apply Hn; auto].
    rewrite Hk. reflexivity.
Qed.

Lemma step_gather (p : nat) (prog : nat -> res A) (sbuf : nat -> nat) (sc : nat)
    (rbuf : nat -> ptr) (st : nat -> lstate) (next : nat -> Z -> lstate -> res A)
    (rb : nat) (old : list double) (blk : nat -> list double) :
  (0 < p)%nat ->
  (forall r, (r < p)%nat ->
     waits_at (prog r) (MPI_Gather (Some (sbuf r)) sc (rbuf r) sc 0) (st r) (next r)) ->
  rbuf 0%nat = Some rb -> heap (st 0%nat) !! rb = Some old ->
  (p * sc <= length old)%nat ->
  (forall r, (r < p)%nat ->
     heap (st r) !! sbuf r = Some (blk r) /\ (sc <= length (blk r))%nat) ->
  Mpi.step (world p prog)
  = inr (world p (fun r =>
           next r 0
             (if decide (r = 0%nat)
              then with_heap
                     (<[rb := concat (map (fun r => take sc (blk r)) (seq 0 p))
                              ++ drop (p * sc) old]> (heap (st r))) (st r)
              else st r))).
Proof.
  intros Hp Hw Hrb Ho Hlen Hblk. unfold world at 1.
  rewrite (step_all_waiting p prog
             (fun r => MPI_Gather (Some (sbuf r)) sc (rbuf r) sc 0) st next Hp Hw).
  fold (world p prog). unfold Mpi.gather_round.
  rewrite (world_lookup p prog 0 Hp).
  destruct (Hw 0%nat Hp) as (k0 & H0 & _). rewrite H0, Hrb, Ho.
  rewrite length_world.
  destruct (decide (p * sc <= length old)%nat) as [_|Hn]; [|contradiction].
  unfold world at 1.
  rewrite (mapM_map_pointwise (Mpi.gather_send sc 0) prog
             (fun r => take sc (blk r))).
  - fold (world p prog). rewrite imap_world. f_equal. apply map_ext_in.
    intros r Hr. apply in_seq in Hr.
    destruct (Hw r ltac:(lia)) as (k & -> & Hk). rewrite Hk. reflexivity.
  - intros r Hr. apply in_seq in Hr.
    destruct (Hw r ltac:(lia)) as (k & -> & Hk).
    destruct (Hblk r ltac:(lia)) as [Hb Hl].
    unfold Mpi.gather_send. rewrite Hb.
    destruct (decide (0 = 0 /\ sc = sc /\ sc <= length (blk r))%nat) as [_|Hn];
      [reflexivity | exfalso; apply Hn; auto].
Qed.

End DataRounds.

(** ** Distribution: [Read_vector] *)

Section Distribute.
Context {L : Libc}.

Lemma length_mpi_vector (g : rng_state) (n : nat) : length (mpi_vector g n) = n.
Proof. unfold mpi_vector. rewrite length_map. apply length_rand_outputs. Qed.

Lemma length_scatter_block (a : list double) (sc r : nat) :
  ((r + 1) * sc <= length a)%nat -> length (Mpi.scatter_block a sc r) = sc.
Proof.
  intros H. unfold Mpi.scatter_block. rewrite length_take, length_drop. lia.
Qed.

Lemma Read_vector_waits (E : env) (la local_n n : nat) (name : string) (r : nat)
    (comm : Mpi.MPI_Comm) (s : lstate) :
  (r = 0%nat -> malloc_ok E (brk s) = true) ->
  waits_at (Mpi.Read_vector E (Some la) local_n n name r comm s)
    (MPI_Scatter (if (r =? 0)%nat then Some (brk s) else None) local_n
       (Some la) local_n 0)
    (before_scatter n r s)
    (fun _ s' => if (r =? 0)%nat then free (Some (brk s)) s' else Ret tt s').
Proof.
  intros Hok. unfold Mpi.Read_vector, before_scatter. cbv zeta.
  destruct (r =? 0)%nat eqn:Hr.
  - apply Nat.eqb_eq in Hr. specialize (Hok Hr).
    rewrite (bind_Ret _ _ _ _ _ (malloc_success E n s Hok)).
    erewrite bind_Ret.
    2:{ apply (fill_loop_spec _ _ (brk s) (map (malloc_junk E (brk s)) (seq 0 n)) n).
        - cbn. apply lookup_insert_eq.
        - rewrite length_map. apply length_seq. }
    cbn [heap rng brk with_heap with_brk with_rng]. rewrite insert_insert_eq.
    fold (mpi_vector (rng s) n).
    eapply waits_at_ext.
    + apply waits_at_bind. apply waits_at_call.
    + intros v s'. reflexivity.
  - eapply waits_at_ext.
    + apply waits_at_bind. apply waits_at_call.
    + intros v s'. reflexivity.
Qed.

Lemma after_Read_vector_facts (la local_n n : nat) (X : list double) (r : nat)
    (s : lstate) :
  brk s <> la ->
  heap (after_Read_vector la local_n n X r s) !! la
  = Some (Mpi.scatter_block X local_n r)
  /\ (forall k, k <> la -> k <> brk s ->
        heap (after_Read_vector la local_n n X r s) !! k = heap s !! k)
  /\ brk (after_Read_vector la local_n n X r s)
     = (if (r =? 0)%nat then S (brk s) else brk s)
  /\ rng (after_Read_vector la local_n n X r s)
     = (if (r =? 0)%nat then rand_advance (rng s) n else rng s)
  /\ out (after_Read_vector la local_n n X r s) = out s
  /\ err (after_Read_vector la local_n n X r s) = err s.
Proof.
  intros Hne. unfold after_Read_vector, before_scatter.
  destruct (r =? 0)%nat; cbn.
  - rewrite lookup_delete_ne by congruence. rewrite lookup_insert_eq.
    repeat split. intros k Hk Hb.
    rewrite lookup_delete_ne by congruence.
    rewrite !lookup_insert_ne by congruence. reflexivity.
  - rewrite lookup_insert_eq. repeat split. intros k Hk Hb.
    rewrite lookup_insert_ne by congruence. reflexivity.
Qed.

(** One [Read_vector] on every rank is one scatter round. *)
Lemma Read_vector_round {A : Type} (p : nat) (envs : nat -> env)
    (la local_n n : nat) (name : string) (f : nat -> unit -> R A)
    (S0 : nat -> lstate) (old : nat -> list double) :
  (0 < p)%nat -> (p * local_n <= n)%nat ->
  malloc_ok (envs 0%nat) (brk (S0 0%nat)) = true ->
  brk (S0 0%nat) <> la ->
  (forall r, (r < p)%nat ->
     heap (S0 r) !! la = Some (old r) /\ length (old r) = local_n) ->
  Mpi.step (world p (fun r =>
    bind (Mpi.Read_vector (envs r) (Some la) local_n n name r (comm_of p r)) (f r)
      (S0 r)))
  = inr (world p (fun r =>
      f r tt (after_Read_vector la local_n n (mpi_vector (rng (S0 0%nat)) n) r (S0 r)))).
Proof.
  intros Hp Hn Hok Hne Hold.
  set (X := mpi_vector (rng (S0 0%nat)) n).
  rewrite (step_scatter p _
             (fun r => if (r =? 0)%nat then Some (brk (S0 r)) else None) local_n
             (fun _ => la) (fun r => before_scatter n r (S0 r))
             (fun r v s' =>
                bind_res (if (r =? 0)%nat then free (Some (brk (S0 r))) s' else Ret tt s')
                  (f r))
             (brk (S0 0%nat)) X old Hp).
  - apply f_equal, world_ext. intros r Hr.
    destruct (Hold r Hr) as [Ho Hl].
    rewrite drop_ge by lia. rewrite app_nil_r.
    unfold after_Read_vector. cbv zeta.
    destruct (r =? 0)%nat eqn:Hr0; [|reflexivity].
    apply Nat.eqb_eq in Hr0. subst r.
    erewrite free_ok; [reflexivity|].
    unfold before_scatter. cbn.
    rewrite lookup_insert_ne by congruence. apply lookup_insert_eq.
  - intros r Hr. apply waits_at_bind. apply Read_vector_waits.
    intros ->. exact Hok.
  - reflexivity.
  - unfold before_scatter. cbn. apply lookup_insert_eq.
  - unfold X. rewrite length_mpi_vector. exact Hn.
  - intros r Hr. destruct (Hold r Hr) as [Ho Hl]. split; [|lia].
    unfold before_scatter. destruct (r =? 0)%nat eqn:Hr0; [|exact Ho].
    apply Nat.eqb_eq in Hr0. subst r. cbn.
    rewrite lookup_insert_ne by congruence. exact Ho.
Qed.

End Distribute.

(** ** Collection: [Print_vector] *)

Section Collect.
Context {L : Libc}.

Lemma Print_vector_waits (E : env) (lb local_n n : nat) (title : string) (r : nat)
    (comm : Mpi.MPI_Comm) (s : lstate) :
  waits_at (Mpi.Print_vector E (Some lb) local_n n title r comm s)
    (MPI_Allreduce_min (print_flag E r (brk s))) (before_print E n r s)
    (fun ok s' =>
       if ok =? 0
       then Halt (-1)
              (if (Mpi.comm_rank comm =? 0)%nat
               then with_err
                      (err s' ++ [diagnostic (Mpi.comm_rank comm) "Print_vector"
                                    "Can't allocate temporary vector"]) s'
               else s')
       else Print_vector_after_check (Some lb) local_n n title r
              (if (r =? 0)%nat then malloc_ptr E s else None) s').
Proof.
  unfold Mpi.Print_vector, print_flag, before_print, Print_vector_after_check.
  cbv zeta. destruct (r =? 0)%nat.
  - rewrite (bind_Ret _ _ _ _ _ (malloc_eq E n s)).
    assert (Hflag : (if is_null (malloc_ptr E s) then 0 else 1)
                    = (if malloc_ok E (brk s) then 1 else 0)).
    { unfold malloc_ptr. destruct (malloc_ok E (brk s)); reflexivity. }
    rewrite Hflag.
    eapply waits_at_ext.
    + apply waits_at_bind. apply Check_for_error_waits.
    + intros v s'. cbn. destruct (v =? 0); reflexivity.
  - eapply waits_at_ext.
    + apply waits_at_bind. apply Check_for_error_waits.
    + intros v s'. cbn. destruct (v =? 0); reflexivity.
Qed.

Lemma Print_vector_after_check_waits (lb local_n n : nat) (title : string)
    (r : nat) (b : ptr) (s : lstate) :
  waits_at (Print_vector_after_check (Some lb) local_n n title r b s)
    (MPI_Gather (Some lb) local_n b local_n 0) s
    (fun _ s' =>
       if (r =? 0)%nat
       then (printf "%s\n" [ArgStr title] >>>
             for_loop 0 n (fun i =>
               let* v := load b i in
               printf "%f " [ArgDouble v]) >>>
             printf "\n" [] >>>
             free b) s'
       else Ret tt s').
Proof.
  unfold Print_vector_after_check. destruct (r =? 0)%nat.
  - eapply waits_at_ext.
    + apply waits_at_bind. apply waits_at_call.
    + intros v s'. reflexivity.
  - eapply waits_at_ext.
    + apply waits_at_bind. apply waits_at_call.
    + intros v s'. reflexivity.
Qed.

(** What rank 0 does with the gathered vector. *)
Lemma print_all_spec (s : lstate) (b : nat) (B : list double) (n : nat)
    (title : string) :
  heap s !! b = Some B -> length B = n ->
  (printf "%s\n" [ArgStr title] >>>
   for_loop 0 n (fun i =>
     let* v := load (Some b) i in
     printf "%f " [ArgDouble v]) >>>
   printf "\n" [] >>>
   free (Some b)) s
  = Ret tt (with_heap (delete b (heap s)) (with_out (out s ++ printed title B) s)).
Proof.
  intros Hb HB.
  erewrite bind_Ret by (unfold printf; reflexivity).
  erewrite bind_Ret by (apply (print_loop_spec _ _ b B); [exact Hb | lia]).
  erewrite bind_Ret by (unfold printf; reflexivity).
  erewrite free_ok by exact Hb.
  cbn. rewrite take_ge by lia. unfold printed.
  rewrite <- !app_assoc. reflexivity.
Qed.

Lemma length_concat_blocks (blk : nat -> list double) (sc : nat) (l : list nat) :
  (forall r, In r l -> length (blk r) = sc) ->
  length (concat (map blk l)) = (length l * sc)%nat.
Proof.
  induction l as [|r l IH]; intros H; [reflexivity|].
  cbn. rewrite length_app, (H r (or_introl eq_refl)).
  rewrite IH by (intros x Hx; apply H; right; exact Hx). reflexivity.
Qed.

(** One [Print_vector] on every rank is a reduction round and a gather
    round. *)
Lemma Print_vector_rounds {A : Type} (p : nat) (envs : nat -> env)
    (lb local_n n : nat) (title : string) (f : nat -> unit -> R A)
    (S0 : nat -> lstate) (blk : nat -> list double) :
  (0 < p)%nat -> (p * local_n <= n)%nat ->
  malloc_ok (envs 0%nat) (brk (S0 0%nat)) = true ->
  brk (S0 0%nat) <> lb ->
  (forall r, (r < p)%nat ->
     heap (S0 r) !! lb = Some (blk r) /\ length (blk r) = local_n) ->
  exists W1,
    Mpi.step (world p (fun r =>
      bind (Mpi.Print_vector (envs r) (Some lb) local_n n title r (comm_of p r)) (f r)
        (S0 r)))
    = inr W1
    /\ Mpi.step W1
       = inr (world p (fun r =>
           f r tt
             (after_Print_vector title
                (concat (map blk (seq 0 p))
                 ++ drop (p * local_n)
                      (map (malloc_junk (envs 0%nat) (brk (S0 0%nat))) (seq 0 n)))
                r (S0 r)))).
Proof.
  intros Hp Hn Hok Hne Hblk.
  set (junk := map (malloc_junk (envs 0%nat) (brk (S0 0%nat))) (seq 0 n)).
  set (B := concat (map blk (seq 0 p)) ++ drop (p * local_n) junk).
  assert (Hjunk : length junk = n) by (unfold junk; rewrite length_map; apply length_seq).
  assert (Hcat : length (concat (map blk (seq 0 p))) = (p * local_n)%nat).
  { rewrite (length_concat_blocks blk local_n), length_seq; [reflexivity|].
    intros r Hr. apply in_seq in Hr. apply Hblk. lia. }
  assert (HB : length B = n).
  { unfold B. rewrite length_app, Hcat, length_drop. lia. }
  eexists. split.
  - unfold world at 1.
    rewrite (step_allreduce p _
               (fun r => print_flag (envs r) r (brk (S0 r)))
               (fun r => before_print (envs r) n r (S0 r))
               (fun r ok s' =>
                  bind_res
                    (if ok =? 0
                     then Halt (-1)
                            (if (r =? 0)%nat
                             then with_err
                                    (err s' ++ [diagnostic r "Print_vector"
                                                  "Can't allocate temporary vector"]) s'
                             else s')
                     else Print_vector_after_check (Some lb) local_n n title r
                            (if (r =? 0)%nat then malloc_ptr (envs r) (S0 r) else None) s')
                    (f r)) Hp).
    + reflexivity.
    + intros r Hr. apply waits_at_bind.
      apply (Print_vector_waits (envs r) lb local_n n title r (comm_of p r) (S0 r)).
  - assert (Hmin : min_over p (fun r => print_flag (envs r) r (brk (S0 r))) = 1).
    { assert (Hall : forall r, print_flag (envs r) r (brk (S0 r)) = 1).
      { intros r. unfold print_flag. destruct (r =? 0)%nat eqn:Hr0; [|reflexivity].
        apply Nat.eqb_eq in Hr0. subst r. rewrite Hok. reflexivity. }
      pose proof (min_over_le p (fun r => print_flag (envs r) r (brk (S0 r))) 0 Hp) as Hle.
      cbv beta in Hle. rewrite Hall in Hle.
      pose proof (min_over_ge p (fun r => print_flag (envs r) r (brk (S0 r))) 1
                    (fun r _ => eq_ind_r (fun v => 1 <= v) (Z.le_refl 1) (Hall r)) Hp).
      lia. }
    rewrite Hmin. change (1 =? 0) with false. cbv iota.
    match goal with
    | |- Mpi.step (map ?g (seq 0 p)) = _ => change (map g (seq 0 p)) with (world p g)
    end.
    rewrite (step_gather p _ (fun _ => lb) local_n
               (fun r => if (r =? 0)%nat then malloc_ptr (envs r) (S0 r) else None)
               (fun r => before_print (envs r) n r (S0 r))
               (fun r (_ : Z) s' =>
                  bind_res
                    (if (r =? 0)%nat
                     then (printf "%s\n" [ArgStr title] >>>
                           for_loop 0 n (fun i =>
                             let* v := load (Some (brk (S0 r))) i in
                             printf "%f " [ArgDouble v]) >>>
                           printf "\n" [] >>>
                           free (Some (brk (S0 r)))) s'
                     else Ret tt s')
                    (f r))
               (brk (S0 0%nat)) junk blk Hp).
    + apply f_equal, world_ext. intros r Hr.
      rewrite (map_ext_in (fun r => take local_n (blk r)) blk).
      2:{ intros x Hx. apply in_seq in Hx. apply take_ge.
          destruct (Hblk x ltac:(lia)) as [_ Hl]. lia. }
      fold B. unfold after_Print_vector.
      destruct (decide (r = 0%nat)) as [->|Hr0].
      * cbn [Nat.eqb].
        erewrite print_all_spec; [|cbn; apply lookup_insert_eq | exact HB].
        cbn [bind_res]. f_equal.
        unfold before_print, malloc_state. cbn [Nat.eqb]. rewrite Hok. cbn.
        rewrite !delete_insert_eq. reflexivity.
      * apply Nat.eqb_neq in Hr0. rewrite Hr0. unfold before_print. rewrite Hr0.
        reflexivity.
    + intros r Hr. apply waits_at_bind_res.
      eapply waits_at_ext; [apply Print_vector_after_check_waits|].
      intros v s'. destruct (r =? 0)%nat eqn:Hr0; [|reflexivity].
      apply Nat.eqb_eq in Hr0. subst r. unfold malloc_ptr. rewrite Hok. reflexivity.
    + unfold malloc_ptr. cbn [Nat.eqb]. rewrite Hok. reflexivity.
    + unfold before_print, malloc_state. cbn [Nat.eqb]. rewrite Hok. cbn.
      apply lookup_insert_eq.
    + lia.
    + intros r Hr. destruct (Hblk r Hr) as [Hb Hl]. split; [|lia].
      unfold before_print. destruct (r =? 0)%nat eqn:Hr0; [|exact Hb].
      apply Nat.eqb_eq in Hr0. subst r. unfold malloc_state. rewrite Hok. cbn.
      rewrite lookup_insert_ne by congruence. exact Hb.
Qed.

End Collect.

(** ** A run in which every allocation succeeds *)

Section SuccessfulRun.
Context {L : Libc} (envs : nat -> env) (p n local_n : nat).
Hypothesis Hp : (0 < p)%nat.
Hypothesis Hn : (p * local_n <= n)%nat.
Hypothesis Halloc : forall r, (r < p)%nat -> alloc_flag (envs r) 0 = 1.
Hypothesis Hx : malloc_ok (envs 0%nat) 3 = true.
Hypothesis Hy : malloc_ok (envs 0%nat) 4 = true.
Hypothesis Hb : malloc_ok (envs 0%nat) 5 = true.

Local Abbreviation S1 := (stage_allocated envs local_n).
Local Abbreviation S2 := (stage_x envs n local_n).
Local Abbreviation S3 := (stage_y envs n local_n).
Local Abbreviation S4 := (stage_sum envs n local_n).
Local Abbreviation S5 := (stage_printed envs p n local_n).
Local Abbreviation S6 := (stage_final envs p n local_n).

Lemma block_fits (r : nat) : (r < p)%nat -> ((r + 1) * local_n <= n)%nat.
Proof. intros Hr. nia. Qed.

Lemma stage_allocated_facts (r : nat) :
  (r < p)%nat ->
  brk (S1 r) = 3%nat /\ err (S1 r) = [] /\ out (S1 r) = [] /\ rng (S1 r) = srand 1
  /\ (forall k, (k < 3)%nat ->
        heap (S1 r) !! k = Some (map (malloc_junk (envs r) k) (seq 0 local_n))).
Proof.
  intros Hr. unfold stage_allocated.
  destruct (after_Allocate_facts (envs r) local_n initial_state) as (B & E & O & G).
  repeat split; try assumption.
  intros k Hk.
  rewrite (after_Allocate_heap (envs r) local_n initial_state (Halloc r Hr)).
  cbn [brk initial_state].
  destruct k as [|[|[|k]]]; try lia.
  - rewrite !lookup_insert_ne by lia. apply lookup_insert_eq.
  - rewrite lookup_insert_ne by lia. apply lookup_insert_eq.
  - apply lookup_insert_eq.
Qed.

Lemma stage_x_facts (r : nat) :
  (r < p)%nat ->
  brk (S2 r) = (if (r =? 0)%nat then 4 else 3)%nat
  /\ err (S2 r) = [] /\ out (S2 r) = []
  /\ rng (S2 r) = (if (r =? 0)%nat then rand_advance (srand 1) n else srand 1)
  /\ heap (S2 r) !! 0%nat = Some (Mpi.scatter_block (full_x n) local_n r)
  /\ (forall k, (1 <= k < 3)%nat ->
        heap (S2 r) !! k = Some (map (malloc_junk (envs r) k) (seq 0 local_n))).
Proof.
  intros Hr. destruct (stage_allocated_facts r Hr) as (B & E & O & G & H).
  unfold stage_x.
  destruct (after_Read_vector_facts 0 local_n n (full_x n) r (S1 r) ltac:(lia))
    as (Hla & Hframe & B' & G' & O' & E').
  rewrite B in Hframe.
  rewrite B', G', O', E', B, G.
  repeat split; try assumption; try (destruct (r =? 0)%nat; reflexivity).
  intros k Hk. rewrite Hframe by lia. apply H. lia.
Qed.

Lemma stage_y_facts (r : nat) :
  (r < p)%nat ->
  brk (S3 r) = (if (r =? 0)%nat then 5 else 3)%nat
  /\ err (S3 r) = [] /\ out (S3 r) = []
  /\ heap (S3 r) !! 0%nat = Some (Mpi.scatter_block (full_x n) local_n r)
  /\ heap (S3 r) !! 1%nat = Some (Mpi.scatter_block (full_y n) local_n r)
  /\ heap (S3 r) !! 2%nat = Some (map (malloc_junk (envs r) 2) (seq 0 local_n)).
Proof.
  intros Hr. destruct (stage_x_facts r Hr) as (B & E & O & G & H0 & H).
  unfold stage_y.
  destruct (after_Read_vector_facts 1 local_n n (full_y n) r (S2 r))
    as (Hla & Hframe & B' & G' & O' & E').
  { rewrite B. destruct (r =? 0)%nat; lia. }
  assert (Hb3 : brk (S2 r) <> 0%nat /\ brk (S2 r) <> 2%nat)
    by (rewrite B; destruct (r =? 0)%nat; lia).
  rewrite B', O', E', B.
  repeat split; try assumption; try (destruct (r =? 0)%nat; reflexivity).
  - rewrite Hframe by lia. exact H0.
  - rewrite Hframe by lia. apply H. lia.
Qed.

Lemma length_local_blocks (r : nat) :
  (r < p)%nat ->
  length (Mpi.scatter_block (full_x n) local_n r) = local_n
  /\ length (Mpi.scatter_block (full_y n) local_n r) = local_n
  /\ length (local_sum n local_n r) = local_n.
Proof.
  intros Hr. pose proof (block_fits r Hr) as Hfit.
  assert (H1 : length (Mpi.scatter_block (full_x n) local_n r) = local_n)
    by (apply length_scatter_block; unfold full_x; rewrite length_mpi_vector; lia).
  assert (H2 : length (Mpi.scatter_block (full_y n) local_n r) = local_n)
    by (apply length_scatter_block; unfold full_y; rewrite length_mpi_vector; lia).
  repeat split; try assumption.
  unfold local_sum. rewrite length_zip_with. lia.
Qed.

Lemma stage_sum_facts (r : nat) :
  (r < p)%nat ->
  brk (S4 r) = (if (r =? 0)%nat then 5 else 3)%nat
  /\ err (S4 r) = [] /\ out (S4 r) = []
  /\ heap (S4 r) !! 0%nat = Some (Mpi.scatter_block (full_x n) local_n r)
  /\ heap (S4 r) !! 1%nat = Some (Mpi.scatter_block (full_y n) local_n r)
  /\ heap (S4 r) !! 2%nat = Some (local_sum n local_n r).
Proof.
  intros Hr. destruct (stage_y_facts r Hr) as (B & E & O & H0 & H1 & H2).
  unfold stage_sum. cbn.
  rewrite !lookup_insert_ne by lia. rewrite lookup_insert_eq.
  repeat split; assumption.
Qed.

Lemma Parallel_vector_sum_stage (r : nat) :
  (r < p)%nat ->
  Mpi.Parallel_vector_sum (Some 0%nat) (Some 1%nat) (Some 2%nat) local_n (S3 r)
  = Ret tt (S4 r).
Proof.
  intros Hr. destruct (stage_y_facts r Hr) as (_ & _ & _ & H0 & H1 & H2).
  destruct (length_local_blocks r Hr) as (L0 & L1 & _).
  rewrite Parallel_vector_sum_eq.
  rewrite (sum_loop_spec (S3 r) 0 1 2 _ _ _ local_n H0 H1 H2); try lia.
  - reflexivity.
  - rewrite length_map. apply length_seq.
Qed.

Lemma stage_printed_facts (r : nat) :
  (r < p)%nat ->
  err (S5 r) = []
  /\ out (S5 r) = (if (r =? 0)%nat then printed "The sum is" (gathered envs p n local_n)
                   else [])
  /\ heap (S5 r) !! 0%nat = Some (Mpi.scatter_block (full_x n) local_n r)
  /\ heap (S5 r) !! 1%nat = Some (Mpi.scatter_block (full_y n) local_n r)
  /\ heap (S5 r) !! 2%nat = Some (local_sum n local_n r).
Proof.
  intros Hr. destruct (stage_sum_facts r Hr) as (B & E & O & H0 & H1 & H2).
  unfold stage_printed, after_Print_vector.
  destruct (r =? 0)%nat eqn:Hr0; [|repeat split; assumption].
  cbn [heap err out with_heap with_out with_brk].
  rewrite B, O, !lookup_delete_ne by lia. repeat split; assumption.
Qed.

Lemma main_tail_stage (r : nat) :
  (r < p)%nat -> main_tail (S5 r) = Ret 0 (S6 r).
Proof.
  intros Hr. unfold main_tail. destruct (stage_printed_facts r Hr) as (_ & _ & H0 & H1 & H2).
  erewrite bind_Ret by (apply (free_ok _ 0 _ H0)).
  erewrite bind_Ret
    by (eapply (free_ok _ 1); cbn; rewrite lookup_delete_ne by lia; exact H1).
  erewrite bind_Ret
    by (eapply (free_ok _ 2); cbn; rewrite !lookup_delete_ne by lia; exact H2).
  reflexivity.
Qed.

Local Abbreviation W0 :=
  (Mpi.spmd p (fun r => Mpi.main_after_Read_n (envs r) n local_n r (comm_of p r))).

Lemma min_over_const (v : nat -> Z) (c : Z) :
  (forall r, (r < p)%nat -> v r = c) -> min_over p v = c.
Proof.
  intros Hv.
  pose proof (min_over_le p v 0 Hp) as Hle. rewrite (Hv 0%nat Hp) in Hle.
  pose proof (min_over_ge p v c) as Hge.
  assert (c <= min_over p v) by (apply Hge; [intros r Hr; rewrite (Hv r Hr); lia | exact Hp]).
  lia.
Qed.

(** The reduction of [Allocate_vectors]. *)
Lemma round_allocate :
  Mpi.step W0
  = inr (world p (fun r =>
      (Mpi.Read_vector (envs r) (Some 0%nat) local_n n "x" r (comm_of p r) >>>
       main_from_y envs p n local_n r) (S1 r))).
Proof.
  unfold Mpi.spmd.
  rewrite (step_allreduce p _ (fun r => alloc_flag (envs r) 0) S1
             (fun r ok s' =>
                if ok =? 0
                then Halt (-1)
                       (if (r =? 0)%nat
                        then with_err
                               (err s' ++ [diagnostic r "Allocate_vectors"
                                             "Can't allocate local arrays"]) s'
                        else s')
                else (let '(x, y, z) := alloc_ptrs (envs r) local_n initial_state in
                      Mpi.main_after_Allocate_vectors (envs r) n local_n r
                        (comm_of p r) x y z) s') Hp).
  - rewrite (min_over_const _ 1 Halloc). change (1 =? 0) with false. cbv iota.
    apply f_equal. apply world_ext. intros r Hr.
    rewrite (proj2 (Mpi_Allocate_vectors_waits (envs r) local_n (comm_of p r)
                      initial_state) (Halloc r Hr)).
    reflexivity.
  - intros r Hr.
    apply (main_after_Read_n_waits (envs r) n local_n r (comm_of p r) initial_state).
Qed.

(** The scatter of [x]. *)
Lemma round_x :
  Mpi.step (world p (fun r =>
    (Mpi.Read_vector (envs r) (Some 0%nat) local_n n "x" r (comm_of p r) >>>
     main_from_y envs p n local_n r) (S1 r)))
  = inr (world p (fun r => main_from_y envs p n local_n r (S2 r))).
Proof.
  destruct (stage_allocated_facts 0 Hp) as (B & _ & _ & G & _).
  rewrite (Read_vector_round p envs 0 local_n n "x"
             (fun r _ => main_from_y envs p n local_n r) S1
             (fun r => map (malloc_junk (envs r) 0) (seq 0 local_n)) Hp Hn).
  - rewrite G. reflexivity.
  - rewrite B. exact Hx.
  - rewrite B. lia.
  - intros r Hr. destruct (stage_allocated_facts r Hr) as (_ & _ & _ & _ & H).
    split; [apply H; lia|]. rewrite length_map. apply length_seq.
Qed.

(** The scatter of [y], and the local sums. *)
Lemma round_y :
  Mpi.step (world p (fun r => main_from_y envs p n local_n r (S2 r)))
  = inr (world p (fun r => main_from_print envs p n local_n r (S4 r))).
Proof.
  destruct (stage_x_facts 0 Hp) as (B & _ & _ & G & _).
  cbn [Nat.eqb] in B, G. unfold main_from_y.
  rewrite (Read_vector_round p envs 1 local_n n "y"
             (fun r _ => main_from_sum envs p n local_n r) S2
             (fun r => map (malloc_junk (envs r) 1) (seq 0 local_n)) Hp Hn).
  - rewrite G. apply f_equal. apply world_ext. intros r Hr.
    unfold main_from_sum.
    exact (bind_Ret _ (fun _ => main_from_print envs p n local_n r) _ _ tt
             (Parallel_vector_sum_stage r Hr)).
  - rewrite B. exact Hy.
  - rewrite B. lia.
  - intros r Hr. destruct (stage_x_facts r Hr) as (_ & _ & _ & _ & _ & H).
    split; [apply H; lia|]. rewrite length_map. apply length_seq.
Qed.

(** The reduction and the gather of [Print_vector], and the end of [main]. *)
Lemma rounds_print :
  Mpi.rounds 2 (world p (fun r => main_from_print envs p n local_n r (S4 r)))
  = Some (world p (fun r => Ret 0 (S6 r))).
Proof.
  destruct (stage_sum_facts 0 Hp) as (B & _).
  cbn [Nat.eqb] in B. unfold main_from_print.
  destruct (Print_vector_rounds p envs 2 local_n n "The sum is"
              (fun _ _ => main_tail) S4 (local_sum n local_n) Hp Hn)
    as (W1 & Hs1 & Hs2).
  - rewrite B. exact Hb.
  - rewrite B. lia.
  - intros r Hr. destruct (stage_sum_facts r Hr) as (_ & _ & _ & _ & _ & H).
    destruct (length_local_blocks r Hr) as (_ & _ & Hl). split; assumption.
  - cbn [Mpi.rounds]. rewrite Hs1, Hs2. rewrite B. f_equal.
    apply world_ext. intros r Hr. apply (main_tail_stage r Hr).
Qed.

Lemma rounds_all :
  Mpi.rounds 5 W0 = Some (world p (fun r => Ret 0 (S6 r))).
Proof.
  change 5%nat with (S (S (S 2))). cbn [Mpi.rounds].
  rewrite round_allocate, round_x, round_y. apply rounds_print.
Qed.

Lemma rounds_distributed :
  Mpi.rounds 3 W0 = Some (world p (fun r => main_from_print envs p n local_n r (S4 r))).
Proof.
  cbn [Mpi.rounds]. rewrite round_allocate, round_x, round_y. reflexivity.
Qed.

Lemma run_rounds {A : Type} (k fuel : nat) (ps ps' : list (res A)) :
  Mpi.rounds k ps = Some ps' -> Mpi.run (k + fuel) ps = Mpi.run fuel ps'.
Proof.
  revert ps. induction k as [|k IH]; intros ps H; cbn in H.
  - injection H as <-. reflexivity.
  - cbn [Nat.add Mpi.run]. destruct (Mpi.step ps) as [o|ps1]; [discriminate|].
    apply IH. exact H.
Qed.

Lemma successful_run (fuel : nat) :
  Mpi.run (6 + fuel) W0 = Mpi.Terminated (world p (fun r => Ret 0 (S6 r))).
Proof.
  change (6 + fuel)%nat with (5 + S fuel)%nat.
  rewrite (run_rounds 5 (S fuel) _ _ rounds_all).
  rewrite run_S, step_all_done by reflexivity. reflexivity.
Qed.

Lemma stage_final_output (r : nat) :
  (r < p)%nat ->
  err (S6 r) = []
  /\ out (S6 r) = (if (r =? 0)%nat then printed "The sum is" (gathered envs p n local_n)
                   else []).
Proof.
  intros Hr. destruct (stage_printed_facts r Hr) as (E & O & _).
  unfold stage_final. cbn [err out with_heap]. split; assumption.
Qed.

End SuccessfulRun.

(** ** Blocks *)

Section Blocks.
Context {L : Libc}.

Lemma scatter_block_lookup (a : list double) (c k j : nat) :
  (j < c)%nat -> Mpi.scatter_block a c k !! j = a !! (k * c + j)%nat.
Proof.
  intros Hj. unfold Mpi.scatter_block. rewrite lookup_take.
  destruct (decide (j < c)%nat); [|contradiction]. apply lookup_drop.
Qed.

Lemma scatter_block_S (a : list double) (c r : nat) :
  Mpi.scatter_block a c (S r) = Mpi.scatter_block (drop c a) c r.
Proof.
  unfold Mpi.scatter_block. rewrite drop_drop. reflexivity.
Qed.

(** The blocks of ranks [0 .. p - 1], one after the other, are the vector. *)
Lemma concat_scatter_blocks (p c : nat) :
  forall a : list double,
    length a = (p * c)%nat -> concat (map (Mpi.scatter_block a c) (seq 0 p)) = a.
Proof.
  induction p as [|p IH]; intros a Ha.
  - destruct a; [reflexivity | discriminate].
  - cbn [seq map concat]. rewrite <- fmap_S_seq.
    change (map (Mpi.scatter_block a c) (S <$> seq 0 p))
      with (map (Mpi.scatter_block a c) (map S (seq 0 p))).
    rewrite map_map.
    rewrite (map_ext _ (Mpi.scatter_block (drop c a) c))
      by (intros r; apply scatter_block_S).
    rewrite IH by (rewrite length_drop; lia).
    unfold Mpi.scatter_block. cbn [Nat.mul drop]. apply take_drop.
Qed.

Lemma scatter_block_zip_with (x y : list double) (c r : nat) :
  zip_with dadd (Mpi.scatter_block x c r) (Mpi.scatter_block y c r)
  = Mpi.scatter_block (zip_with dadd x y) c r.
Proof.
  unfold Mpi.scatter_block. rewrite zip_with_drop, zip_with_take.
  reflexivity.
Qed.

Lemma concat_block_sums (p c : nat) (x y : list double) :
  length x = (p * c)%nat -> length y = (p * c)%nat ->
  concat (map (fun r => zip_with dadd (Mpi.scatter_block x c r)
                          (Mpi.scatter_block y c r)) (seq 0 p))
  = zip_with dadd x y.
Proof.
  intros Hx Hy.
  rewrite (map_ext _ (Mpi.scatter_block (zip_with dadd x y) c))
    by (intros r; apply scatter_block_zip_with).
  apply concat_scatter_blocks. rewrite length_zip_with. lia.
Qed.

Lemma lookup_concat_blocks (blk : nat -> list double) (c : nat) (l : list nat) :
  (forall x, In x l -> length (blk x) = c) ->
  forall k r j, l !! k = Some r -> (j < c)%nat ->
    concat (map blk l) !! (k * c + j)%nat = blk r !! j.
Proof.
  induction l as [|x l IH]; intros Hlen k r j Hk Hj; [discriminate|].
  cbn [map concat]. destruct k as [|k].
  - injection Hk as ->. cbn. apply lookup_app_l.
    rewrite (Hlen r (or_introl eq_refl)). exact Hj.
  - cbn in Hk. rewrite lookup_app_r by (rewrite (Hlen x (or_introl eq_refl)); lia).
    rewrite (Hlen x (or_introl eq_refl)).
    replace (S k * c + j - c)%nat with (k * c + j)%nat by lia.
    apply IH; try assumption. intros y Hy. apply Hlen. right. exact Hy.
Qed.

(** Every index below [p * c] lies in exactly one block. *)
Lemma block_of_index (p c i : nat) :
  (i < p * c)%nat ->
  exists k j, (k < p)%nat /\ (j < c)%nat /\ i = (k * c + j)%nat
    /\ forall k' j', (j' < c)%nat -> i = (k' * c + j')%nat -> k' = k /\ j' = j.
Proof.
  intros Hi. assert (Hc : (0 < c)%nat) by (destruct c; lia).
  exists (i / c)%nat, (i mod c)%nat.
  pose proof (Nat.div_mod_eq i c) as Hdm.
  pose proof (Nat.mod_upper_bound i c ltac:(lia)) as Hm.
  split.
  { apply Nat.Div0.div_lt_upper_bound. lia. }
  split; [exact Hm|]. split; [lia|].
  intros k' j' Hj' Heq.
  assert (Hk : (i / c = k')%nat).
  { subst i. rewrite Nat.div_add_l by lia. rewrite Nat.div_small by lia. lia. }
  split; [symmetry; exact Hk|]. nia.
Qed.

Lemma three_arrays_heap (xs ys zs : list double) :
  heap (three_arrays xs ys zs) !! 0%nat = Some xs
  /\ heap (three_arrays xs ys zs) !! 1%nat = Some ys
  /\ heap (three_arrays xs ys zs) !! 2%nat = Some zs.
Proof.
  unfold three_arrays. cbn [heap with_heap with_brk].
  split; [|split]; reflexivity.
Qed.

Lemma kernel_output_sum (xs ys : list double) :
  length xs = length ys ->
  kernel_output Serial.Vector_sum xs ys = Some (zip_with dadd xs ys)
  /\ kernel_output Mpi.Parallel_vector_sum xs ys = Some (zip_with dadd xs ys).
Proof.
  intros Hl.
  assert (H : kernel_output Serial.Vector_sum xs ys = Some (zip_with dadd xs ys)).
  { unfold kernel_output.
    destruct (three_arrays_heap xs ys (replicate (length xs) d_zero))
      as (H0 & H1 & H2).
    rewrite (sum_loop_spec _ 0 1 2 xs ys _ (length xs) H0 H1 H2); try lia.
    - cbn [heap with_heap]. apply lookup_insert_eq.
    - apply length_replicate. }
  split; exact H.
Qed.

Lemma distributed_output_sum (p c : nat) (x y : list double) :
  length x = (p * c)%nat -> length y = (p * c)%nat ->
  distributed_output p c x y = Some (zip_with dadd x y).
Proof.
  intros Hx Hy. unfold distributed_output.
  rewrite <- (map_id (seq 0 p)) at 1.
  rewrite (mapM_map_pointwise _ id
             (fun r => zip_with dadd (Mpi.scatter_block x c r)
                         (Mpi.scatter_block y c r))).
  - rewrite concat_block_sums by assumption. reflexivity.
  - intros r Hr. apply in_seq in Hr. unfold id.
    apply kernel_output_sum.
    rewrite !length_scatter_block by nia. reflexivity.
Qed.

(** The scenario of the specification: order 8 on 4 ranks. *)
Example scenario_order_8_on_4 :
  distributed_output 4 2 xs_1_to_8 ys_8_to_1 = Some (replicate 8 9%float).
Proof. rewrite (distributed_output_sum 4 2) by reflexivity. reflexivity. Qed.

End Blocks.

(** ** The distributed run and the serial sum *)

Section Results.
Context {L : Libc}.

Lemma alloc_ok_order (p n : nat) : (0 < p)%nat -> (p * (n / p) <= n)%nat.
Proof. intros Hp. apply Nat.Div0.mul_div_le. Qed.

Lemma length_gathered (envs : nat -> env) (p n local_n : nat) :
  (p * local_n <= n)%nat -> length (gathered envs p n local_n) = n.
Proof.
  intros Hn. unfold gathered.
  rewrite length_app, length_drop, length_map, length_seq.
  rewrite (length_concat_blocks (local_sum n local_n) local_n).
  - rewrite length_seq. lia.
  - intros r Hr. apply in_seq in Hr. unfold local_sum.
    rewrite length_zip_with, !length_scatter_block; unfold full_x, full_y;
      rewrite ?length_mpi_vector; nia.
Qed.

Lemma gathered_block (envs : nat -> env) (p n local_n k j : nat) :
  (p * local_n <= n)%nat -> (k < p)%nat -> (j < local_n)%nat ->
  gathered envs p n local_n !! (k * local_n + j)%nat = local_sum n local_n k !! j.
Proof.
  intros Hn Hk Hj. unfold gathered.
  assert (Hlen : forall x, In x (seq 0 p) -> length (local_sum n local_n x) = local_n).
  { intros r Hr. apply in_seq in Hr. unfold local_sum.
    rewrite length_zip_with, !length_scatter_block; unfold full_x, full_y;
      rewrite ?length_mpi_vector; nia. }
  rewrite lookup_app_l.
  - apply (lookup_concat_blocks _ local_n (seq 0 p) Hlen k k j); [|exact Hj].
    apply lookup_seq. split; [reflexivity | exact Hk].
  - rewrite (length_concat_blocks _ local_n _ Hlen), length_seq. nia.
Qed.

Lemma gathered_tail (envs : nat -> env) (p n local_n i : nat) :
  (p * local_n <= i < n)%nat ->
  gathered envs p n local_n !! i = Some (malloc_junk (envs 0%nat) 5 i).
Proof.
  intros Hi. unfold gathered.
  assert (Hlen : length (concat (map (local_sum n local_n) (seq 0 p)))
                 = (p * local_n)%nat).
  { rewrite (length_concat_blocks _ local_n), length_seq; [reflexivity|].
    intros r Hr. apply in_seq in Hr. unfold local_sum.
    rewrite length_zip_with, !length_scatter_block; unfold full_x, full_y;
      rewrite ?length_mpi_vector; nia. }
  rewrite lookup_app_r by lia. rewrite Hlen, lookup_drop.
  replace (p * local_n + (i - p * local_n))%nat with i by lia.
  change (map (malloc_junk (envs 0%nat) 5) (seq 0 n))
    with (malloc_junk (envs 0%nat) 5 <$> seq 0 n).
  rewrite list_lookup_fmap.
  rewrite (proj2 (lookup_seq 0 n i i)) by (split; [reflexivity | lia]).
  reflexivity.
Qed.

Lemma gathered_divisible (envs : nat -> env) (p local_n : nat) :
  gathered envs p (p * local_n) local_n
  = zip_with dadd (full_x (p * local_n)) (full_y (p * local_n)).
Proof.
  unfold gathered. rewrite drop_ge by (rewrite length_map, length_seq; lia).
  rewrite app_nil_r.
  apply (concat_block_sums p local_n (full_x (p * local_n)) (full_y (p * local_n)));
    unfold full_x, full_y; apply length_mpi_vector.
Qed.

(** C2.  With [n = p * local_n]: for all vectors [x] and [y] of length [n],
    giving rank [r] block [r] of [x] and of [y], running
    [Parallel_vector_sum] on every rank and putting the output blocks in
    rank order yields the vector that [Vector_sum] yields on [x] and [y];
    and a run of the MPI program in which every allocation succeeds ends on
    every rank with status 0, rank 0 having printed the vector that
    [Vector_sum] yields on the two vectors rank 0 generated. *)
Theorem distributed_equals_serial (envs : nat -> env) (p local_n fuel : nat)
    (x y : list double) :
  (0 < p)%nat ->
  (forall r, (r < p)%nat -> alloc_flag (envs r) 0 = 1) ->
  malloc_ok (envs 0%nat) 3 = true -> malloc_ok (envs 0%nat) 4 = true ->
  malloc_ok (envs 0%nat) 5 = true ->
  length x = (p * local_n)%nat -> length y = (p * local_n)%nat ->
  (exists z, distributed_output p local_n x y = Some z
             /\ kernel_output Serial.Vector_sum x y = Some z)
  /\ (exists (final : nat -> lstate) (z : list double),
        Mpi.run (6 + fuel)
          (Mpi.spmd p (fun r =>
             Mpi.main_after_Read_n (envs r) (p * local_n) local_n r (comm_of p r)))
        = Mpi.Terminated (world p (fun r => Ret 0 (final r)))
        /\ out (final 0%nat) = printed "The sum is" z
        /\ kernel_output Serial.Vector_sum
             (full_x (p * local_n)) (full_y (p * local_n)) = Some z).
Proof.
  intros Hp Halloc H3 H4 H5 Lx Ly. split.
  - exists (zip_with dadd x y). split.
    + apply distributed_output_sum; assumption.
    + apply kernel_output_sum. congruence.
  - exists (stage_final envs p (p * local_n) local_n),
      (zip_with dadd (full_x (p * local_n)) (full_y (p * local_n))).
    split; [|split].
    + apply successful_run; try assumption. lia.
    + destruct (stage_final_output envs p (p * local_n) local_n Hp (Nat.le_refl _)
                  Halloc 0 Hp) as [_ Hout].
      rewrite Hout. cbn [Nat.eqb]. rewrite gathered_divisible. reflexivity.
    + apply kernel_output_sum. unfold full_x, full_y.
      rewrite !length_mpi_vector. reflexivity.
Qed.

(** C3, what the code does.  For every number of processes [p], whether or
    not it divides the order 100000, a run in which every allocation
    succeeds is not rejected: after the reduction of [Allocate_vectors] and
    the scatter of [x] every rank goes on to read [y]; the run ends on every
    rank with status 0 and nothing on [stderr]; and rank 0 prints a vector
    of [n] elements whose elements from index [p * (n / p)] on were never
    written: they are what [malloc] left in the temporary vector. *)
Theorem order_never_rejected (envs : nat -> env) (p fuel : nat) :
  (0 < p)%nat ->
  (forall r, (r < p)%nat -> alloc_flag (envs r) 0 = 1) ->
  malloc_ok (envs 0%nat) 3 = true -> malloc_ok (envs 0%nat) 4 = true ->
  malloc_ok (envs 0%nat) 5 = true ->
  let n := Z.to_nat 100000 in
  let local_n := (n / p)%nat in
  Mpi.rounds 2
    (Mpi.spmd p (fun r => Mpi.main (envs r) {| Mpi.comm_size := p; Mpi.comm_rank := r |}))
  = Some (world p (fun r => main_from_y envs p n local_n r (stage_x envs n local_n r)))
  /\ Mpi.mpiexec (6 + fuel) p envs
     = Mpi.Terminated (world p (fun r => Ret 0 (stage_final envs p n local_n r)))
  /\ (forall r, (r < p)%nat -> err (stage_final envs p n local_n r) = [])
  /\ out (stage_final envs p n local_n 0) = printed "The sum is" (gathered envs p n local_n)
  /\ length (gathered envs p n local_n) = n
  /\ forall i, (p * local_n <= i < n)%nat ->
       gathered envs p n local_n !! i = Some (malloc_junk (envs 0%nat) 5 i).
Proof.
  intros Hp Halloc H3 H4 H5 n local_n.
  pose proof (alloc_ok_order p n Hp) as Hn. fold local_n in Hn.
  split; [|split; [|split; [|split; [|split]]]].
  - change (Mpi.spmd p (fun r => Mpi.main (envs r)
                          {| Mpi.comm_size := p; Mpi.comm_rank := r |}))
      with (Mpi.spmd p (fun r => Mpi.main_after_Read_n (envs r) n local_n r
                                   (comm_of p r))).
    cbn [Mpi.rounds].
    rewrite (round_allocate envs p n local_n Hp Hn Halloc).
    rewrite (round_x envs p n local_n Hp Hn Halloc H3). reflexivity.
  - unfold Mpi.mpiexec.
    change (Mpi.spmd p (fun r => Mpi.main (envs r)
                          {| Mpi.comm_size := p; Mpi.comm_rank := r |}))
      with (Mpi.spmd p (fun r => Mpi.main_after_Read_n (envs r) n local_n r
                                   (comm_of p r))).
    apply successful_run; assumption.
  - intros r Hr.
    apply (stage_final_output envs p n local_n Hp Hn Halloc r Hr).
  - apply (stage_final_output envs p n local_n Hp Hn Halloc 0 Hp).
  - apply length_gathered. exact Hn.
  - intros i Hi. apply gathered_tail. exact Hi.
Qed.

(** C5.  With [n = p * local_n]: every index below [n] lies in exactly one
    block [k * local_n .. (k + 1) * local_n - 1]; in a run in which every
    allocation succeeds, after the reduction and the two scatters rank [k]
    holds in [local_x] and [local_y] the elements [k * local_n + j] of the
    two full vectors and, after [Parallel_vector_sum], in [local_z] its
    output block; and the run ends with rank 0 having printed a vector of
    length [n] whose elements [k * local_n + j] are the output block of
    rank [k]. *)
Theorem block_distribution (envs : nat -> env) (p local_n fuel : nat) :
  (0 < p)%nat ->
  (forall r, (r < p)%nat -> alloc_flag (envs r) 0 = 1) ->
  malloc_ok (envs 0%nat) 3 = true -> malloc_ok (envs 0%nat) 4 = true ->
  malloc_ok (envs 0%nat) 5 = true ->
  let n := (p * local_n)%nat in
  let W0 := Mpi.spmd p (fun r =>
              Mpi.main_after_Read_n (envs r) n local_n r (comm_of p r)) in
  (forall i, (i < n)%nat ->
     exists k j, (k < p)%nat /\ (j < local_n)%nat /\ i = (k * local_n + j)%nat
       /\ forall k' j', (j' < local_n)%nat -> i = (k' * local_n + j')%nat ->
            k' = k /\ j' = j)
  /\ Mpi.rounds 3 W0
     = Some (world p (fun r =>
               main_from_print envs p n local_n r (stage_sum envs n local_n r)))
  /\ (forall k, (k < p)%nat ->
        heap (stage_sum envs n local_n k) !! 0%nat
        = Some (Mpi.scatter_block (full_x n) local_n k)
        /\ heap (stage_sum envs n local_n k) !! 1%nat
           = Some (Mpi.scatter_block (full_y n) local_n k)
        /\ heap (stage_sum envs n local_n k) !! 2%nat = Some (local_sum n local_n k)
        /\ forall j, (j < local_n)%nat ->
             Mpi.scatter_block (full_x n) local_n k !! j
             = full_x n !! (k * local_n + j)%nat
             /\ Mpi.scatter_block (full_y n) local_n k !! j
                = full_y n !! (k * local_n + j)%nat)
  /\ Mpi.run (6 + fuel) W0
     = Mpi.Terminated (world p (fun r => Ret 0 (stage_final envs p n local_n r)))
  /\ out (stage_final envs p n local_n 0) = printed "The sum is" (gathered envs p n local_n)
  /\ length (gathered envs p n local_n) = n
  /\ forall k j, (k < p)%nat -> (j < local_n)%nat ->
       gathered envs p n local_n !! (k * local_n + j)%nat
       = local_sum n local_n k !! j.
Proof.
  intros Hp Halloc H3 H4 H5 n W0.
  assert (Hn : (p * local_n <= n)%nat) by (unfold n; lia).
  split; [|split; [|split; [|split; [|split; [|split]]]]].
  - intros i Hi. apply block_of_index. exact Hi.
  - apply rounds_distributed; assumption.
  - intros k Hk.
    destruct (stage_sum_facts envs p n local_n Hp Hn Halloc k Hk)
      as (_ & _ & _ & Hx & Hy & Hz).
    repeat split; try assumption; apply scatter_block_lookup; assumption.
  - apply successful_run; assumption.
  - apply (stage_final_output envs p n local_n Hp Hn Halloc 0 Hp).
  - apply length_gathered. exact Hn.
  - intros k j Hk Hj. apply gathered_block; assumption.
Qed.

End Results.

Lemma distributed_equals_serial_witness :
  (exists z, distributed_output 4 2 xs_1_to_8 ys_8_to_1 = Some z
             /\ kernel_output Serial.Vector_sum xs_1_to_8 ys_8_to_1 = Some z)
  /\ (exists (final : nat -> lstate) (z : list double),
        Mpi.run (6 + 0)
          (Mpi.spmd 4 (fun r =>
             Mpi.main_after_Read_n (quiet_envs r) (4 * 2) 2 r (comm_of 4 r)))
        = Mpi.Terminated (world 4 (fun r => Ret 0 (final r)))
        /\ out (final 0%nat) = printed "The sum is" z
        /\ kernel_output Serial.Vector_sum (full_x (4 * 2)) (full_y (4 * 2)) = Some z).
Proof.
  apply (distributed_equals_serial quiet_envs 4 2 0 xs_1_to_8 ys_8_to_1);
    solve [lia | reflexivity | intros; reflexivity].
Defined.

Lemma order_never_rejected_witness :
  let n := Z.to_nat 100000 in
  let local_n := (n / 3)%nat in
  Mpi.rounds 2
    (Mpi.spmd 3 (fun r => Mpi.main (quiet_envs r)
                            {| Mpi.comm_size := 3; Mpi.comm_rank := r |}))
  = Some (world 3 (fun r => main_from_y quiet_envs 3 n local_n r
                              (stage_x quiet_envs n local_n r)))
  /\ Mpi.mpiexec (6 + 0) 3 quiet_envs
     = Mpi.Terminated (world 3 (fun r => Ret 0 (stage_final quiet_envs 3 n local_n r)))
  /\ (forall r, (r < 3)%nat -> err (stage_final quiet_envs 3 n local_n r) = [])
  /\ out (stage_final quiet_envs 3 n local_n 0)
     = printed "The sum is" (gathered quiet_envs 3 n local_n)
  /\ length (gathered quiet_envs 3 n local_n) = n
  /\ forall i, (3 * local_n <= i < n)%nat ->
       gathered quiet_envs 3 n local_n !! i = Some (malloc_junk (quiet_envs 0%nat) 5 i).
Proof.
  apply (order_never_rejected quiet_envs 3 0);
    solve [lia | reflexivity | intros; reflexivity].
Defined.

Lemma block_distribution_witness :
  let n := (4 * 2)%nat in
  let W0 := Mpi.spmd 4 (fun r =>
              Mpi.main_after_Read_n (quiet_envs r) n 2 r (comm_of 4 r)) in
  (forall i, (i < n)%nat ->
     exists k j, (k < 4)%nat /\ (j < 2)%nat /\ i = (k * 2 + j)%nat
       /\ forall k' j', (j' < 2)%nat -> i = (k' * 2 + j')%nat -> k' = k /\ j' = j)
  /\ Mpi.rounds 3 W0
     = Some (world 4 (fun r =>
               main_from_print quiet_envs 4 n 2 r (stage_sum quiet_envs n 2 r)))
  /\ (forall k, (k < 4)%nat ->
        heap (stage_sum quiet_envs n 2 k) !! 0%nat
        = Some (Mpi.scatter_block (full_x n) 2 k)
        /\ heap (stage_sum quiet_envs n 2 k) !! 1%nat
           = Some (Mpi.scatter_block (full_y n) 2 k)
        /\ heap (stage_sum quiet_envs n 2 k) !! 2%nat = Some (local_sum n 2 k)
        /\ forall j, (j < 2)%nat ->
             Mpi.scatter_block (full_x n) 2 k !! j = full_x n !! (k * 2 + j)%nat
             /\ Mpi.scatter_block (full_y n) 2 k !! j = full_y n !! (k * 2 + j)%nat)
  /\ Mpi.run (6 + 0) W0
     = Mpi.Terminated (world 4 (fun r => Ret 0 (stage_final quiet_envs 4 n 2 r)))
  /\ out (stage_final quiet_envs 4 n 2 0) = printed "The sum is" (gathered quiet_envs 4 n 2)
  /\ length (gathered quiet_envs 4 n 2) = n
  /\ forall k j, (k < 4)%nat -> (j < 2)%nat ->
       gathered quiet_envs 4 n 2 !! (k * 2 + j)%nat = local_sum n 2 k !! j.
Proof.
  apply (block_distribution quiet_envs 4 2 0);
    solve [lia | reflexivity | intros; reflexivity].
Defined.

(** * Further properties of the two programs *)

(** ** The summation loop on arrays that overlap or are longer than [n] *)

Section SumInPlace.
Context {L : Libc}.

(** While the first [i] elements of the output are final, every array still
    holds at index [i] what it held at the start, also the output array
    itself. *)
Lemma lookup_during_sum (h : gmap nat (list double)) (b bz i : nat)
    (blk zs pre : list double) :
  h !! b = Some blk -> h !! bz = Some zs -> length pre = i ->
  exists cur, <[bz := pre ++ drop i zs]> h !! b = Some cur /\ cur !! i = blk !! i.
Proof.
  intros Hb Hz Hpre. destruct (decide (b = bz)) as [->|Hne].
  - rewrite lookup_insert_eq. eexists. split; [reflexivity|].
    assert (blk = zs) by congruence. subst blk.
    rewrite lookup_app_r by lia. rewrite Hpre, Nat.sub_diag, lookup_drop.
    rewrite Nat.add_0_r. reflexivity.
  - rewrite lookup_insert_ne by congruence. eauto.
Qed.

Lemma sum_loop_general (s : lstate) (bx by_ bz : nat) (xs ys zs : list double)
    (n : nat) :
  heap s !! bx = Some xs -> heap s !! by_ = Some ys -> heap s !! bz = Some zs ->
  (n <= length xs)%nat -> (n <= length ys)%nat -> (n <= length zs)%nat ->
  Serial.Vector_sum (Some bx) (Some by_) (Some bz) n s
  = Ret tt (with_heap
              (<[bz := zip_with dadd (take n xs) (take n ys) ++ drop n zs]> (heap s)) s).
Proof.
  intros Hx Hy Hz Lx Ly Lz.
  pose (I := fun (i : nat) (t : lstate) =>
    t = with_heap
          (<[bz := zip_with dadd (take i xs) (take i ys) ++ drop i zs]> (heap s)) s).
  destruct (for_loop_inv I
    (fun i => let* a := load (Some bx) i in
              let* b := load (Some by_) i in
              store (Some bz) i (dadd a b)) n 0 s) as (s' & Hrun & Hend).
  - unfold I. cbn. rewrite drop_0, insert_id by exact Hz.
    symmetry. apply with_heap_id.
  - intros i t Hi ->.
    destruct (lookup_lt_is_Some_2 xs i ltac:(lia)) as [a Ha].
    destruct (lookup_lt_is_Some_2 ys i ltac:(lia)) as [b Hb].
    assert (Hpre : length (zip_with dadd (take i xs) (take i ys)) = i)
      by (rewrite length_zip_with, !length_take; lia).
    destruct (lookup_during_sum (heap s) bx bz i xs zs _ Hx Hz Hpre)
      as (cx & Hcx & Hcxi).
    destruct (lookup_during_sum (heap s) by_ bz i ys zs _ Hy Hz Hpre)
      as (cy & Hcy & Hcyi).
    eexists. split.
    + erewrite bind_Ret; [|eapply load_ok; [exact Hcx|rewrite Hcxi; exact Ha]].
      erewrite bind_Ret; [|eapply load_ok; [exact Hcy|rewrite Hcyi; exact Hb]].
      eapply store_ok; cbn; [apply lookup_insert_eq|].
      rewrite length_app, Hpre, length_drop. lia.
    + unfold I. cbn. rewrite insert_insert_eq.
      rewrite insert_prefix_drop by (exact Hpre || lia).
      rewrite (zip_with_take_S _ _ _ _ _ Ha Hb). reflexivity.
  - unfold Serial.Vector_sum. rewrite Hrun. unfold I in Hend. cbn in Hend.
    rewrite Hend. reflexivity.
Qed.

(** X1.  On arrays of length at least [n], whether or not the output array
    is one of the input arrays, [Vector_sum] and [Parallel_vector_sum]
    return; the first [n] elements of the output are the sums of what [x]
    and [y] held at the start, its elements from [n] on are kept, and
    nothing else in the state changes. *)
Theorem sum_in_place_and_prefix (s : lstate) (bx by_ bz : nat)
    (xs ys zs : list double) (n : nat) :
  heap s !! bx = Some xs -> heap s !! by_ = Some ys -> heap s !! bz = Some zs ->
  (n <= length xs)%nat -> (n <= length ys)%nat -> (n <= length zs)%nat ->
  Serial.Vector_sum (Some bx) (Some by_) (Some bz) n s
  = Ret tt (with_heap
              (<[bz := zip_with dadd (take n xs) (take n ys) ++ drop n zs]> (heap s)) s)
  /\ Mpi.Parallel_vector_sum (Some bx) (Some by_) (Some bz) n s
     = Ret tt (with_heap
                 (<[bz := zip_with dadd (take n xs) (take n ys) ++ drop n zs]>
                    (heap s)) s).
Proof.
  intros Hx Hy Hz Lx Ly Lz.
  pose proof (sum_loop_general s bx by_ bz xs ys zs n Hx Hy Hz Lx Ly Lz) as H.
  split; exact H.
Qed.

End SumInPlace.

(** [x += y] on the first element only: [x] is both input and output. *)
Lemma sum_in_place_and_prefix_witness :
  Serial.Vector_sum (Some 0%nat) (Some 1%nat) (Some 0%nat) 1 c1_state
  = Ret tt (with_heap
              (<[0%nat := zip_with dadd (take 1 [1%float; 2%float])
                            (take 1 [8%float; 7%float])
                          ++ drop 1 [1%float; 2%float]]> (heap c1_state)) c1_state)
  /\ Mpi.Parallel_vector_sum (Some 0%nat) (Some 1%nat) (Some 0%nat) 1 c1_state
     = Ret tt (with_heap
                 (<[0%nat := zip_with dadd (take 1 [1%float; 2%float])
                               (take 1 [8%float; 7%float])
                             ++ drop 1 [1%float; 2%float]]> (heap c1_state)) c1_state).
Proof.
  apply (sum_in_place_and_prefix c1_state 0 1 0 [1%float; 2%float]
           [8%float; 7%float] [1%float; 2%float] 1);
    solve [reflexivity | cbn; lia].
Defined.

(** ** What the serial program prints and leaves *)

Section SerialOutput.
Context {L : Libc} (E : env).

Lemma Print_part_of_vector_out (s : lstate) (b : nat) (a : list double)
    (n : nat) (title : string) :
  heap s !! b = Some a -> (Nat.min 10 n <= length a)%nat ->
  Serial.Print_part_of_vector (Some b) n title s
  = Ret tt (with_out (out s ++ part_printed title (take (Nat.min 10 n) a)) s).
Proof.
  intros Hb La. unfold Serial.Print_part_of_vector.
  erewrite bind_Ret by (unfold printf; reflexivity).
  erewrite bind_Ret by (apply (print_loop_spec _ _ b a); [exact Hb | exact La]).
  unfold printf, part_printed. cbn. rewrite <- !app_assoc. reflexivity.
Qed.

(** X2.  [Print_part_of_vector] on an array that holds at least
    [min 10 n] elements prints the title, then the first [min 10 n]
    elements in order, then a newline: ten elements at most, none when [n]
    is 0.  It changes nothing but [stdout]. *)
Theorem Print_part_of_vector_prints (s : lstate) (b : nat) (a : list double)
    (n : nat) (title : string) :
  heap s !! b = Some a -> (Nat.min 10 n <= length a)%nat ->
  exists s',
    Serial.Print_part_of_vector (Some b) n title s = Ret tt s'
    /\ out s' = out s ++ part_printed title (take (Nat.min 10 n) a)
    /\ length (out s') = (length (out s) + Nat.min 10 n + 2)%nat
    /\ heap s' = heap s /\ brk s' = brk s /\ rng s' = rng s
    /\ clock s' = clock s /\ err s' = err s.
Proof.
  intros Hb La. eexists. split; [apply (Print_part_of_vector_out s b a) |];
    [exact Hb | exact La |].
  split; [reflexivity|]. split; [|repeat split].
  cbn [out with_out]. unfold part_printed.
  rewrite length_app. cbn [length].
  rewrite length_app, length_map, length_take. cbn [length]. lia.
Qed.

Lemma freed_three (h : gmap nat (list double)) :
  (forall k, (3 <= k)%nat -> h !! k = None) ->
  delete 2%nat (delete 1%nat (delete 0%nat h)) = ∅.
Proof.
  intros Hh. apply map_empty. intros k.
  destruct (decide (k = 2%nat)) as [->|H2]; [apply lookup_delete_eq|].
  rewrite lookup_delete_ne by congruence.
  destruct (decide (k = 1%nat)) as [->|H1]; [apply lookup_delete_eq|].
  rewrite lookup_delete_ne by congruence.
  destruct (decide (k = 0%nat)) as [->|H0]; [apply lookup_delete_eq|].
  rewrite lookup_delete_ne by congruence.
  apply Hh. lia.
Qed.

Lemma length_seeded_vector (seed : Z) (n : nat) : length (seeded_vector seed n) = n.
Proof. unfold seeded_vector. rewrite length_map. apply length_rand_outputs. Qed.

(** [main] of the serial program for an order [n], when the three
    allocations succeed. *)
Lemma serial_main_run (n : nat) :
  malloc_ok E 0 = true -> malloc_ok E 1 = true -> malloc_ok E 2 = true ->
  exists s',
    (let* (x, y, z) := Serial.Allocate_vectors E n in
     Serial.Generate_random_vector E x n >>>
     Serial.Generate_random_vector E y n >>>
     Serial.Vector_sum x y z n >>>
     Serial.Print_part_of_vector z n "A part of the sum is" >>>
     free x >>> free y >>> free z >>> ret 0) initial_state
    = Ret 0 s'
    /\ heap s' = ∅ /\ err s' = []
    /\ out s'
       = part_printed "A part of the sum is"
           (take (Nat.min 10 n)
              (zip_with dadd (seeded_vector (time_at E 0 mod 2 ^ 32) n)
                 (seeded_vector (time_at E 1 mod 2 ^ 32) n))).
Proof.
  intros H0 H1 H2.
  destruct (Allocate_vectors_success E n initial_state H0 H1 H2)
    as (s1 & Halloc & Hheap & Herr).
  cbn [brk initial_state heap err] in Halloc, Hheap, Herr.
  rewrite (bind_Ret _ _ _ _ _ Halloc). cbv beta iota.
  set (jx := map (malloc_junk E 0) (seq 0 n)) in *.
  set (jy := map (malloc_junk E 1) (seq 0 n)) in *.
  set (jz := map (malloc_junk E 2) (seq 0 n)) in *.
  assert (Lx : length jx = n) by (unfold jx; rewrite length_map; apply length_seq).
  assert (Ly : length jy = n) by (unfold jy; rewrite length_map; apply length_seq).
  assert (Lz : length jz = n) by (unfold jz; rewrite length_map; apply length_seq).
  assert (Hout1 : out s1 = [] /\ clock s1 = 0%nat).
  { revert Halloc. unfold Serial.Allocate_vectors, bind, malloc.
    cbn. rewrite H0. cbn. rewrite H1. cbn. rewrite H2. cbn.
    intros [= <-]. split; reflexivity. }
  destruct Hout1 as [Hout1 Hclock1].
  set (X := seeded_vector (time_at E 0 mod 2 ^ 32) n).
  set (Y := seeded_vector (time_at E 1 mod 2 ^ 32) n).
  erewrite bind_Ret.
  2:{ apply (Generate_random_vector_spec E s1 0 jx n); [|exact Lx].
      rewrite Hheap. rewrite !lookup_insert_ne by lia. apply lookup_insert_eq. }
  erewrite bind_Ret.
  2:{ apply (Generate_random_vector_spec E _ 1 jy n); [|exact Ly].
      cbn. rewrite Hheap. rewrite lookup_insert_ne by lia.
      rewrite lookup_insert_ne by lia. apply lookup_insert_eq. }
  cbn [clock with_clock with_heap with_rng heap]. rewrite Hclock1. fold X. fold Y.
  match goal with
  | |- context [bind (Serial.Vector_sum _ _ _ _) _ ?t] => set (s3 := t)
  end.
  assert (Hh3 : heap s3 = <[1%nat := Y]> (<[0%nat := X]> (heap s1))) by reflexivity.
  assert (Ho3 : out s3 = [] /\ err s3 = []) by (split; assumption).
  destruct Ho3 as [Ho3 He3]. clearbody s3.
  assert (LX : length X = n) by apply length_seeded_vector.
  assert (LY : length Y = n) by apply length_seeded_vector.
  erewrite bind_Ret.
  2:{ apply (sum_loop_spec s3 0 1 2 X Y jz n); try lia.
      - rewrite Hh3. rewrite lookup_insert_ne by lia. apply lookup_insert_eq.
      - rewrite Hh3. apply lookup_insert_eq.
      - rewrite Hh3, Hheap. rewrite !lookup_insert_ne by lia. apply lookup_insert_eq. }
  erewrite bind_Ret.
  2:{ apply (Print_part_of_vector_out _ 2 (zip_with dadd X Y)).
      - cbn. apply lookup_insert_eq.
      - rewrite length_zip_with. lia. }
  erewrite bind_Ret.
  2:{ apply (free_ok _ 0 X). cbn. rewrite lookup_insert_ne by lia.
      rewrite Hh3. rewrite lookup_insert_ne by lia. apply lookup_insert_eq. }
  erewrite bind_Ret.
  2:{ apply (free_ok _ 1 Y). cbn. rewrite lookup_delete_ne by lia.
      rewrite lookup_insert_ne by lia. rewrite Hh3. apply lookup_insert_eq. }
  erewrite bind_Ret.
  2:{ apply (free_ok _ 2 (zip_with dadd X Y)). cbn.
      rewrite !lookup_delete_ne by lia. apply lookup_insert_eq. }
  eexists. split; [reflexivity|]. cbn. split; [|split].
  - apply freed_three. intros k Hk. rewrite Hh3, Hheap.
    rewrite !lookup_insert_ne by lia. apply lookup_empty.
  - exact He3.
  - rewrite Ho3. reflexivity.
Qed.

Lemma zip_with_dadd_diag (l : list double) :
  zip_with dadd l l = map (fun v => dadd v v) l.
Proof. induction l as [|v l IH]; [reflexivity|]. cbn. rewrite IH. reflexivity. Qed.

(** X3.  When its three allocations succeed, the serial program returns 0
    with every array freed and nothing on [stderr], and prints the title,
    the sums [x[i] + y[i]] for [i] from 0 to 9, and a newline, where [x] and
    [y] are the vectors of the two times read.  Where [time] returned the
    same value twice, the ten values are [x[i] + x[i]]. *)
Theorem serial_main_output :
  malloc_ok E 0 = true -> malloc_ok E 1 = true -> malloc_ok E 2 = true ->
  let x := seeded_vector (time_at E 0 mod 2 ^ 32) Serial.VECTOR_SIZE in
  let y := seeded_vector (time_at E 1 mod 2 ^ 32) Serial.VECTOR_SIZE in
  exists s',
    Serial.main E initial_state = Ret 0 s'
    /\ heap s' = ∅ /\ err s' = []
    /\ out s' = part_printed "A part of the sum is" (take 10 (zip_with dadd x y))
    /\ length (take 10 (zip_with dadd x y)) = 10%nat
    /\ (time_at E 0 = time_at E 1 ->
        out s' = part_printed "A part of the sum is"
                   (take 10 (map (fun v => dadd v v) x))).
Proof.
  intros H0 H1 H2 x y.
  destruct (serial_main_run Serial.VECTOR_SIZE H0 H1 H2) as (s' & Hrun & Hh & He & Ho).
  assert (Hmin : Nat.min 10 Serial.VECTOR_SIZE = 10%nat)
    by (unfold Serial.VECTOR_SIZE; lia).
  rewrite Hmin in Ho. fold x y in Ho.
  exists s'. split; [exact Hrun|]. split; [exact Hh|]. split; [exact He|].
  split; [exact Ho|]. split.
  - rewrite length_take, length_zip_with. unfold x, y.
    rewrite !length_seeded_vector. unfold Serial.VECTOR_SIZE. lia.
  - intros Ht. rewrite Ho. unfold y. rewrite <- Ht. fold x.
    rewrite zip_with_dadd_diag. reflexivity.
Qed.

End SerialOutput.

Lemma Print_part_of_vector_prints_witness :
  exists s',
    Serial.Print_part_of_vector (Some 0%nat) 2 "t" c1_state = Ret tt s'
    /\ out s' = out c1_state
                ++ part_printed "t" (take (Nat.min 10 2) [1%float; 2%float])
    /\ length (out s') = (length (out c1_state) + Nat.min 10 2 + 2)%nat
    /\ heap s' = heap c1_state /\ brk s' = brk c1_state /\ rng s' = rng c1_state
    /\ clock s' = clock c1_state /\ err s' = err c1_state.
Proof.
  apply (Print_part_of_vector_prints c1_state 0 [1%float; 2%float] 2 "t");
    solve [reflexivity | cbn; lia].
Defined.

Lemma serial_main_output_witness :
  let x := seeded_vector (time_at quiet_env 0 mod 2 ^ 32) Serial.VECTOR_SIZE in
  let y := seeded_vector (time_at quiet_env 1 mod 2 ^ 32) Serial.VECTOR_SIZE in
  exists s',
    Serial.main quiet_env initial_state = Ret 0 s'
    /\ heap s' = ∅ /\ err s' = []
    /\ out s' = part_printed "A part of the sum is" (take 10 (zip_with dadd x y))
    /\ length (take 10 (zip_with dadd x y)) = 10%nat
    /\ (time_at quiet_env 0 = time_at quiet_env 1 ->
        out s' = part_printed "A part of the sum is"
                   (take 10 (map (fun v => dadd v v) x))).
Proof.
  apply (serial_main_output quiet_env); reflexivity.
Defined.

(** ** The agreement of [Check_for_error] *)

Section Agreement.
Context {L : Libc}.

Lemma forallb_false_witness (f : nat -> bool) (l : list nat) :
  forallb f l = false -> exists r, In r l /\ f r = false.
Proof.
  induction l as [|x l IH]; cbn; [discriminate|].
  destruct (f x) eqn:Hx.
  - intros H. destruct (IH H) as (r & Hr & Hf). exists r. auto.
  - intros _. exists x. auto.
Qed.

(** The least of flags that are each 0 or 1. *)
Lemma min_over_flags (p : nat) (v : nat -> Z) :
  (0 < p)%nat ->
  (forall r, (r < p)%nat -> v r = 0 \/ v r = 1) ->
  min_over p v = if forallb (fun r => v r =? 1) (seq 0 p) then 1 else 0.
Proof.
  intros Hp Hv. destruct (forallb (fun r => v r =? 1) (seq 0 p)) eqn:Hall.
  - rewrite forallb_forall in Hall.
    pose proof (min_over_le p v 0 Hp) as Hle.
    assert (H0 : v 0%nat = 1) by (apply Z.eqb_eq, Hall, in_seq; lia).
    assert (1 <= min_over p v).
    { apply min_over_ge; [|exact Hp]. intros r Hr.
      assert (v r = 1) by (apply Z.eqb_eq, Hall, in_seq; lia). lia. }
    lia.
  - destruct (forallb_false_witness _ _ Hall) as (r & Hr & Hf).
    apply in_seq in Hr. apply Z.eqb_neq in Hf.
    assert (v r = 0) by (destruct (Hv r ltac:(lia)); [assumption | contradiction]).
    pose proof (min_over_le p v r ltac:(lia)) as Hle.
    assert (0 <= min_over p v).
    { apply min_over_ge; [|exact Hp]. intros r' Hr'. destruct (Hv r' Hr'); lia. }
    lia.
Qed.

(** X4.  When every rank calls [Check_for_error] with a flag that is 0 or
    1, one round later either every rank goes on, in the state it was in
    (when all flags are 1), or every rank has called [exit (-1)] (when some
    flag is 0): never some of each.  In the second case rank 0 has written
    the diagnostic to [stderr] and no other rank has written anything. *)
Theorem Check_for_error_agreement {A : Type} (p : nat) (v : nat -> Z)
    (fname message : string) (f : nat -> unit -> R A) (S0 : nat -> lstate) :
  (0 < p)%nat ->
  (forall r, (r < p)%nat -> v r = 0 \/ v r = 1) ->
  Mpi.step (world p (fun r =>
    bind (Mpi.Check_for_error (v r) fname message (comm_of p r)) (f r) (S0 r)))
  = inr (world p (fun r =>
      if forallb (fun r => v r =? 1) (seq 0 p)
      then f r tt (S0 r)
      else Halt (-1)
             (if (r =? 0)%nat
              then with_err (err (S0 r) ++ [diagnostic 0 fname message]) (S0 r)
              else S0 r))).
Proof.
  intros Hp Hv. unfold world at 1.
  rewrite (step_allreduce p _ v S0
             (fun r ok s' =>
                bind_res
                  (if ok =? 0
                   then Halt (-1)
                          (if (r =? 0)%nat
                           then with_err (err s' ++ [diagnostic r fname message]) s'
                           else s')
                   else Ret tt s') (f r)) Hp).
  - rewrite (min_over_flags p v Hp Hv).
    apply f_equal, world_ext. intros r Hr.
    destruct (forallb (fun r0 => v r0 =? 1) (seq 0 p)); cbn; [reflexivity|].
    destruct (r =? 0)%nat eqn:Hr0; [|reflexivity].
    apply Nat.eqb_eq in Hr0. subst r. reflexivity.
  - intros r Hr. apply waits_at_bind.
    apply (Check_for_error_waits (v r) fname message (comm_of p r) (S0 r)).
Qed.

End Agreement.

Lemma Check_for_error_agreement_witness :
  Mpi.step (world 2 (fun r =>
    bind (Mpi.Check_for_error (if (r =? 1)%nat then 0 else 1) "f" "m" (comm_of 2 r))
      (fun _ => ret 7) initial_state))
  = inr (world 2 (fun r =>
      if forallb (fun r => (if (r =? 1)%nat then 0 else 1) =? 1) (seq 0 2)
      then ret 7 initial_state
      else Halt (-1)
             (if (r =? 0)%nat
              then with_err (err initial_state ++ [diagnostic 0 "f" "m"]) initial_state
              else initial_state))).
Proof.
  apply (Check_for_error_agreement 2 (fun r => if (r =? 1)%nat then 0 else 1)
           "f" "m" (fun _ _ => ret 7) (fun _ => initial_state)).
  - lia.
  - intros r _. destruct (r =? 1)%nat; auto.
Defined.

(** ** Allocation failures after [Allocate_vectors] *)

Section LateFailures.
Context {L : Libc} (envs : nat -> env) (p : nat).
Hypothesis Hp : (0 < p)%nat.
Hypothesis Halloc : forall r, (r < p)%nat -> alloc_flag (envs r) 0 = 1.

Local Abbreviation n := (Z.to_nat 100000).
Local Abbreviation local_n := (Z.to_nat 100000 / p)%nat.
Local Abbreviation W0 :=
  (Mpi.spmd p (fun r => Mpi.main (envs r) {| Mpi.comm_size := p; Mpi.comm_rank := r |})).

Lemma order_fits : (p * local_n <= n)%nat.
Proof. apply Nat.Div0.mul_div_le. Qed.

Lemma for_loop_first_fault (body : nat -> R unit) (count : nat) (s s' : lstate) :
  (0 < count)%nat -> body 0%nat s = Fault s' -> for_loop 0 count body s = Fault s'.
Proof.
  intros Hc Hb. destruct count as [|c]; [lia|].
  cbn [for_loop]. unfold bind. rewrite Hb. reflexivity.
Qed.

(** Rank 0 in [Read_vector] when its call of [malloc] fails: the first
    assignment [a[0] = ...] goes through the null pointer. *)
Lemma Read_vector_null (E : env) (la ln m : nat) (name : string)
    (comm : Mpi.MPI_Comm) (s : lstate) :
  malloc_ok E (brk s) = false -> (0 < m)%nat ->
  exists s', Mpi.Read_vector E (Some la) ln m name 0 comm s = Fault s'
             /\ err s' = err s /\ out s' = out s.
Proof.
  intros Hfail Hm. unfold Mpi.Read_vector. cbv zeta. cbn [Nat.eqb].
  rewrite (bind_Ret _ _ _ _ _ (malloc_failure E m s Hfail)).
  eexists. split.
  - unfold bind at 1. unfold bind at 1.
    erewrite for_loop_first_fault; [reflexivity | exact Hm |].
    unfold bind, rand_, store. cbn. reflexivity.
  - split; reflexivity.
Qed.

Lemma existsb_fault_rank0 {A : Type} (prog : nat -> res A) (s : lstate) :
  prog 0%nat = Fault s -> existsb Mpi.is_fault (world p prog) = true.
Proof.
  intros H. unfold world. destruct p as [|q]; [lia|].
  cbn [seq map existsb]. rewrite H. reflexivity.
Qed.

(** X5.  The call of [malloc] in [Read_vector] is not checked: when the
    allocations of [Allocate_vectors] succeed on every rank and that call
    fails on rank 0, then after the reduction rank 0 writes through the null
    pointer, with nothing on [stderr] or [stdout], and the run has no
    defined outcome. *)
Theorem Read_vector_malloc_unchecked (fuel : nat) :
  malloc_ok (envs 0%nat) 3 = false ->
  exists W1 s,
    Mpi.step W0 = inr W1
    /\ W1 !! 0%nat = Some (Fault s)
    /\ err s = [] /\ out s = []
    /\ Mpi.mpiexec (2 + fuel) p envs = Mpi.Undefined.
Proof.
  intros Hfail.
  destruct (stage_allocated_facts envs p n local_n Hp order_fits Halloc 0 Hp)
    as (B & E1 & O1 & _).
  destruct (Read_vector_null (envs 0%nat) 0 local_n n "x" (comm_of p 0)
              (stage_allocated envs local_n 0)) as (s & Hs & Es & Os).
  { rewrite B. exact Hfail. }
  { lia. }
  set (prog1 := fun r =>
    (Mpi.Read_vector (envs r) (Some 0%nat) local_n n "x" r (comm_of p r) >>>
     main_from_y envs p n local_n r) (stage_allocated envs local_n r)).
  assert (Hstep : Mpi.step W0 = inr (world p prog1))
    by apply (round_allocate envs p n local_n Hp order_fits Halloc).
  assert (H0 : prog1 0%nat = Fault s).
  { unfold prog1, bind. rewrite Hs. reflexivity. }
  exists (world p prog1), s. split; [exact Hstep|]. split.
  { rewrite (world_lookup p prog1 0 Hp). rewrite H0. reflexivity. }
  split; [congruence|]. split; [congruence|].
  unfold Mpi.mpiexec. change (2 + fuel)%nat with (S (S fuel)).
  rewrite run_S, Hstep, run_S. unfold Mpi.step.
  rewrite (existsb_fault_rank0 prog1 s H0). reflexivity.
Qed.

(** X6.  When the allocations before it succeed and the call of [malloc] in
    [Print_vector] fails on rank 0, the run ends after the two scatters and
    the second reduction with every rank having called [exit (-1)]: rank 0
    has written the diagnostic of [Print_vector] to [stderr], and nothing
    has been printed on any rank. *)
Theorem Print_vector_allocation_failure (fuel : nat) :
  malloc_ok (envs 0%nat) 3 = true -> malloc_ok (envs 0%nat) 4 = true ->
  malloc_ok (envs 0%nat) 5 = false ->
  exists final : nat -> lstate,
    Mpi.rounds 4 W0 = Some (world p (fun r => Halt (-1) (final r)))
    /\ Mpi.mpiexec (5 + fuel) p envs
       = Mpi.Terminated (world p (fun r => Halt (-1) (final r)))
    /\ forall r, (r < p)%nat ->
         out (final r) = []
         /\ err (final r)
            = if (r =? 0)%nat
              then [diagnostic 0 "Print_vector" "Can't allocate temporary vector"]
              else [].
Proof.
  intros H3 H4 H5.
  pose proof order_fits as Hn.
  set (st := fun r => before_print (envs r) n r (stage_sum envs n local_n r)).
  set (final := fun r =>
    if (r =? 0)%nat
    then with_err (err (st r) ++ [diagnostic r "Print_vector"
                                    "Can't allocate temporary vector"]) (st r)
    else st r).
  assert (Hst : forall r, (r < p)%nat -> err (st r) = [] /\ out (st r) = []).
  { intros r Hr.
    destruct (stage_sum_facts envs p n local_n Hp Hn Halloc r Hr) as (_ & E4 & O4 & _).
    unfold st, before_print. destruct (r =? 0)%nat; [|split; assumption].
    destruct (malloc_state_facts (envs r) n (stage_sum envs n local_n r))
      as (_ & E' & O' & _).
    split; congruence. }
  assert (Hstep :
    Mpi.step (world p (fun r =>
      main_from_print envs p n local_n r (stage_sum envs n local_n r)))
    = inr (world p (fun r => Halt (-1) (final r)))).
  { unfold world at 1. unfold main_from_print.
    rewrite (step_allreduce p _
               (fun r => print_flag (envs r) r (brk (stage_sum envs n local_n r))) st
               (fun r ok s' =>
                  bind_res
                    (if ok =? 0
                     then Halt (-1)
                            (if (r =? 0)%nat
                             then with_err
                                    (err s' ++ [diagnostic r "Print_vector"
                                                  "Can't allocate temporary vector"]) s'
                             else s')
                     else Print_vector_after_check (Some 2%nat) local_n n "The sum is" r
                            (if (r =? 0)%nat
                             then malloc_ptr (envs r) (stage_sum envs n local_n r)
                             else None) s')
                    (fun _ => main_tail)) Hp).
    - assert (Hmin : min_over p
                (fun r => print_flag (envs r) r (brk (stage_sum envs n local_n r))) = 0).
      { destruct (stage_sum_facts envs p n local_n Hp Hn Halloc 0 Hp) as (B4 & _).
        cbn [Nat.eqb] in B4.
        assert (Hf0 : print_flag (envs 0%nat) 0 (brk (stage_sum envs n local_n 0)) = 0)
          by (rewrite B4; unfold print_flag; cbn [Nat.eqb]; rewrite H5; reflexivity).
        pose proof (min_over_le p
          (fun r => print_flag (envs r) r (brk (stage_sum envs n local_n r))) 0 Hp) as Hle.
        cbv beta in Hle. rewrite Hf0 in Hle.
        assert (0 <= min_over p
          (fun r => print_flag (envs r) r (brk (stage_sum envs n local_n r)))).
        { apply min_over_ge; [|exact Hp]. intros r _. unfold print_flag.
          destruct (r =? 0)%nat; [|lia].
          destruct (malloc_ok (envs r) (brk (stage_sum envs n local_n r))); lia. }
        lia. }
      rewrite Hmin. reflexivity.
    - intros r Hr. apply waits_at_bind.
      apply (Print_vector_waits (envs r) 2 local_n n "The sum is" r (comm_of p r)
               (stage_sum envs n local_n r)). }
  assert (Hrounds : Mpi.rounds 4 W0 = Some (world p (fun r => Halt (-1) (final r)))).
  { change 4%nat with (S (S (S 1))). cbn [Mpi.rounds].
    change W0 with (Mpi.spmd p (fun r => Mpi.main_after_Read_n (envs r) n local_n r
                                           (comm_of p r))).
    rewrite (round_allocate envs p n local_n Hp Hn Halloc).
    rewrite (round_x envs p n local_n Hp Hn Halloc H3).
    rewrite (round_y envs p n local_n Hp Hn Halloc H4).
    rewrite Hstep. reflexivity. }
  exists final. split; [exact Hrounds|]. split.
  - unfold Mpi.mpiexec. change (5 + fuel)%nat with (4 + S fuel)%nat.
    rewrite (run_rounds 4 (S fuel) _ _ Hrounds).
    rewrite run_S, step_all_done by reflexivity. reflexivity.
  - intros r Hr. destruct (Hst r Hr) as [E O]. unfold final.
    destruct (r =? 0)%nat eqn:Hr0.
    + apply Nat.eqb_eq in Hr0. subst r. cbn [err out with_err].
      rewrite E, O. split; reflexivity.
    + split; assumption.
Qed.

End LateFailures.

Lemma Read_vector_malloc_unchecked_witness :
  exists W1 s,
    Mpi.step (Mpi.spmd 2 (fun r => Mpi.main (envs_rank0_fails 3 r)
                            {| Mpi.comm_size := 2; Mpi.comm_rank := r |}))
    = inr W1
    /\ W1 !! 0%nat = Some (Fault s)
    /\ err s = [] /\ out s = []
    /\ Mpi.mpiexec (2 + 0) 2 (envs_rank0_fails 3) = Mpi.Undefined.
Proof.
  apply (Read_vector_malloc_unchecked (envs_rank0_fails 3) 2);
    solve [lia | reflexivity | intros [|[|r]] Hr; solve [reflexivity | lia]].
Defined.

Lemma Print_vector_allocation_failure_witness :
  exists final : nat -> lstate,
    Mpi.rounds 4
      (Mpi.spmd 2 (fun r => Mpi.main (envs_rank0_fails 5 r)
                              {| Mpi.comm_size := 2; Mpi.comm_rank := r |}))
    = Some (world 2 (fun r => Halt (-1) (final r)))
    /\ Mpi.mpiexec (5 + 0) 2 (envs_rank0_fails 5)
       = Mpi.Terminated (world 2 (fun r => Halt (-1) (final r)))
    /\ forall r, (r < 2)%nat ->
         out (final r) = []
         /\ err (final r)
            = if (r =? 0)%nat
              then [diagnostic 0 "Print_vector" "Can't allocate temporary vector"]
              else [].
Proof.
  apply (Print_vector_allocation_failure (envs_rank0_fails 5) 2);
    solve [lia | reflexivity | intros [|[|r]] Hr; solve [reflexivity | lia]].
Defined.

(** ** The range of the serial sums *)

Section SumRange.
Context {L : Libc}.

(** Checked on each of the million pairs. *)
Lemma sums_in_range_all :
  forallb (fun a => forallb (sum_in_range a) quotients) quotients = true.
Proof. vm_compute. reflexivity. Qed.

Lemma seeded_vector_quotient (seed : Z) (m i : nat) (x : double) :
  seeded_vector seed m !! i = Some x -> In x quotients.
Proof.
  intros Hx. destruct (seeded_vector_elements _ _ _ _ Hx) as (r & _ & Hr & -> & _).
  unfold quotients. apply in_map_iff. exists (Z.to_nat (r mod 1000)).
  pose proof (Z.mod_pos_bound r 1000 ltac:(lia)).
  split; [rewrite Z2Nat.id by lia; reflexivity|]. apply in_seq. lia.
Qed.

(** X7.  After the two calls of [Generate_random_vector] and the call of
    [Vector_sum] that [main] of the serial program makes, on three separate
    arrays of length [n], every element of the sum lies between [0.0] and
    [199.8]. *)
Theorem serial_sums_range (E : env) (s : lstate) (bx by_ bz : nat)
    (xs ys zs : list double) (m : nat) :
  heap s !! bx = Some xs -> heap s !! by_ = Some ys -> heap s !! bz = Some zs ->
  bx <> by_ -> bz <> bx -> bz <> by_ ->
  length xs = m -> length ys = m -> length zs = m ->
  exists (s' : lstate) (z : list double),
    (Serial.Generate_random_vector E (Some bx) m >>>
     Serial.Generate_random_vector E (Some by_) m >>>
     Serial.Vector_sum (Some bx) (Some by_) (Some bz) m) s = Ret tt s'
    /\ heap s' !! bz = Some z
    /\ length z = m
    /\ forall i v, z !! i = Some v ->
         dleb d_zero v = true /\ dleb v d_199_8 = true.
Proof.
  intros Hx Hy Hz Hxy Hzx Hzy Lx Ly Lz.
  set (X := seeded_vector (time_at E (clock s) mod 2 ^ 32) m).
  set (Y := seeded_vector (time_at E (S (clock s)) mod 2 ^ 32) m).
  assert (LX : length X = m) by apply length_seeded_vector.
  assert (LY : length Y = m) by apply length_seeded_vector.
  erewrite bind_Ret by (apply (Generate_random_vector_spec E s bx xs m Hx Lx)).
  erewrite bind_Ret.
  2:{ apply (Generate_random_vector_spec E _ by_ ys m); [|exact Ly].
      cbn. rewrite lookup_insert_ne by congruence. exact Hy. }
  cbn [clock with_clock with_heap with_rng heap]. fold X. fold Y.
  erewrite (sum_loop_spec _ bx by_ bz X Y zs m); try assumption.
  - eexists _, (zip_with dadd X Y). split; [reflexivity|].
    cbn. rewrite lookup_insert_eq. split; [reflexivity|]. split.
    + rewrite length_zip_with. lia.
    + intros i v Hv. rewrite lookup_zip_with in Hv.
      destruct (X !! i) as [a|] eqn:Ha; [|discriminate].
      destruct (Y !! i) as [b|] eqn:Hb; [|discriminate].
      cbn in Hv. injection Hv as <-.
      pose proof sums_in_range_all as Hall. rewrite forallb_forall in Hall.
      specialize (Hall a (seeded_vector_quotient _ _ _ _ Ha)).
      rewrite forallb_forall in Hall.
      specialize (Hall b (seeded_vector_quotient _ _ _ _ Hb)).
      unfold sum_in_range in Hall. apply andb_true_iff in Hall. exact Hall.
  - cbn. rewrite lookup_insert_ne by congruence. apply lookup_insert_eq.
  - cbn. apply lookup_insert_eq.
  - cbn. rewrite !lookup_insert_ne by congruence. exact Hz.
Qed.

End SumRange.

Lemma serial_sums_range_witness :
  exists (s' : lstate) (z : list double),
    (Serial.Generate_random_vector quiet_env (Some 0%nat) 2 >>>
     Serial.Generate_random_vector quiet_env (Some 1%nat) 2 >>>
     Serial.Vector_sum (Some 0%nat) (Some 1%nat) (Some 2%nat) 2) c1_state = Ret tt s'
    /\ heap s' !! 2%nat = Some z
    /\ length z = 2%nat
    /\ forall i v, z !! i = Some v ->
         dleb d_zero v = true /\ dleb v d_199_8 = true.
Proof.
  apply (serial_sums_range quiet_env c1_state 0 1 2 [1%float; 2%float]
           [8%float; 7%float] [0%float; 0%float] 2);
    solve [reflexivity | lia].
Defined.

(** ** What a successful run of the MPI program leaves *)

Section NoLeak.
Context {L : Libc} (envs : nat -> env) (p : nat).
Hypothesis Hp : (0 < p)%nat.
Hypothesis Halloc : forall r, (r < p)%nat -> alloc_flag (envs r) 0 = 1.

Local Abbreviation n := (Z.to_nat 100000).
Local Abbreviation local_n := (Z.to_nat 100000 / p)%nat.

Lemma after_Read_vector_frame (la ln m : nat) (X : list double) (r : nat)
    (s : lstate) :
  brk s <> la -> heap s !! brk s = None ->
  forall k, k <> la -> heap (after_Read_vector la ln m X r s) !! k = heap s !! k.
Proof.
  intros Hne Hfresh k Hk. unfold after_Read_vector, before_scatter.
  destruct (r =? 0)%nat; cbn.
  - destruct (decide (k = brk s)) as [->|Hb].
    + rewrite lookup_delete_eq. symmetry. exact Hfresh.
    + rewrite lookup_delete_ne by congruence.
      rewrite !lookup_insert_ne by congruence. reflexivity.
  - rewrite lookup_insert_ne by congruence. reflexivity.
Qed.

Lemma stage_allocated_fresh (r : nat) :
  (r < p)%nat -> none_from 3 (stage_allocated envs local_n r).
Proof.
  intros Hr k Hk. unfold stage_allocated.
  rewrite (after_Allocate_heap (envs r) local_n initial_state (Halloc r Hr)).
  cbn [brk initial_state heap]. rewrite !lookup_insert_ne by lia. apply lookup_empty.
Qed.

Lemma stage_y_fresh (r : nat) :
  (r < p)%nat -> none_from 3 (stage_y envs n local_n r).
Proof.
  intros Hr k Hk.
  pose proof (Nat.Div0.mul_div_le n p) as Hn.
  destruct (stage_allocated_facts envs p n local_n Hp Hn Halloc r Hr) as (B1 & _).
  destruct (stage_x_facts envs p n local_n Hp Hn Halloc r Hr) as (B2 & _).
  pose proof (stage_allocated_fresh r Hr) as F1.
  assert (F2 : none_from 3 (stage_x envs n local_n r)).
  { intros j Hj. unfold stage_x.
    rewrite after_Read_vector_frame; [apply F1; exact Hj | | | lia].
    - rewrite B1. lia.
    - apply F1. rewrite B1. lia. }
  unfold stage_y. rewrite after_Read_vector_frame; [apply F2; exact Hk | | | lia].
  - rewrite B2. destruct (r =? 0)%nat; lia.
  - apply F2. rewrite B2. destruct (r =? 0)%nat; lia.
Qed.

(** X8.  A run of the MPI program in which every allocation succeeds goes
    through exactly five collectives, after which every rank has returned 0
    from [main] with every array it allocated freed: rank 0 has called
    [malloc] six times, every other rank three times, and no rank but rank 0
    has printed anything. *)
Theorem successful_run_frees_all :
  malloc_ok (envs 0%nat) 3 = true -> malloc_ok (envs 0%nat) 4 = true ->
  malloc_ok (envs 0%nat) 5 = true ->
  exists final : nat -> lstate,
    Mpi.rounds 5
      (Mpi.spmd p (fun r => Mpi.main (envs r)
                              {| Mpi.comm_size := p; Mpi.comm_rank := r |}))
    = Some (world p (fun r => Ret 0 (final r)))
    /\ forall r, (r < p)%nat ->
         heap (final r) = ∅
         /\ brk (final r) = (if (r =? 0)%nat then 6 else 3)%nat
         /\ (r <> 0%nat -> out (final r) = []).
Proof.
  intros H3 H4 H5.
  pose proof (Nat.Div0.mul_div_le n p) as Hn.
  exists (stage_final envs p n local_n). split.
  - change (Mpi.spmd p (fun r => Mpi.main (envs r)
                          {| Mpi.comm_size := p; Mpi.comm_rank := r |}))
      with (Mpi.spmd p (fun r => Mpi.main_after_Read_n (envs r) n local_n r
                                   (comm_of p r))).
    apply rounds_all; assumption.
  - intros r Hr.
    destruct (stage_y_facts envs p n local_n Hp Hn Halloc r Hr) as (B3 & _).
    pose proof (stage_y_fresh r Hr) as F3.
    destruct (stage_final_output envs p n local_n Hp Hn Halloc r Hr) as (_ & Hout).
    unfold stage_final, stage_printed, after_Print_vector, stage_sum.
    split; [|split].
    + cbn [heap with_heap]. apply freed_three. intros k Hk.
      destruct (r =? 0)%nat; cbn [heap brk with_heap with_out with_brk].
      * destruct (decide (k = brk (stage_y envs n local_n r))) as [->|Hb].
        -- apply lookup_delete_eq.
        -- rewrite lookup_delete_ne by congruence.
           rewrite lookup_insert_ne by lia. apply F3. exact Hk.
      * rewrite lookup_insert_ne by lia. apply F3. exact Hk.
    + destruct (r =? 0)%nat; cbn [brk with_heap with_out with_brk]; rewrite B3;
        reflexivity.
    + intros Hr0. apply Nat.eqb_neq in Hr0. rewrite Hr0 in Hout. exact Hout.
Qed.

End NoLeak.

Lemma successful_run_frees_all_witness :
  exists final : nat -> lstate,
    Mpi.rounds 5
      (Mpi.spmd 4 (fun r => Mpi.main (quiet_envs r)
                              {| Mpi.comm_size := 4; Mpi.comm_rank := r |}))
    = Some (world 4 (fun r => Ret 0 (final r)))
    /\ forall r, (r < 4)%nat ->
         heap (final r) = ∅
         /\ brk (final r) = (if (r =? 0)%nat then 6 else 3)%nat
         /\ (r <> 0%nat -> out (final r) = []).
Proof.
  apply (successful_run_frees_all quiet_envs 4);
    solve [lia | reflexivity | intros; reflexivity].
Defined.

(** ** The contracts of [Read_vector] and [Print_vector] *)

Section Contracts.
Context {L : Libc} {A : Type}.

Lemma freed_temporary (h : gmap nat (list double)) (b la : nat)
    (X blk : list double) :
  b <> la -> h !! b = None ->
  delete b (<[la := blk]> (<[b := X]> h)) = <[la := blk]> h.
Proof.
  intros Hne Hfresh. apply map_eq. intros k.
  destruct (decide (k = b)) as [->|Hb].
  - rewrite lookup_delete_eq, lookup_insert_ne by congruence.
    symmetry. exact Hfresh.
  - rewrite lookup_delete_ne by congruence.
    destruct (decide (k = la)) as [->|Hl].
    + rewrite !lookup_insert_eq. reflexivity.
    + rewrite !lookup_insert_ne by congruence. reflexivity.
Qed.

(** X9.  [Read_vector], called on every rank with a buffer of [local_n]
    elements, is one scatter: rank 0 generates [n] values from the state its
    generator is in, without seeding it, and rank [r] then holds block [r] of
    them in its buffer.  Nothing else changes on any rank: the temporary
    vector of rank 0 is freed, no other array is touched, nothing is printed,
    the clock is not read, and only the generator of rank 0 advances, by [n]
    draws. *)
Theorem Read_vector_contract (p : nat) (envs : nat -> env)
    (la local_n n : nat) (name : string) (f : nat -> unit -> R A)
    (S0 : nat -> lstate) (old : nat -> list double) :
  (0 < p)%nat -> (p * local_n <= n)%nat ->
  malloc_ok (envs 0%nat) (brk (S0 0%nat)) = true ->
  brk (S0 0%nat) <> la ->
  heap (S0 0%nat) !! brk (S0 0%nat) = None ->
  (forall r, (r < p)%nat ->
     heap (S0 r) !! la = Some (old r) /\ length (old r) = local_n) ->
  exists S1 : nat -> lstate,
    Mpi.step (world p (fun r =>
      bind (Mpi.Read_vector (envs r) (Some la) local_n n name r (comm_of p r)) (f r)
        (S0 r)))
    = inr (world p (fun r => f r tt (S1 r)))
    /\ forall r, (r < p)%nat ->
         heap (S1 r)
         = <[la := Mpi.scatter_block (mpi_vector (rng (S0 0%nat)) n) local_n r]>
             (heap (S0 r))
         /\ length (Mpi.scatter_block (mpi_vector (rng (S0 0%nat)) n) local_n r)
            = local_n
         /\ brk (S1 r) = (if (r =? 0)%nat then S (brk (S0 r)) else brk (S0 r))
         /\ rng (S1 r)
            = (if (r =? 0)%nat then rand_advance (rng (S0 r)) n else rng (S0 r))
         /\ clock (S1 r) = clock (S0 r)
         /\ out (S1 r) = out (S0 r)
         /\ err (S1 r) = err (S0 r).
Proof.
  intros Hp Hn Hok Hne Hfresh Hold.
  exists (fun r => after_Read_vector la local_n n (mpi_vector (rng (S0 0%nat)) n)
                     r (S0 r)).
  split.
  - apply (Read_vector_round p envs la local_n n name f S0 old); assumption.
  - intros r Hr. split; [|split].
    + unfold after_Read_vector, before_scatter.
      destruct (r =? 0)%nat eqn:Hr0; cbn; [|reflexivity].
      apply Nat.eqb_eq in Hr0. subst r.
      apply freed_temporary; assumption.
    + apply length_scatter_block. rewrite length_mpi_vector. nia.
    + unfold after_Read_vector, before_scatter.
      destruct (r =? 0)%nat; cbn; repeat split.
Qed.

(** X10.  [Print_vector], called on every rank with a block of [local_n]
    elements, is a reduction and a gather when rank 0 can allocate its
    temporary vector.  Rank 0 then prints the title and [n] numbers: at index
    [k * local_n + j] element [j] of the block of rank [k], and from index
    [p * local_n] on what [malloc] had left in the temporary vector, which
    nobody wrote.  It leaves every array as it was, and the other ranks do
    not change at all. *)
Theorem Print_vector_contract (p : nat) (envs : nat -> env)
    (lb local_n n : nat) (title : string) (f : nat -> unit -> R A)
    (S0 : nat -> lstate) (blk : nat -> list double) :
  (0 < p)%nat -> (p * local_n <= n)%nat ->
  malloc_ok (envs 0%nat) (brk (S0 0%nat)) = true ->
  brk (S0 0%nat) <> lb ->
  heap (S0 0%nat) !! brk (S0 0%nat) = None ->
  (forall r, (r < p)%nat ->
     heap (S0 r) !! lb = Some (blk r) /\ length (blk r) = local_n) ->
  exists (S1 : nat -> lstate) (B : list double),
    Mpi.rounds 2 (world p (fun r =>
      bind (Mpi.Print_vector (envs r) (Some lb) local_n n title r (comm_of p r)) (f r)
        (S0 r)))
    = Some (world p (fun r => f r tt (S1 r)))
    /\ (forall r, (0 < r < p)%nat -> S1 r = S0 r)
    /\ heap (S1 0%nat) = heap (S0 0%nat)
    /\ brk (S1 0%nat) = S (brk (S0 0%nat))
    /\ err (S1 0%nat) = err (S0 0%nat)
    /\ out (S1 0%nat) = out (S0 0%nat) ++ printed title B
    /\ length B = n
    /\ (forall k j, (k < p)%nat -> (j < local_n)%nat ->
          B !! (k * local_n + j)%nat = blk k !! j)
    /\ (forall i, (p * local_n <= i < n)%nat ->
          B !! i = Some (malloc_junk (envs 0%nat) (brk (S0 0%nat)) i)).
Proof.
  intros Hp Hn Hok Hne Hfresh Hblk.
  set (junk := map (malloc_junk (envs 0%nat) (brk (S0 0%nat))) (seq 0 n)).
  set (B := concat (map blk (seq 0 p)) ++ drop (p * local_n) junk).
  assert (Hlen : forall x, In x (seq 0 p) -> length (blk x) = local_n).
  { intros r Hr. apply in_seq in Hr. apply Hblk. lia. }
  assert (Hcat : length (concat (map blk (seq 0 p))) = (p * local_n)%nat).
  { rewrite (length_concat_blocks blk local_n), length_seq; [reflexivity|exact Hlen]. }
  assert (Hjunk : length junk = n) by (unfold junk; rewrite length_map; apply length_seq).
  exists (fun r => after_Print_vector title B r (S0 r)), B.
  split; [|split; [|split; [|split; [|split; [|split; [|split; [|split]]]]]]].
  - destruct (Print_vector_rounds p envs lb local_n n title f S0 blk
                Hp Hn Hok Hne Hblk) as (W1 & E1 & E2).
    cbn [Mpi.rounds]. rewrite E1. fold junk in E2. fold B in E2. rewrite E2.
    reflexivity.
  - intros r Hr. unfold after_Print_vector.
    destruct (r =? 0)%nat eqn:Hr0; [|reflexivity].
    apply Nat.eqb_eq in Hr0. lia.
  - cbn. apply delete_id. exact Hfresh.
  - reflexivity.
  - reflexivity.
  - reflexivity.
  - unfold B. rewrite length_app, Hcat, length_drop. lia.
  - intros k j Hk Hj. unfold B. rewrite lookup_app_l by (rewrite Hcat; nia).
    apply (lookup_concat_blocks _ local_n (seq 0 p) Hlen k k j); [|exact Hj].
    apply lookup_seq. split; [reflexivity | exact Hk].
  - intros i Hi. unfold B. rewrite lookup_app_r by lia.
    rewrite Hcat, lookup_drop.
    replace (p * local_n + (i - p * local_n))%nat with i by lia.
    unfold junk.
    change (map (malloc_junk (envs 0%nat) (brk (S0 0%nat))) (seq 0 n))
      with (malloc_junk (envs 0%nat) (brk (S0 0%nat)) <$> seq 0 n).
    rewrite list_lookup_fmap.
    rewrite (proj2 (lookup_seq 0 n i i)) by (split; [reflexivity | lia]).
    reflexivity.
Qed.

End Contracts.

Lemma Read_vector_contract_witness :
  exists S1 : nat -> lstate,
    Mpi.step (world 2 (fun r =>
      bind (Mpi.Read_vector (quiet_envs r) (Some 0%nat) 2 5 "x" r (comm_of 2 r))
        (fun _ => ret 0) (buffer_state [d_zero; d_zero])))
    = inr (world 2 (fun r => ret 0 (S1 r)))
    /\ forall r, (r < 2)%nat ->
         heap (S1 r)
         = <[0%nat := Mpi.scatter_block
                        (mpi_vector (rng (buffer_state [d_zero; d_zero])) 5) 2 r]>
             (heap (buffer_state [d_zero; d_zero]))
         /\ length (Mpi.scatter_block
                      (mpi_vector (rng (buffer_state [d_zero; d_zero])) 5) 2 r)
            = 2%nat
         /\ brk (S1 r) = (if (r =? 0)%nat then S (brk (buffer_state [d_zero; d_zero]))
                          else brk (buffer_state [d_zero; d_zero]))
         /\ rng (S1 r)
            = (if (r =? 0)%nat
               then rand_advance (rng (buffer_state [d_zero; d_zero])) 5
               else rng (buffer_state [d_zero; d_zero]))
         /\ clock (S1 r) = clock (buffer_state [d_zero; d_zero])
         /\ out (S1 r) = out (buffer_state [d_zero; d_zero])
         /\ err (S1 r) = err (buffer_state [d_zero; d_zero]).
Proof.
  apply (Read_vector_contract 2 quiet_envs 0 2 5 "x" (fun _ _ => ret 0)
           (fun _ => buffer_state [d_zero; d_zero]) (fun _ => [d_zero; d_zero]));
    [lia | lia | reflexivity | cbn; lia | reflexivity
    | intros r Hr; split; reflexivity].
Defined.

Lemma Print_vector_contract_witness :
  exists (S1 : nat -> lstate) (B : list double),
    Mpi.rounds 2 (world 2 (fun r =>
      bind (Mpi.Print_vector (quiet_envs r) (Some 0%nat) 2 5 "The sum is" r
              (comm_of 2 r))
        (fun _ => ret 0) (buffer_state [d_one; d_ten])))
    = Some (world 2 (fun r => ret 0 (S1 r)))
    /\ (forall r, (0 < r < 2)%nat -> S1 r = buffer_state [d_one; d_ten])
    /\ heap (S1 0%nat) = heap (buffer_state [d_one; d_ten])
    /\ brk (S1 0%nat) = S (brk (buffer_state [d_one; d_ten]))
    /\ err (S1 0%nat) = err (buffer_state [d_one; d_ten])
    /\ out (S1 0%nat) = out (buffer_state [d_one; d_ten]) ++ printed "The sum is" B
    /\ length B = 5%nat
    /\ (forall k j, (k < 2)%nat -> (j < 2)%nat ->
          B !! (k * 2 + j)%nat = [d_one; d_ten] !! j)
    /\ (forall i, (2 * 2 <= i < 5)%nat ->
          B !! i = Some (malloc_junk (quiet_envs 0%nat)
                           (brk (buffer_state [d_one; d_ten])) i)).
Proof.
  apply (Print_vector_contract 2 quiet_envs 0 2 5 "The sum is" (fun _ _ => ret 0)
           (fun _ => buffer_state [d_one; d_ten]) (fun _ => [d_one; d_ten]));
    [lia | lia | reflexivity | cbn; lia | reflexivity
    | intros r Hr; split; reflexivity].
Defined.

(** ** The vectors of the MPI program *)

Section MpiVectors.
Context {L : Libc}.

Lemma rand_outputs_app (g : rng_state) (n m : nat) :
  rand_outputs g (n + m) = rand_outputs g n ++ rand_outputs (rand_advance g n) m.
Proof.
  revert g. induction n as [|n IH]; intros g; [reflexivity|].
  cbn [Nat.add rand_outputs rand_advance app]. rewrite IH. reflexivity.
Qed.

Lemma mpi_vector_app (g : rng_state) (n m : nat) :
  mpi_vector g (n + m) = mpi_vector g n ++ mpi_vector (rand_advance g n) m.
Proof. unfold mpi_vector. rewrite rand_outputs_app. apply map_app. Qed.

Lemma gathered_exact (envs : nat -> env) (p local_n n : nat) :
  n = (p * local_n)%nat ->
  gathered envs p n local_n = zip_with dadd (full_x n) (full_y n).
Proof. intros ->. apply gathered_divisible. Qed.

Lemma order_divisible (p : nat) :
  (0 < p)%nat -> 100000 mod Z.of_nat p = 0 ->
  Z.to_nat 100000 = (p * (Z.to_nat 100000 / p))%nat.
Proof.
  intros Hp Hd. apply Nat.Div0.div_exact. apply Nat2Z.inj.
  rewrite Nat2Z.inj_mod, Z2Nat.id by lia. exact Hd.
Qed.

(** X11.  The MPI program never seeds the generator and never reads the
    clock.  When the number of processes divides the order 100000 and every
    allocation succeeds, rank 0 prints the sum of the first 100000 values of
    [(double) rand() / RAND_MAX] drawn from the state a program starts in
    (that of [srand(1)]) and the 100000 values drawn next; so two runs, in
    whatever environments, print the same. *)
Theorem mpi_output_reproducible (envs envs' : nat -> env) (p fuel : nat) :
  (0 < p)%nat -> 100000 mod Z.of_nat p = 0 ->
  (forall r, (r < p)%nat -> alloc_flag (envs r) 0 = 1) ->
  malloc_ok (envs 0%nat) 3 = true -> malloc_ok (envs 0%nat) 4 = true ->
  malloc_ok (envs 0%nat) 5 = true ->
  (forall r, (r < p)%nat -> alloc_flag (envs' r) 0 = 1) ->
  malloc_ok (envs' 0%nat) 3 = true -> malloc_ok (envs' 0%nat) 4 = true ->
  malloc_ok (envs' 0%nat) 5 = true ->
  exists (final final' : nat -> lstate) (X Y : list double),
    Mpi.mpiexec (6 + fuel) p envs
    = Mpi.Terminated (world p (fun r => Ret 0 (final r)))
    /\ Mpi.mpiexec (6 + fuel) p envs'
       = Mpi.Terminated (world p (fun r => Ret 0 (final' r)))
    /\ X ++ Y = mpi_vector (srand 1) (Z.to_nat 100000 + Z.to_nat 100000)
    /\ length X = Z.to_nat 100000
    /\ out (final 0%nat) = printed "The sum is" (zip_with dadd X Y)
    /\ out (final' 0%nat) = out (final 0%nat).
Proof.
  intros Hp Hd Halloc H3 H4 H5 Halloc' H3' H4' H5'.
  set (n := Z.to_nat 100000). set (local_n := (n / p)%nat).
  pose proof (order_divisible p Hp Hd) as Hex. fold n in Hex. fold local_n in Hex.
  assert (Hn : (p * local_n <= n)%nat) by lia.
  assert (Hrun : forall E : nat -> env,
            (forall r, (r < p)%nat -> alloc_flag (E r) 0 = 1) ->
            malloc_ok (E 0%nat) 3 = true -> malloc_ok (E 0%nat) 4 = true ->
            malloc_ok (E 0%nat) 5 = true ->
            Mpi.mpiexec (6 + fuel) p E
            = Mpi.Terminated (world p (fun r => Ret 0 (stage_final E p n local_n r)))
            /\ out (stage_final E p n local_n 0)
               = printed "The sum is" (zip_with dadd (full_x n) (full_y n))).
  { intros E Ha E3 E4 E5. split.
    - unfold Mpi.mpiexec.
      change (Mpi.spmd p (fun r => Mpi.main (E r)
                            {| Mpi.comm_size := p; Mpi.comm_rank := r |}))
        with (Mpi.spmd p (fun r => Mpi.main_after_Read_n (E r) n local_n r
                                     (comm_of p r))).
      apply successful_run; assumption.
    - destruct (stage_final_output E p n local_n Hp Hn Ha 0 Hp) as [_ Hout].
      rewrite Hout. cbn [Nat.eqb]. rewrite (gathered_exact E p local_n n Hex).
      reflexivity. }
  destruct (Hrun envs Halloc H3 H4 H5) as [R1 O1].
  destruct (Hrun envs' Halloc' H3' H4' H5') as [R2 O2].
  exists (stage_final envs p n local_n), (stage_final envs' p n local_n),
    (full_x n), (full_y n).
  split; [exact R1|]. split; [exact R2|]. split; [|split; [|split]].
  - unfold full_x, full_y. symmetry. apply mpi_vector_app.
  - unfold full_x. apply length_mpi_vector.
  - exact O1.
  - rewrite O1, O2. reflexivity.
Qed.

(** Checked on each of the 32768 values of [rand]. *)
Lemma in_zero_one_all :
  forallb (in_zero_one 32767) (zseq 0 (Z.to_nat 32768)) = true.
Proof. vm_compute. reflexivity. Qed.

Lemma in_zseq (len : nat) (start k : Z) :
  start <= k < start + Z.of_nat len -> In k (zseq start len).
Proof.
  revert start. induction len as [|len IH]; intros start Hk; [lia|].
  cbn [zseq]. destruct (Z.eq_dec start k) as [->|Hne]; [left; reflexivity|].
  right. apply IH. lia.
Qed.

Lemma in_zero_one_ok (k : Z) : 0 <= k <= 32767 -> in_zero_one 32767 k = true.
Proof.
  intros Hk. pose proof in_zero_one_all as H.
  rewrite forallb_forall in H. apply H. apply in_zseq. lia.
Qed.

Lemma mpi_vector_elements (g : rng_state) (n i : nat) (v : double) :
  RAND_MAX = 32767 -> mpi_vector g n !! i = Some v ->
  dleb d_zero v = true /\ dleb v d_one = true.
Proof.
  intros HM Hv. unfold mpi_vector in Hv.
  change (map ?f ?l) with (f <$> l) in Hv.
  rewrite list_lookup_fmap in Hv.
  destruct (rand_outputs g n !! i) as [r|] eqn:Hr; [|discriminate].
  cbn in Hv. injection Hv as <-.
  pose proof (rand_outputs_range _ _ _ _ Hr) as Hrange.
  rewrite HM in *.
  pose proof (in_zero_one_ok r Hrange) as Hin.
  unfold in_zero_one in Hin. apply andb_true_iff in Hin. exact Hin.
Qed.

(** X12.  With a C library whose [RAND_MAX] is 32767, after [Read_vector]
    every element of the block each rank holds lies between [0.0] and [1.0],
    both included. *)
Theorem Read_vector_unit_interval {A : Type} (p : nat) (envs : nat -> env)
    (la local_n n : nat) (name : string) (f : nat -> unit -> R A)
    (S0 : nat -> lstate) (old : nat -> list double) :
  RAND_MAX = 32767 ->
  (0 < p)%nat -> (p * local_n <= n)%nat ->
  malloc_ok (envs 0%nat) (brk (S0 0%nat)) = true ->
  brk (S0 0%nat) <> la ->
  (forall r, (r < p)%nat ->
     heap (S0 r) !! la = Some (old r) /\ length (old r) = local_n) ->
  exists S1 : nat -> lstate,
    Mpi.step (world p (fun r =>
      bind (Mpi.Read_vector (envs r) (Some la) local_n n name r (comm_of p r)) (f r)
        (S0 r)))
    = inr (world p (fun r => f r tt (S1 r)))
    /\ forall r, (r < p)%nat ->
         exists blk : list double,
           heap (S1 r) !! la = Some blk
           /\ length blk = local_n
           /\ forall i v, blk !! i = Some v ->
                dleb d_zero v = true /\ dleb v d_one = true.
Proof.
  intros HM Hp Hn Hok Hne Hold.
  set (X := mpi_vector (rng (S0 0%nat)) n).
  exists (fun r => after_Read_vector la local_n n X r (S0 r)). split.
  - apply (Read_vector_round p envs la local_n n name f S0 old); assumption.
  - intros r Hr. exists (Mpi.scatter_block X local_n r).
    assert (Hne' : brk (S0 r) <> la \/ r <> 0%nat).
    { destruct r; [left; exact Hne | right; lia]. }
    split; [|split].
    + unfold after_Read_vector, before_scatter.
      destruct (r =? 0)%nat eqn:Hr0; cbn.
      * apply Nat.eqb_eq in Hr0. subst r.
        rewrite lookup_delete_ne by exact Hne. apply lookup_insert_eq.
      * apply lookup_insert_eq.
    + apply length_scatter_block. unfold X. rewrite length_mpi_vector. nia.
    + intros i v Hv. unfold Mpi.scatter_block in Hv.
      apply lookup_take_Some in Hv. destruct Hv as [Hv _].
      rewrite lookup_drop in Hv.
      apply (mpi_vector_elements _ _ _ _ HM Hv).
Qed.

End MpiVectors.

Lemma mpi_output_reproducible_witness :
  exists (final final' : nat -> lstate) (X Y : list double),
    Mpi.mpiexec (6 + 0) 4 quiet_envs
    = Mpi.Terminated (world 4 (fun r => Ret 0 (final r)))
    /\ Mpi.mpiexec (6 + 0) 4 (envs_rank0_fails 7)
       = Mpi.Terminated (world 4 (fun r => Ret 0 (final' r)))
    /\ X ++ Y = mpi_vector (srand 1) (Z.to_nat 100000 + Z.to_nat 100000)
    /\ length X = Z.to_nat 100000
    /\ out (final 0%nat) = printed "The sum is" (zip_with dadd X Y)
    /\ out (final' 0%nat) = out (final 0%nat).
Proof.
  apply (mpi_output_reproducible quiet_envs (envs_rank0_fails 7) 4 0);
    solve [lia | reflexivity | intros; reflexivity
          | intros [|[|[|[|r]]]] Hr; solve [reflexivity | lia]].
Defined.

Lemma Read_vector_unit_interval_witness :
  exists S1 : nat -> lstate,
    Mpi.step (world 2 (fun r =>
      bind (Mpi.Read_vector (quiet_envs r) (Some 0%nat) 2 5 "x" r (comm_of 2 r))
        (fun _ => ret 0) (buffer_state [d_zero; d_zero])))
    = inr (world 2 (fun r => ret 0 (S1 r)))
    /\ forall r, (r < 2)%nat ->
         exists blk : list double,
           heap (S1 r) !! 0%nat = Some blk
           /\ length blk = 2%nat
           /\ forall i v, blk !! i = Some v ->
                dleb d_zero v = true /\ dleb v d_one = true.
Proof.
  apply (Read_vector_unit_interval 2 quiet_envs 0 2 5 "x" (fun _ _ => ret 0)
           (fun _ => buffer_state [d_zero; d_zero]) (fun _ => [d_zero; d_zero]));
    [reflexivity | lia | lia | reflexivity | cbn; lia
    | intros r Hr; split; reflexivity].
Defined.
